(** * btcdeb: the tiny expression language and the condition stack

    A shallow embedding of [tinyparser.h] (tokenizer, recursive-descent
    parser, AST evaluation against a callback table) and of the
    [ConditionStack] class of [debugger/see.h].

    Pointers are modelled explicitly where the code's behaviour depends on
    them: the tokenizer builds its token chain in a heap of cells addressed
    by natural numbers, with [None] for [nullptr] and a released cell for
    storage that was handed back by [delete].  Reading through a null or
    released pointer has no defined meaning in C++; the model stops there
    with [Undefined]. *)

From Stdlib Require Import ZArith Ascii String List Lia.
From stdpp Require Import base option list strings.

#[local] Open Scope string_scope.
#[local] Open Scope list_scope.
#[local] Open Scope nat_scope.
#[local] Open Scope stdpp_scope.

(** ** Outcomes *)

(** What the C++ standard leaves undefined. *)
Inductive ub : Type :=
| NullDeref        (* access through nullptr *)
| UseAfterFree     (* access to, or second delete of, released storage *)
| BadCast.         (* use of an object through a pointer cast to another class *)

(** Exceptions thrown by the code.  [tokenize] and [treeify] throw
    [std::runtime_error] with a formatted message; the constructor keeps
    what the message is built from. *)
Inductive exn : Type :=
| LexError (c : ascii)                 (* "tokenization failure at character '%c'" *)
| SyntaxError (around : option string) (* "failed to treeify tokens around token %s" *)
| OutOfRange                           (* std::out_of_range from substr *)
| ListEvalError.                       (* "list_t cannot be evaluated directly; ..." *)

Inductive result (A : Type) : Type :=
| Ok (a : A)
| Raise (e : exn)
| Undefined (u : ub)
| NoFuel.

Arguments Ok {A} a.
Arguments Raise {A} e.
Arguments Undefined {A} u.
Arguments NoFuel {A}.

#[global] Instance result_ret : MRet result := fun _ a => Ok a.
#[global] Instance result_bind : MBind result := fun _ _ f m =>
  match m with
  | Ok a => f a
  | Raise e => Raise e
  | Undefined u => Undefined u
  | NoFuel => NoFuel
  end.
#[global] Instance result_fmap : FMap result := fun _ _ f m =>
  match m with
  | Ok a => Ok (f a)
  | Raise e => Raise e
  | Undefined u => Undefined u
  | NoFuel => NoFuel
  end.

Module Tiny.

(** ** Tokens *)

Inductive token_type : Type :=
| tok_undef
| tok_symbol
| tok_number
| tok_equal
| tok_lparen
| tok_rparen
| tok_string
| tok_mul
| tok_plus
| tok_minus
| tok_div
| tok_concat
| tok_comma
| tok_hex
| tok_bin
| tok_consumable
| tok_ws.

#[global] Instance token_type_eq_dec : EqDecision token_type.
Proof. solve_decision. Defined.

(** [c >= lo && c <= hi] on [char]. *)
Definition char_between (lo hi c : ascii) : bool :=
  (N_of_ascii lo <=? N_of_ascii c)%N && (N_of_ascii c <=? N_of_ascii hi)%N.

Definition determine_token (c p : ascii) (restrict_type current : token_type)
  : token_type :=
  if decide (c = "|"%char) then
    (if decide (p = "|"%char) then tok_concat else tok_consumable)
  else if decide (c = "+"%char) then tok_plus
  else if decide (c = "-"%char) then tok_minus
  else if decide (c = "*"%char) then tok_mul
  else if decide (c = "/"%char) then tok_div
  else if decide (c = ","%char) then tok_comma
  else if decide (c = "="%char) then tok_equal
  else if decide (c = ")"%char) then tok_rparen
  else if decide (c = " "%char ∨ c = "009"%char ∨ c = "010"%char) then tok_ws
  else if decide (restrict_type ≠ tok_undef) then
    match restrict_type with
    | tok_hex =>
        if char_between "0" "9" c || char_between "a" "f" c
           || char_between "A" "F" c
        then tok_number else tok_undef
    | tok_bin =>
        if decide (c = "0"%char ∨ c = "1"%char) then tok_number else tok_undef
    | _ => tok_undef
    end
  else if decide (c = "x"%char ∧ p = "0"%char ∧ current = tok_number) then tok_hex
  else if decide (c = "b"%char ∧ p = "0"%char ∧ current = tok_number) then tok_bin
  else if char_between "0" "9" c then
    (if decide (current = tok_symbol) then tok_symbol else tok_number)
  else if bool_decide (current = tok_number)
          && (char_between "a" "f" c || char_between "A" "F" c) then tok_number
  else if char_between "a" "z" c || char_between "A" "Z" c
          || bool_decide (c = "_"%char) then tok_symbol
  else if decide (c = "034"%char) then tok_string
  else if decide (c = "("%char) then tok_lparen
  else tok_undef.

(** ** The token chain in memory *)

(** A [token_t] object; [next = None] is [nullptr], [value = None] is a
    null [char*]. *)
Record token_t : Type := mk_token_t {
  token : token_type;
  value : option string;
  next : option nat
}.

(** Addresses are positions in the heap; [Some c] is a live object and
    [None] storage released by [delete].  [new] never hands out an address
    twice. *)
Abbreviation heap := (list (option token_t)) (only parsing).
Abbreviation ptr := (option nat) (only parsing).

Definition deref (h : heap) (p : ptr) : result token_t :=
  match p with
  | None => Undefined NullDeref
  | Some a =>
      match h !! a with
      | Some (Some c) => Ok c
      | _ => Undefined UseAfterFree
      end
  end.

Definition store (h : heap) (p : ptr) (c : token_t) : result heap :=
  match p with
  | None => Undefined NullDeref
  | Some a =>
      match h !! a with
      | Some (Some _) => Ok (<[a := Some c]> h)
      | _ => Undefined UseAfterFree
      end
  end.

(** [p->token = k] and [p->value = v]. *)
Definition set_token (h : heap) (p : ptr) (k : token_type) : result heap :=
  c ← deref h p; store h p (mk_token_t k (value c) (next c)).

Definition set_value (h : heap) (p : ptr) (v : string) : result heap :=
  c ← deref h p; store h p (mk_token_t (token c) (Some v) (next c)).

(** [new token_t(token_in, prev)]: the constructor links the new object
    behind [prev] when [prev] is not null. *)
Definition new_token_t (h : heap) (token_in : token_type) (prev : ptr)
  : result (heap * ptr) :=
  let a := length h in
  let h1 := h ++ [Some (mk_token_t token_in None None)] in
  match prev with
  | None => Ok (h1, Some a)
  | Some _ =>
      c ← deref h1 prev;
      h2 ← store h1 prev (mk_token_t (token c) (value c) (Some a));
      Ok (h2, Some a)
  end.

(** [delete p]: the destructor deletes [next] when it is not null, then the
    storage of [p] is released. *)
Fixpoint delete_token_t (fuel : nat) (h : heap) (p : ptr) : result heap :=
  match p with
  | None => Ok h
  | Some a =>
      match fuel with
      | 0 => NoFuel
      | S fuel' =>
          c ← deref h p;
          h1 ← delete_token_t fuel' h (next c);
          _ ← deref h1 p;
          Ok (<[a := None]> h1)
      end
  end.

(** ** The tokenizer *)

(** The local variables of [tokenize] that live across loop iterations. *)
Record lexer : Type := mk_lexer {
  hp : heap;
  head : ptr;
  tail : ptr;
  prev : ptr;
  open : bool;
  finalized : bool;
  finding : ascii;
  restrict_type : token_type;
  token_start : nat
}.

Definition lexer_init : lexer :=
  mk_lexer [] None None None false true zero tok_undef 0.

Definition is_prefix_marker (k : token_type) : bool :=
  bool_decide (k = tok_hex ∨ k = tok_bin).

(** [strndup(&s[from], i - from)]: every character before [i] is not NUL. *)
Definition strndup_span (s : string) (from i : nat) : string :=
  substring from (i - from) s.

(** Lines 121-137 of the loop body, for the character [c = s[i]] with
    [p = i ? s[i-1] : 0]: the kind of the character, the checks on a
    pending marker, and whether the token under construction stays open. *)
Definition classify_char (c p : ascii) (st : lexer)
  : result (token_type * lexer) :=
  let '(mk_lexer h head tail prev open finalized finding restrict_type
          token_start) := st in
  current ← match tail with
            | None => Ok tok_undef
            | Some _ => token <$> deref h tail
            end;
  let tk := determine_token c p restrict_type current in
  (* if (token == tok_consumable && tail->token == tok_consumable) throw *)
  twice ← (if decide (tk = tok_consumable)
           then t ← deref h tail; Ok (bool_decide (token t = tok_consumable))
           else Ok false);
  if (twice : bool) then Raise (LexError c) else
  (* if ((token == tok_hex || token == tok_bin) && tail->token == tok_number)
       tail->token = tok_consumable *)
  h ← (if is_prefix_marker tk
       then t ← deref h tail;
            if decide (token t = tok_number)
            then set_token h tail tok_consumable else Ok h
       else Ok h);
  (* if whitespace, close *)
  let open := if decide (tk = tok_ws) then false else open in
  let restrict_type :=
    if decide (tk = tok_ws) then tok_undef else restrict_type in
  (* if open, see if it stays open *)
  open ← (if (open : bool)
          then t ← deref h tail; Ok (bool_decide (tk = token t))
          else Ok false);
  Ok (tk, mk_lexer h head tail prev open finalized finding restrict_type
            token_start).

(** Lines 139-149, under [if (!open)]: a pending marker in front of a
    hex/bin prefix is deleted; otherwise the text of an unfinished token is
    taken from the scanned span. *)
Definition close_token (s : string) (i : nat) (tk : token_type) (st : lexer)
  : result lexer :=
  let '(mk_lexer h head tail prev open finalized finding restrict_type
          token_start) := st in
  pending ← match tail with
            | None => Ok false
            | Some _ =>
                t ← deref h tail;
                Ok (bool_decide (token t = tok_consumable))
            end;
  if (pending : bool) then
    if is_prefix_marker tk then
      h' ← delete_token_t (length h) h tail;
      Ok (mk_lexer h' (if decide (head = tail) then prev else head) prev prev
            open finalized finding tk token_start)
    else Ok st
  else if negb finalized then
    h' ← set_value h tail (strndup_span s token_start i);
    Ok (mk_lexer h' head tail prev open true finding restrict_type
          token_start)
  else Ok st.

(** Lines 150-189, the [switch (token)]. *)
Definition switch_token (i : nat) (c : ascii) (tk : token_type) (st : lexer)
  : result lexer :=
  let '(mk_lexer h head tail prev open finalized finding restrict_type
          token_start) := st in
  match tk with
  | tok_string | tok_symbol | tok_number | tok_consumable =>
      let finding :=
        if decide (tk = tok_string) then "034"%char else finding in
      '(h, fresh) ← new_token_t h tk tail;
      let head := if head is None then fresh else head in
      Ok (mk_lexer h head fresh tail true false finding restrict_type i)
  | tok_equal | tok_lparen | tok_rparen | tok_mul | tok_plus | tok_minus
  | tok_concat | tok_comma | tok_div | tok_hex | tok_bin =>
      t ← deref h tail;
      '(h, head, tail) ←
        (if decide (token t = tok_consumable) then
           h' ← delete_token_t (length h) h tail;
           Ok (h', (if decide (head = tail) then prev else head), prev)
         else Ok (h, head, tail));
      '(h, fresh) ← new_token_t h tk tail;
      (* misses 1 char for concat/hex/bin, but irrelevant *)
      h ← set_value h fresh (String c EmptyString);
      let head := if head is None then fresh else head in
      Ok (mk_lexer h head fresh prev open finalized finding restrict_type
            token_start)
  | tok_ws => Ok st
  | tok_undef => Raise (LexError c)
  end.

(** One iteration of the loop body. *)
Definition tokenize_char (s : string) (i : nat) (c p : ascii) (st : lexer)
  : result lexer :=
  if decide (finding st ≠ zero) then
    (* if we are finding a character, keep reading until we find it *)
    if decide (c ≠ finding st) then Ok st
    else Ok (mk_lexer (hp st) (head st) (tail st) (prev st) false
               (finalized st) zero (restrict_type st) (token_start st))
  else
    '(tk, st) ← classify_char c p st;
    if open st then Ok st
    else st ← close_token s i tk st; switch_token i c tk st.

(** [for (i = 0; s[i]; ++i)]: [rest] is the text from position [i] on; the
    loop ends at the terminating NUL. *)
Fixpoint tokenize_loop (s rest : string) (p : ascii) (i : nat) (st : lexer)
  : result (lexer * nat) :=
  match rest with
  | EmptyString => Ok (st, i)
  | String c rest' =>
      if decide (c = zero) then Ok (st, i)
      else st' ← tokenize_char s i c p st;
           tokenize_loop s rest' c (S i) st'
  end.

(** A token as the parser sees it: its kind and its text. *)
Record tok : Type := mk_tok { kind : token_type; text : option string }.

(** The chain reachable from a pointer by following [next]. *)
Fixpoint chain (fuel : nat) (h : heap) (p : ptr) : result (list tok) :=
  match p with
  | None => Ok []
  | Some _ =>
      match fuel with
      | 0 => NoFuel
      | S fuel' =>
          c ← deref h p;
          l ← chain fuel' h (next c);
          Ok (mk_tok (token c) (value c) :: l)
      end
  end.

(** The state in which [tokenize] returns [head]. *)
Definition tokenize_state (s : string) : result lexer :=
  '(st, i) ← tokenize_loop s s zero 0 lexer_init;
  if finalized st then Ok st
  else h ← set_value (hp st) (tail st) (strndup_span s (token_start st) i);
       Ok (mk_lexer h (head st) (tail st) (prev st) (open st) true
             (finding st) (restrict_type st) (token_start st)).

(** [tokenize], with the returned chain read off as a sequence. *)
Definition tokenize (s : string) : result (list tok) :=
  st ← tokenize_state s;
  chain (length (hp st)) (hp st) (head st).

(** ** The syntax tree *)

(** The classes derived from [st_t].  [call_t::args] is a [list_t*] and may
    be null; a [list_t] object is given by its [values]. *)
#[local] Set Warnings "-register-all".
Inductive st_t : Type :=
| var_t (varname : string)
| value_t (type restriction : token_type) (val : string)
| set_t (varname : string) (val : st_t)
| list_t (values : list st_t)
| call_t (fname : string) (args : option (list st_t))
| bin_t (op_token : token_type) (lhs rhs : st_t).

(** Construction of a [std::string] from a C string; the argument must
    not be null. *)
Definition cstr (v : option string) : result string :=
  match v with
  | Some x => Ok x
  | None => Undefined NullDeref
  end.

(** The constructor of [value_t]: a string loses its first and last
    character through [value.substr(1, value.length() - 2)], which throws
    when the position 1 lies beyond the end. *)
Definition new_value_t (type_in : token_type) (value_in : string)
    (restriction_in : token_type) : result st_t :=
  if decide (type_in = tok_string) then
    if decide (String.length value_in = 0) then Raise OutOfRange
    else Ok (value_t type_in restriction_in
               (substring 1 (String.length value_in - 2) value_in))
  else Ok (value_t type_in restriction_in value_in).

(** ** The grammar rules *)

(** A cursor [token_t*] into the finished chain is the list of tokens from
    that position on; [nullptr] is the empty list.  A rule takes the value
    of [*s] and returns its result together with the value of [*s] at
    return. *)
Abbreviation cursor := (list tok) (only parsing).
Abbreviation parsed := (result (option st_t * list tok)) (only parsing).

Definition parse_variable (s : cursor) : parsed :=
  match s with
  | [] => Undefined NullDeref
  | t :: s_next =>
      if decide (kind t = tok_symbol) then
        v ← cstr (text t); Ok (Some (var_t v), s_next)
      else Ok (None, s)
  end.

Definition parse_value (s : cursor) (restriction : token_type) : parsed :=
  match s with
  | [] => Undefined NullDeref
  | t :: s_next =>
      if decide (kind t = tok_symbol ∨ kind t = tok_number
                 ∨ kind t = tok_string) then
        v ← cstr (text t);
        e ← new_value_t (kind t) v restriction;
        Ok (Some e, s_next)
      else Ok (None, s)
  end.

Definition parse_restricted (s : cursor) : parsed :=
  match s with
  | [] => Undefined NullDeref
  | t :: r =>
      if decide (kind t = tok_hex ∨ kind t = tok_bin) then
        '(x, r) ← (if r is [] then Ok (None, r) else parse_value r (kind t));
        match x with
        | Some e => Ok (Some e, r)
        | None =>
            if decide (kind t = tok_hex) then
              (* we allow '0x'(null) *)
              e ← new_value_t tok_number EmptyString (kind t);
              Ok (Some e, r)
            else
              (* we do not allow '0b'(null) *)
              Ok (None, s)
        end
      else Ok (None, s)
  end.

Definition is_binary_operator (k : token_type) : bool :=
  match k with
  | tok_plus | tok_minus | tok_mul | tok_div | tok_concat => true
  | _ => false
  end.

(** The rules call each other; [fuel] bounds the depth of the calls (see
    [treeify_fuel] for a bound that is always enough). *)
Fixpoint parse_expr (fuel : nat) (s : cursor)
    (allow_tok_binary allow_set : bool) {struct fuel} : parsed :=
  match fuel with
  | 0 => NoFuel
  | S fuel =>
      '(x, s) ← (if allow_tok_binary then parse_tok_binary_expr fuel s
                 else Ok (None, s));
      if x is Some _ then Ok (x, s) else
      '(x, s) ← (if allow_set then parse_set fuel s else Ok (None, s));
      if x is Some _ then Ok (x, s) else
      '(x, s) ← parse_fcall fuel s;
      if x is Some _ then Ok (x, s) else
      '(x, s) ← parse_parenthesized fuel s;
      if x is Some _ then Ok (x, s) else
      '(x, s) ← parse_variable s;
      if x is Some _ then Ok (x, s) else
      '(x, s) ← parse_restricted s;
      if x is Some _ then Ok (x, s) else
      '(x, s) ← parse_value s tok_undef;
      if x is Some _ then Ok (x, s) else
      Ok (None, s)
  end

with parse_set (fuel : nat) (s : cursor) {struct fuel} : parsed :=
  match fuel with
  | 0 => NoFuel
  | S fuel =>
      (* tok_symbol tok_equal [expr] *)
      '(var, r) ← parse_variable s;
      match var with
      | None => Ok (None, s)
      | Some var =>
          match r with
          | [] => Ok (None, s)
          | t :: r_next =>
              if decide (r_next = [] ∨ kind t ≠ tok_equal) then Ok (None, s)
              else
                '(val, r) ← parse_expr fuel r_next true false;
                match val with
                | None => Ok (None, s)
                | Some val =>
                    match var with
                    | var_t varname => Ok (Some (set_t varname val), r)
                    | _ => Undefined BadCast
                    end
                end
          end
      end
  end

with parse_parenthesized (fuel : nat) (s : cursor) {struct fuel} : parsed :=
  match fuel with
  | 0 => NoFuel
  | S fuel =>
      (* tok_lparen expr tok_rparen *)
      match s with
      | [] => Undefined NullDeref
      | t :: r_next =>
          if decide (kind t ≠ tok_lparen ∨ r_next = []) then Ok (None, s)
          else
            '(v, r) ← parse_expr fuel r_next true false;
            match v with
            | None => Ok (None, s)
            | Some v =>
                match r with
                | [] => Ok (None, s)
                | t' :: r_next' =>
                    if decide (kind t' ≠ tok_rparen) then Ok (None, s)
                    else Ok (Some v, r_next')
                end
            end
      end
  end

with parse_tok_binary_expr_post_lhs (fuel : nat) (s : cursor) (lhs : st_t)
    {struct fuel} : parsed :=
  match fuel with
  | 0 => NoFuel
  | S fuel =>
      (* tok_plus|tok_minus|tok_mul|tok_div [expr] *)
      match s with
      | [] => Undefined NullDeref
      | t :: r_next =>
          if negb (is_binary_operator (kind t)) then Ok (None, s)
          else
            let op_token := kind t in
            if r_next is [] then Ok (None, s)
            else
              '(rhs, r) ← parse_expr fuel r_next true false;
              match rhs with
              | None => Ok (None, s)
              | Some rhs => Ok (Some (bin_t op_token lhs rhs), r)
              end
      end
  end

with parse_tok_binary_expr (fuel : nat) (s : cursor) {struct fuel} : parsed :=
  match fuel with
  | 0 => NoFuel
  | S fuel =>
      (* [expr] tok_plus|tok_minus|tok_mul|tok_div [expr] *)
      '(lhs, r) ← parse_expr fuel s false false;
      match lhs with
      | None => Ok (None, s)
      | Some lhs =>
          if r is [] then Ok (None, s)
          else
            '(res, r) ← parse_tok_binary_expr_post_lhs fuel r lhs;
            match res with
            | None => Ok (None, s)
            | Some res => Ok (Some res, r)
            end
      end
  end

(** The [while (r)] loop of [parse_csv], from the cursor [r] with the
    [values] collected so far. *)
with parse_csv_loop (fuel : nat) (r : cursor) (values : list st_t)
    {struct fuel} : result (list st_t * cursor) :=
  match fuel with
  | 0 => NoFuel
  | S fuel =>
      if r is [] then Ok (values, r)
      else
        '(next, r) ← parse_expr fuel r true false;
        match next with
        | None => Ok (values, r)
        | Some next =>
            let values := values ++ [next] in
            match r with
            | [] => Ok (values, r)
            | t :: r_next =>
                if decide (kind t ≠ tok_comma) then Ok (values, r)
                else parse_csv_loop fuel r_next values
            end
        end
  end

with parse_csv (fuel : nat) (s : cursor) {struct fuel} : parsed :=
  match fuel with
  | 0 => NoFuel
  | S fuel =>
      (* [expr] [tok_comma [expr] [tok_comma [expr] [...]] *)
      '(values, r) ← parse_csv_loop fuel s [];
      if decide (length values = 0) then Ok (None, s)
      else Ok (Some (list_t values), r)
  end

with parse_fcall (fuel : nat) (s : cursor) {struct fuel} : parsed :=
  match fuel with
  | 0 => NoFuel
  | S fuel =>
      (* tok_symbol tok_lparen [arg1 [tok_comma arg2 [...]]] tok_rparen *)
      match s with
      | [] => Undefined NullDeref
      | t :: r =>
          if decide (kind t ≠ tok_symbol) then Ok (None, s)
          else
            fname ← cstr (text t);
            match r with
            | [] => Ok (None, s)
            | t1 :: r_next =>
                if decide (r_next = [] ∨ kind t1 ≠ tok_lparen)
                then Ok (None, s)
                else
                  (* may be null, for case function() (0 args) *)
                  '(args, r) ← parse_csv fuel r_next;
                  match r with
                  | [] => Ok (None, s)
                  | t2 :: r_next2 =>
                      if decide (kind t2 ≠ tok_rparen) then Ok (None, s)
                      else
                        match args with
                        | None => Ok (Some (call_t fname None), r_next2)
                        | Some (list_t values) =>
                            Ok (Some (call_t fname (Some values)), r_next2)
                        | Some _ => Undefined BadCast
                        end
                  end
            end
      end
  end.

(** Depth of calls that [parse_expr] can reach on [n] remaining tokens. *)
Definition treeify_fuel (n : nat) : nat := 8 * n + 6.

Definition treeify (tokens : cursor) : result (option st_t) :=
  '(val, s) ← parse_expr (treeify_fuel (length tokens)) tokens true true;
  match s with
  | t :: _ => Raise (SyntaxError (text t))
  | [] => Ok val
  end.

(** ** Evaluation *)

(** [typedef size_t ref]: a handle that only the host interprets; the code
    passes handles on and never computes with them. *)
Definition ref : Type := N.
Definition nullref : ref := 0%N.

(** [st_callback_table]: the host's callbacks, acting on a host state [S].
    [fcall] receives [argv] as a sequence, [argc] being its length. *)
Record st_callback_table (S : Type) : Type := mk_callback_table {
  load : string → S → ref * S;
  save : string → ref → S → S;
  bin : token_type → ref → ref → S → ref * S;
  unary : token_type → ref → S → ref * S;
  fcall : string → list ref → S → ref * S;
  convert : string → token_type → token_type → S → ref * S
}.

Arguments load {S} _ _ _.
Arguments save {S} _ _ _ _.
Arguments bin {S} _ _ _ _ _.
Arguments unary {S} _ _ _ _.
Arguments fcall {S} _ _ _ _.
Arguments convert {S} _ _ _ _ _.

(** [bin_t::eval] is [ct->bin(op_token, lhs->eval(ct), rhs->eval(ct))].
    C++ does not fix the order in which the arguments of a call are
    evaluated; the compiler picks one. *)
Inductive arg_order : Type := LeftToRight | RightToLeft.

Section Eval.
Context {S : Type}.
Variable order : arg_order.
Variable ct : st_callback_table S.

Fixpoint eval (t : st_t) (st : S) {struct t} : result (ref * S) :=
  match t with
  | var_t varname => Ok (load ct varname st)
  | value_t type restriction val => Ok (convert ct val type restriction st)
  | set_t varname val =>
      '(r, st) ← eval val st;
      Ok (nullref, save ct varname r st)
  | list_t _ => Raise ListEvalError
  | call_t fname args =>
      match args with
      | None => Undefined NullDeref
      | Some values =>
          (* list_t::list_eval *)
          '(listref, st) ←
            (fix list_eval (values : list st_t) (st : S)
               : result (list ref * S) :=
               match values with
               | [] => Ok ([], st)
               | v :: values' =>
                   '(r, st) ← eval v st;
                   '(rs, st) ← list_eval values' st;
                   Ok (r :: rs, st)
               end) values st;
          Ok (fcall ct fname listref st)
      end
  | bin_t op_token lhs rhs =>
      match order with
      | LeftToRight =>
          '(a, st) ← eval lhs st;
          '(b, st) ← eval rhs st;
          Ok (bin ct op_token a b st)
      | RightToLeft =>
          '(b, st) ← eval rhs st;
          '(a, st) ← eval lhs st;
          Ok (bin ct op_token a b st)
      end
  end.

(** [list_t::list_eval]: the elements in index order. *)
Fixpoint list_eval (values : list st_t) (st : S) : result (list ref * S) :=
  match values with
  | [] => Ok ([], st)
  | v :: values' =>
      '(r, st) ← eval v st;
      '(rs, st) ← list_eval values' st;
      Ok (r :: rs, st)
  end.
End Eval.

(** A contract that records call order: the host [ct] wrapped so that every
    callback appends itself, with its arguments and result, to a log. *)
Inductive call : Type :=
| CLoad (variable : string) (res : ref)
| CSave (variable : string) (val : ref)
| CBin (op : token_type) (lhs rhs : ref) (res : ref)
| CUnary (op : token_type) (val : ref) (res : ref)
| CFcall (fname : string) (argv : list ref) (res : ref)
| CConvert (val : string) (type restriction : token_type) (res : ref).

Definition recording {S : Type} (ct : st_callback_table S)
  : st_callback_table (S * list call) :=
  mk_callback_table (S * list call)
    (fun v '(st, log) =>
       let '(r, st) := load ct v st in (r, (st, log ++ [CLoad v r])))
    (fun v x '(st, log) => (save ct v x st, log ++ [CSave v x]))
    (fun op a b '(st, log) =>
       let '(r, st) := bin ct op a b st in (r, (st, log ++ [CBin op a b r])))
    (fun op a '(st, log) =>
       let '(r, st) := unary ct op a st in (r, (st, log ++ [CUnary op a r])))
    (fun f argv '(st, log) =>
       let '(r, st) := fcall ct f argv st in
       (r, (st, log ++ [CFcall f argv r])))
    (fun v ty re '(st, log) =>
       let '(r, st) := convert ct v ty re st in
       (r, (st, log ++ [CConvert v ty re r]))).

(** ** Predicates used to state the properties *)

(** A token with a text. *)
Definition tk (k : token_type) (v : string) : tok := mk_tok k (Some v).

(** The grammar rules by name, to speak about all of them at once. *)
Inductive rule : Type :=
| rule_variable
| rule_value (restriction : token_type)
| rule_restricted
| rule_set
| rule_parenthesized
| rule_expr (allow_tok_binary allow_set : bool)
| rule_tok_binary_expr
| rule_tok_binary_expr_post_lhs (lhs : st_t)
| rule_csv
| rule_fcall.

Definition apply_rule (fuel : nat) (r : rule) (s : cursor) : parsed :=
  match r with
  | rule_variable => parse_variable s
  | rule_value restriction => parse_value s restriction
  | rule_restricted => parse_restricted s
  | rule_set => parse_set fuel s
  | rule_parenthesized => parse_parenthesized fuel s
  | rule_expr allow_tok_binary allow_set =>
      parse_expr fuel s allow_tok_binary allow_set
  | rule_tok_binary_expr => parse_tok_binary_expr fuel s
  | rule_tok_binary_expr_post_lhs lhs =>
      parse_tok_binary_expr_post_lhs fuel s lhs
  | rule_csv => parse_csv fuel s
  | rule_fcall => parse_fcall fuel s
  end.

(** What a rule started at cursor [s] may return: a cursor further down the
    same sequence, and [s] itself when it fails. *)
Definition rule_ok (s : cursor) (r : parsed) : Prop :=
  ∀ x s', r = Ok (x, s') → s' `suffix_of` s ∧ (x = None → s' = s).

Definition loop_ok (r : cursor) (res : result (list st_t * cursor)) : Prop :=
  ∀ vs r', res = Ok (vs, r') → r' `suffix_of` r.

Definition rules_ok (n : nat) : Prop :=
  (∀ s ab a, rule_ok s (parse_expr n s ab a)) ∧
  (∀ s, rule_ok s (parse_set n s)) ∧
  (∀ s, rule_ok s (parse_parenthesized n s)) ∧
  (∀ s lhs, rule_ok s (parse_tok_binary_expr_post_lhs n s lhs)) ∧
  (∀ s, rule_ok s (parse_tok_binary_expr n s)) ∧
  (∀ r vs, loop_ok r (parse_csv_loop n r vs)) ∧
  (∀ s, rule_ok s (parse_csv n s)) ∧
  (∀ s, rule_ok s (parse_fcall n s)).

(** A token as [tokenize] finalizes it: a symbol, number or string has a
    text, and the text of a string is not empty. *)
Definition tok_wf (t : tok) : Prop :=
  kind t = tok_symbol ∨ kind t = tok_number ∨ kind t = tok_string →
  ∃ v, text t = Some v ∧ (kind t = tok_string → String.length v ≠ 0).

(** Neither an exception nor undefined behaviour. *)
Definition no_fault {A} (r : result A) : Prop :=
  match r with
  | Ok _ | NoFuel => True
  | Raise _ | Undefined _ => False
  end.

Definition rules_no_fault (n : nat) : Prop :=
  (∀ s ab a, Forall tok_wf s → s ≠ [] → no_fault (parse_expr n s ab a)) ∧
  (∀ s, Forall tok_wf s → s ≠ [] → no_fault (parse_set n s)) ∧
  (∀ s, Forall tok_wf s → s ≠ [] → no_fault (parse_parenthesized n s)) ∧
  (∀ s lhs, Forall tok_wf s → s ≠ [] →
            no_fault (parse_tok_binary_expr_post_lhs n s lhs)) ∧
  (∀ s, Forall tok_wf s → s ≠ [] → no_fault (parse_tok_binary_expr n s)) ∧
  (∀ r vs, Forall tok_wf r → no_fault (parse_csv_loop n r vs)) ∧
  (∀ s, Forall tok_wf s → no_fault (parse_csv n s)) ∧
  (∀ s, Forall tok_wf s → s ≠ [] → no_fault (parse_fcall n s)).

Definition has_fuel {A} (r : result A) : Prop :=
  match r with
  | NoFuel => False
  | _ => True
  end.

(** Fuel with which no rule, started on [s], runs out. *)
Definition fuel_enough (s : cursor) : Prop :=
  (∀ (n : nat) lhs, 8 * length s + 1 ≤ n →
            has_fuel (parse_tok_binary_expr_post_lhs n s lhs)) ∧
  (∀ n : nat, 8 * length s + 3 ≤ n → has_fuel (parse_set n s)) ∧
  (∀ n : nat, 8 * length s + 3 ≤ n → has_fuel (parse_parenthesized n s)) ∧
  (∀ n : nat, 8 * length s + 3 ≤ n → has_fuel (parse_fcall n s)) ∧
  (∀ (n : nat) a, 8 * length s + 4 ≤ n → has_fuel (parse_expr n s false a)) ∧
  (∀ n : nat, 8 * length s + 5 ≤ n → has_fuel (parse_tok_binary_expr n s)) ∧
  (∀ (n : nat) ab a, 8 * length s + 6 ≤ n → has_fuel (parse_expr n s ab a)) ∧
  (∀ (n : nat) vs, 8 * length s + 7 ≤ n → has_fuel (parse_csv_loop n s vs)) ∧
  (∀ n : nat, 8 * length s + 8 ≤ n → has_fuel (parse_csv n s)).

(** A host to try evaluation on: three variables with fixed values,
    subtraction for [tok_minus], no state. *)
Definition sample_contract : st_callback_table unit :=
  mk_callback_table unit
    (fun v _ =>
       ((if decide (v = "a") then 5
         else if decide (v = "b") then 3
         else if decide (v = "c") then 1 else 0)%N, tt))
    (fun _ _ _ => tt)
    (fun op x y _ =>
       ((if decide (op = tok_minus) then x - y else 0)%N, tt))
    (fun _ _ _ => (0%N, tt))
    (fun _ argv _ => (N.of_nat (length argv), tt))
    (fun _ _ _ _ => (0%N, tt)).

(** The cell of a token [d] whose [next] is [nx]. *)
Definition cell_of (d : tok) (nx : ptr) : option token_t :=
  Some (mk_token_t (kind d) (text d) nx).

(** [seg h p T q]: following [next] from [p] passes through the live cells
    listed in [T], with their addresses and contents, and arrives at [q];
    every link points to a higher address. *)
Fixpoint seg (h : heap) (p : ptr) (T : list (nat * tok)) (q : ptr) : Prop :=
  match T with
  | [] => p = q
  | (a, d) :: T' =>
      p = Some a ∧
      ∃ nx, h !! a = Some (cell_of d nx) ∧
            (∀ b, nx = Some b → a < b) ∧ seg h nx T' q
  end.

(** Address of the last cell of a segment. *)
Definition last_addr (T : list (nat * tok)) : ptr := fst <$> last T.

(** A token that is not a pending marker has a text, which is not empty. *)
Definition with_text (d : tok) : Prop :=
  kind d ≠ tok_consumable → ∃ v, text d = Some v ∧ v ≠ EmptyString.

(** Parens, operators, comma and equal. *)
Definition is_structural (k : token_type) : bool :=
  match k with
  | tok_equal | tok_lparen | tok_rparen | tok_mul | tok_plus | tok_minus
  | tok_div | tok_concat | tok_comma => true
  | _ => false
  end.

Definition one_char (d : tok) : Prop :=
  ∃ ch, text d = Some (String ch EmptyString).

(** A token of an input without pipes, once another token follows it. *)
Definition neat (d : tok) : Prop :=
  kind d ≠ tok_consumable ∧ (is_structural (kind d) = true → one_char d).

(** The token at [tail] between two steps: its text is known once
    [finalized] is set; on an input without pipes it is a marker only
    while [pm] holds, and a structural token has its one character and
    will not be finalized again. *)
Definition tail_steady (clean pm : Prop) (fin : bool) (d : tok) : Prop :=
  (fin = true → with_text d) ∧
  (clean → (kind d = tok_consumable → pm) ∧
           (is_structural (kind d) = true → one_char d ∧ fin = true)).

(** The token at [tail] when the switch is entered for a character of kind
    [k]. *)
Definition tail_ready (clean : Prop) (k : token_type) (fin : bool) (d : tok)
  : Prop :=
  with_text d ∧
  (clean → kind d ≠ tok_consumable ∧
           (is_structural (kind d) = true → one_char d) ∧
           (is_prefix_marker k = false → fin = true)).

(** The kinds of the tokens that are opened and accumulate characters. *)
Definition open_kind (k : token_type) : Prop :=
  k = tok_string ∨ k = tok_symbol ∨ k = tok_number ∨ k = tok_consumable.

(** The chain and the variables of the tokenizer, with [Q] holding of the
    token at [tail].  The chain from [head] runs through [T] to [tail];
    [tail->next] is null, or is left over from a deleted successor; [i] is
    the position of the next character. *)
Definition lex_core (clean : Prop) (Q : tok → Prop) (i : nat) (st : lexer)
  : Prop :=
  ∃ T : list (nat * tok),
    seg (hp st) (head st) T (tail st) ∧
    Forall (λ x, with_text (snd x)) T ∧
    (clean → Forall (λ x, neat (snd x)) T) ∧
    (finalized st = false → token_start st < i) ∧
    match tail st with
    | None => T = []
    | Some t =>
        ∃ d nx, hp st !! t = Some (cell_of d nx) ∧
          (nx = None ∨ ∃ b, nx = Some b ∧ t < b ∧ hp st !! b = Some None) ∧
          (nx = None → open_kind (kind d) → prev st = last_addr T) ∧
          Q d
    end.

Definition lex_steady (clean pm : Prop) (i : nat) (st : lexer) : Prop :=
  lex_core clean (tail_steady clean pm (finalized st)) i st.

Definition lex_ready (clean : Prop) (k : token_type) (i : nat) (st : lexer)
  : Prop :=
  lex_core clean (tail_ready clean k (finalized st)) i st.

(** The token at [tail] when [tokenize] returns. *)
Definition tail_final (clean : Prop) (d : tok) : Prop :=
  with_text d ∧ (clean → neat d).

(** No pipe character in the text. *)
Fixpoint pipe_free (s : string) : bool :=
  match s with
  | EmptyString => true
  | String c s' => negb (Ascii.eqb c "|") && pipe_free s'
  end.

(** ** Printing, and predicates for further properties *)

(** An expression: no assignment inside, and a [list_t] only as the
    arguments of a call. *)
Fixpoint expr_tree (e : st_t) : bool :=
  match e with
  | var_t _ | value_t _ _ _ => true
  | set_t _ _ | list_t _ => false
  | call_t _ None => true
  | call_t _ (Some values) => forallb expr_tree values
  | bin_t _ lhs rhs => expr_tree lhs && expr_tree rhs
  end.

(** An expression, or the assignment of an expression to a variable. *)
Definition top_tree (e : st_t) : bool :=
  match e with
  | set_t _ val => expr_tree val
  | _ => expr_tree e
  end.

(** What a rule started at [s] returns: never a longer cursor, and with a
    tree a shorter one and a tree of shape [Q]. *)
Definition consumes (Q : st_t → bool) (s : cursor) (r : parsed) : Prop :=
  ∀ x s', r = Ok (x, s') →
    length s' ≤ length s ∧
    ∀ e, x = Some e → length s' < length s ∧ Q e = true.

Definition is_list_of (Q : st_t → bool) (e : st_t) : bool :=
  match e with
  | list_t values => forallb Q values
  | _ => false
  end.

Definition rules_consume (n : nat) : Prop :=
  (∀ s ab (a : bool), consumes (if a then top_tree else expr_tree) s
               (parse_expr n s ab a)) ∧
  (∀ s, consumes top_tree s (parse_set n s)) ∧
  (∀ s, consumes expr_tree s (parse_parenthesized n s)) ∧
  (∀ s lhs, expr_tree lhs = true →
            consumes expr_tree s (parse_tok_binary_expr_post_lhs n s lhs)) ∧
  (∀ s, consumes expr_tree s (parse_tok_binary_expr n s)) ∧
  (∀ r vs vs' r', forallb expr_tree vs = true →
     parse_csv_loop n r vs = Ok (vs', r') →
     forallb expr_tree vs' = true ∧ length r' ≤ length r ∧
     length vs ≤ length vs' ∧ (length vs < length vs' → length r' < length r)) ∧
  (∀ s, consumes (is_list_of expr_tree) s (parse_csv n s)) ∧
  (∀ s, consumes expr_tree s (parse_fcall n s)).

(** A call without arguments somewhere in the tree. *)
Fixpoint has_empty_call (e : st_t) : bool :=
  match e with
  | var_t _ | value_t _ _ _ => false
  | set_t _ val => has_empty_call val
  | list_t values => existsb has_empty_call values
  | call_t _ None => true
  | call_t _ (Some values) => existsb has_empty_call values
  | bin_t _ lhs rhs => has_empty_call lhs || has_empty_call rhs
  end.

(** Number of nodes of a tree, the argument list of a call not counted. *)
Fixpoint nodes (e : st_t) : nat :=
  match e with
  | var_t _ | value_t _ _ _ => 1
  | set_t _ val => S (nodes val)
  | list_t values => S (list_sum (map nodes values))
  | call_t _ None => 1
  | call_t _ (Some values) => S (list_sum (map nodes values))
  | bin_t _ lhs rhs => S (nodes lhs + nodes rhs)
  end.

Definition is_unary (c : call) : bool :=
  match c with
  | CUnary _ _ _ => true
  | _ => false
  end.

(** [log'] is [log] with [n] more calls, none of them to [unary]. *)
Definition adds (n : nat) (log log' : list call) : Prop :=
  ∃ tr, log' = log ++ tr ∧ length tr = n ∧
        Forall (λ c, is_unary c = false) tr.

(** What evaluation comes to: a value, or the null [args] of a call. *)
Definition eval_outcome {S A} (e_null : bool) (r : result (A * S)) : Prop :=
  if e_null then r = Undefined NullDeref else ∃ a st', r = Ok (a, st').

(** The tokens of [x o1 y1 o2 y2 ...]: a symbol, then pairs of an operator
    token and a symbol. *)
Definition operand_chain (x : string) (rest : list (tok * string)) : list tok :=
  tk tok_symbol x :: flat_map (λ p, [fst p; tk tok_symbol (snd p)]) rest.

(** The tree that nests to the right: [x o1 (y1 o2 (y2 ...))]. *)
Fixpoint right_nested (x : string) (rest : list (tok * string)) : st_t :=
  match rest with
  | [] => var_t x
  | p :: rest' =>
      bin_t (kind (fst p)) (var_t x) (right_nested (snd p) rest')
  end.

(** The characters of identifiers and of decimal numbers. *)
Definition is_letter (c : ascii) : bool :=
  char_between "a" "z" c || char_between "A" "Z" c
  || bool_decide (c = "_"%char).
Definition is_digit (c : ascii) : bool := char_between "0" "9" c.

(** Every character of the text satisfies [f]. *)
Fixpoint all_chars (f : ascii → bool) (s : string) : bool :=
  match s with
  | EmptyString => true
  | String c s' => f c && all_chars f s'
  end.

(** The tokenizer in the middle of a word of kind [k]: one open token that
    starts at position 0. *)
Definition in_word (k : token_type) : lexer :=
  mk_lexer [Some (mk_token_t k None None)] (Some 0) (Some 0) None
    true false zero tok_undef 0.

(** The double quote. *)
Definition quote : ascii := "034"%char.

(** The tokenizer inside a string literal that started at position 0
    ([closed = false]), and after its closing quote. *)
Definition in_string (closed : bool) : lexer :=
  mk_lexer [Some (mk_token_t tok_string None None)] (Some 0) (Some 0) None
    (negb closed) false (if closed then zero else quote) tok_undef 0.

(** The kinds that a token of the chain can have: every kind but
    whitespace and [tok_undef]. *)
Definition is_token_kind (k : token_type) : bool :=
  match k with
  | tok_ws | tok_undef => false
  | _ => true
  end.

(** Every live object of the heap has a kind of a token. *)
Definition heap_kinds (h : heap) : Prop :=
  ∀ a c, h !! a = Some (Some c) → is_token_kind (token c) = true.

(** A heap with [n] more objects than [h], all of them with the kind of a
    token. *)
Definition grows (n : nat) (h h' : heap) : Prop :=
  length h' ≤ length h + n ∧ (heap_kinds h → heap_kinds h').

(** Every live object is the head of the chain or the [next] of a live
    object at a lower address. *)
Definition linked (h : heap) (hd : ptr) : Prop :=
  ∀ a c, h !! a = Some (Some c) →
    hd = Some a ∨ ∃ b cb, b < a ∧ h !! b = Some (Some cb) ∧ next cb = Some a.

(** The [next] of the object at [tl] does not point to a live object. *)
Definition loose_end (h : heap) (tl : ptr) : Prop :=
  ∀ t ct a c, tl = Some t → h !! t = Some (Some ct) → next ct = Some a →
              h !! a ≠ Some (Some c).

(** [token_type_str] *)
Definition token_type_str (k : token_type) : string :=
  match k with
  | tok_undef => "???"
  | tok_symbol => "symbol"
  | tok_number => "number"
  | tok_equal => "equal"
  | tok_lparen => "lparen"
  | tok_rparen => "rparen"
  | tok_string => "string"
  | tok_mul => "mul"
  | tok_plus => "plus"
  | tok_minus => "minus"
  | tok_div => "div"
  | tok_concat => "concat"
  | tok_comma => "comma"
  | tok_hex => "hex"
  | tok_bin => "bin"
  | tok_consumable => "consumable"
  | tok_ws => "ws"
  end.

(** What [printf] writes for a [%s] argument: the characters up to the
    first NUL. *)
Fixpoint printf_s (s : string) : string :=
  match s with
  | EmptyString => EmptyString
  | String c s' => if decide (c = zero) then EmptyString
                   else String c (printf_s s')
  end.

(** The line that [token_t::print] writes for one token:
    [printf("[%s %s]\n", token_type_str[token], value ?: "<null>")]. *)
Definition token_line (k : token_type) (v : option string) : string :=
  "[" +:+ token_type_str k +:+ " " +:+ printf_s (default "<null>" v)
  +:+ "]" +:+ String "010"%char EmptyString.

(** [token_t::print], called on [p]: the text written to the standard
    output. *)
Fixpoint token_t_print (fuel : nat) (h : heap) (p : ptr) : result string :=
  match fuel with
  | 0 => NoFuel
  | S fuel' =>
      c ← deref h p;
      let line := token_line (token c) (value c) in
      match next c with
      | None => Ok line
      | Some _ => rest ← token_t_print fuel' h (next c); Ok (line +:+ rest)
      end
  end.

(** The [print] methods of the syntax tree: the text written. *)
Fixpoint print (t : st_t) : result string :=
  match t with
  | var_t varname => Ok (printf_s varname)
  | value_t type _ val => Ok (token_type_str type +:+ ":" +:+ printf_s val)
  | set_t varname val =>
      s ← print val; Ok (printf_s varname +:+ " = " +:+ s)
  | list_t values =>
      s ← (fix print_values (i : nat) (values : list st_t) : result string :=
             match values with
             | [] => Ok EmptyString
             | v :: values' =>
                 s ← print v;
                 rest ← print_values (S i) values';
                 Ok ((if i is 0 then EmptyString else ", ") +:+ s +:+ rest)
             end) 0 values;
      Ok ("[" +:+ s +:+ "]")
  | call_t fname args =>
      match args with
      | None => Undefined NullDeref
      | Some values =>
          (* list_t::print *)
          s ← (fix print_values (i : nat) (values : list st_t)
                 : result string :=
                 match values with
                 | [] => Ok EmptyString
                 | v :: values' =>
                     s ← print v;
                     rest ← print_values (S i) values';
                     Ok ((if i is 0 then EmptyString else ", ")
                         +:+ s +:+ rest)
                 end) 0 values;
          Ok (printf_s fname +:+ "(" +:+ "[" +:+ s +:+ "]" +:+ ")")
      end
  | bin_t op_token lhs rhs =>
      a ← print lhs;
      b ← print rhs;
      Ok ("(tok_bin " +:+ token_type_str op_token +:+ " " +:+ a +:+ " "
          +:+ b +:+ ")")
  end.

(** The loop of [list_t::print] from index [i]. *)
Fixpoint print_values (i : nat) (values : list st_t) : result string :=
  match values with
  | [] => Ok EmptyString
  | v :: values' =>
      s ← print v;
      rest ← print_values (S i) values';
      Ok ((if i is 0 then EmptyString else ", ") +:+ s +:+ rest)
  end.

(** The lines of a sequence of tokens. *)
Definition token_lines (l : list tok) : string :=
  foldr (λ t out, token_line (kind t) (text t) +:+ out) EmptyString l.

(** ** Token sequences and texts for the grammar and the tokenizer *)

(** A token at which an expression of operands and operators ends: not an
    operator, and not the parenthesis that would make a call of the last
    operand. *)
Definition ends_expr (s : cursor) : Prop :=
  match s with
  | [] => True
  | t :: _ => is_binary_operator (kind t) = false ∧ kind t ≠ tok_lparen
  end.

(** The tokens of [x, y1, y2, ...]: symbols separated by a comma token. *)
Fixpoint csv_tokens (comma : tok) (x : string) (xs : list string) : list tok :=
  tk tok_symbol x ::
  match xs with
  | [] => []
  | y :: ys => comma :: csv_tokens comma y ys
  end.

(** The kind of a character that is a token by itself. *)
Definition punct_kind (c : ascii) : option token_type :=
  if decide (c = "+"%char) then Some tok_plus
  else if decide (c = "-"%char) then Some tok_minus
  else if decide (c = "*"%char) then Some tok_mul
  else if decide (c = "/"%char) then Some tok_div
  else if decide (c = ","%char) then Some tok_comma
  else if decide (c = "="%char) then Some tok_equal
  else if decide (c = ")"%char) then Some tok_rparen
  else if decide (c = "("%char) then Some tok_lparen
  else None.

(** The pieces of a text without whitespace, strings and pipes: words
    (identifiers and decimal numbers) and single characters. *)
Inductive item : Type :=
| Word (k : token_type) (w : string)
| Punct (c : ascii).

Definition item_text (x : item) : string :=
  match x with
  | Word _ w => w
  | Punct c => String c EmptyString
  end.

Definition item_tok (x : item) : tok :=
  match x with
  | Word k w => tk k w
  | Punct c => tk (default tok_undef (punct_kind c)) (String c EmptyString)
  end.

Definition items_text (items : list item) : string :=
  foldr (λ x s, item_text x +:+ s) EmptyString items.

(** An identifier, or a run of decimal digits. *)
Definition word_ok (k : token_type) (w : string) : bool :=
  match w with
  | EmptyString => false
  | String c r =>
      match k with
      | tok_symbol =>
          is_letter c && all_chars (λ x, is_letter x || is_digit x) r
      | tok_number => is_digit c && all_chars is_digit r
      | _ => false
      end
  end.

(** Words are well formed and no two of them are adjacent; [after_word]
    tells whether a word comes just before. *)
Fixpoint items_ok (after_word : bool) (items : list item) : bool :=
  match items with
  | [] => true
  | Word k w :: items' =>
      negb after_word && word_ok k w && items_ok true items'
  | Punct c :: items' =>
      bool_decide (is_Some (punct_kind c)) && items_ok false items'
  end.

(** The objects of a chain [T] followed by one more token, allocated in
    order: each [next] is the following address. *)
Definition linked_cells (T : list tok) : list (option token_t) :=
  imap (λ i d, cell_of d (Some (S i))) T.

Definition chain_heap (T : list tok) (d : tok) : list (option token_t) :=
  linked_cells T ++ [cell_of d None].

(** The tokenizer with the chain [T], [d] in memory and [d] at [tail]. *)
Definition lexing (T : list tok) (d : tok) (pv : option nat)
    (op fin : bool) (ts : nat) : lexer :=
  mk_lexer (chain_heap T d) (Some 0) (Some (length T)) pv op fin zero
    tok_undef ts.

(** The characters that continue a word of kind [k]. *)
Definition word_char (k : token_type) (c : ascii) : bool :=
  match k with
  | tok_symbol => is_letter c || is_digit c
  | tok_number => is_digit c
  | _ => false
  end.

(** The state in which the loop ends, and the tokens it stands for. *)
Definition lexed (s : string) (st : lexer) (toks : list tok) : Prop :=
  (∃ T d pv ts, st = lexing T d pv false true ts ∧ toks = T ++ [d]) ∨
  (∃ T k w pv ts, st = lexing T (mk_tok k None) pv true false ts ∧
                  toks = T ++ [tk k w] ∧
                  strndup_span s ts (String.length s) = w).

(** The text [f(x,y1,...,yn)], without whitespace. *)
Definition call_text (f x : string) (ys : list string) : string :=
  f +:+ "(" +:+ x +:+ foldr (λ y s, "," +:+ y +:+ s) ")" ys.

(** The text [x=y c1 z1 ... cn zn], without whitespace: [rest] lists each
    operator character with the operand that follows it. *)
Definition assignment_text (x y : string) (rest : list (ascii * string))
  : string :=
  x +:+ "=" +:+ y +:+
  foldr (λ p s, String (fst p) (snd p +:+ s)) EmptyString rest.

(** The characters [+ - * /]. *)
Definition is_operator_char (c : ascii) : bool :=
  bool_decide (c = "+"%char ∨ c = "-"%char ∨ c = "*"%char ∨ c = "/"%char).

(** The token of an operator character, with the operand that follows. *)
Definition operator_tok (p : ascii * string) : tok * string :=
  (item_tok (Punct (fst p)), snd p).

Definition is_identifier (x : string) : bool := word_ok tok_symbol x.

(** ** Requests to the contract, printed text, and states of the tokenizer *)

(** What a call asks of the contract: the callback and the arguments that
    come from the tree, without the handles passed and returned. *)
Inductive request : Type :=
| RLoad (variable : string)
| RSave (variable : string)
| RBin (op : token_type)
| RUnary (op : token_type)
| RFcall (fname : string) (argc : nat)
| RConvert (val : string) (type restriction : token_type).

Definition request_of (c : call) : request :=
  match c with
  | CLoad v _ => RLoad v
  | CSave v _ => RSave v
  | CBin op _ _ _ => RBin op
  | CUnary op _ _ => RUnary op
  | CFcall f argv _ => RFcall f (length argv)
  | CConvert v ty re _ => RConvert v ty re
  end.

(** The request of every node of a tree, each node after its operands: a
    variable loads its name, a literal converts its text, an assignment
    saves to its name, an operation asks for its operator and a call for
    its function with the number of its arguments. *)
Fixpoint requests (order : arg_order) (e : st_t) : list request :=
  match e with
  | var_t v => [RLoad v]
  | value_t ty re v => [RConvert v ty re]
  | set_t v e' => requests order e' ++ [RSave v]
  | list_t vs => flat_map (requests order) vs
  | call_t f None => [RFcall f 0]
  | call_t f (Some vs) =>
      flat_map (requests order) vs ++ [RFcall f (length vs)]
  | bin_t op l r =>
      match order with
      | LeftToRight => requests order l ++ requests order r
      | RightToLeft => requests order r ++ requests order l
      end ++ [RBin op]
  end.

(** [log'] is [log] followed by calls that make the requests [rs]. *)
Definition asks (rs : list request) (log log' : list call) : Prop :=
  ∃ tr, log' = log ++ tr ∧ map request_of tr = rs.

(** The texts [xs] with [sep] between them. *)
Fixpoint separated (sep : string) (xs : list string) : string :=
  match xs with
  | [] => EmptyString
  | [x] => x
  | x :: xs' => x +:+ sep +:+ separated sep xs'
  end.

(** The texts [xs], each behind [sep]. *)
Definition each_after (sep : string) (xs : list string) : string :=
  foldr (λ x out, sep +:+ x +:+ out) EmptyString xs.

(** The text of a tree: a variable is its name, a literal its type and its
    text (the restriction is not shown), an assignment [name = value], a
    list its elements between brackets, a call the name and the list of
    the arguments between parentheses, an operation
    [(tok_bin op lhs rhs)].  For a call whose [args] is null it is the text
    in front of the argument list. *)
Fixpoint text_of (e : st_t) : string :=
  match e with
  | var_t v => printf_s v
  | value_t ty _ v => token_type_str ty +:+ ":" +:+ printf_s v
  | set_t v e' => printf_s v +:+ " = " +:+ text_of e'
  | list_t vs => "[" +:+ separated ", " (map text_of vs) +:+ "]"
  | call_t f (Some vs) =>
      printf_s f +:+ "(" +:+ "[" +:+ separated ", " (map text_of vs)
      +:+ "]" +:+ ")"
  | call_t f None => printf_s f +:+ "("
  | bin_t op l r =>
      "(tok_bin " +:+ token_type_str op +:+ " " +:+ text_of l +:+ " "
      +:+ text_of r +:+ ")"
  end.









End Tiny.

(** * The condition stack of the script interpreter *)

Module See.

#[local] Open Scope Z_scope.

(** [uint32_t] arithmetic wraps. *)
Definition u32 (z : Z) : Z := z mod 4294967296.

(** [std::numeric_limits<uint32_t>::max()] *)
Definition NO_FALSE : Z := 4294967295.

Record ConditionStack : Type := mk_ConditionStack {
  m_stack_size : Z;
  m_first_false_pos : Z
}.

Definition ConditionStack_init : ConditionStack :=
  mk_ConditionStack 0 NO_FALSE.

Definition size (cs : ConditionStack) : Z := m_stack_size cs.
(** [at(idx)]; [at] is a keyword here. *)
Definition at_ (cs : ConditionStack) (idx : Z) : bool :=
  m_first_false_pos cs >? idx.
Definition empty (cs : ConditionStack) : bool := m_stack_size cs =? 0.
Definition all_true (cs : ConditionStack) : bool :=
  m_first_false_pos cs =? NO_FALSE.

Definition push_back (f : bool) (cs : ConditionStack) : ConditionStack :=
  let pos :=
    if (m_first_false_pos cs =? NO_FALSE) && negb f
    then m_stack_size cs else m_first_false_pos cs in
  mk_ConditionStack (u32 (m_stack_size cs + 1)) pos.

(** [assert(m_stack_size > 0)] fails on an empty stack: [None]. *)
Definition pop_back (cs : ConditionStack) : option ConditionStack :=
  if m_stack_size cs >? 0 then
    let sz := u32 (m_stack_size cs - 1) in
    Some (mk_ConditionStack sz
            (if m_first_false_pos cs =? sz then NO_FALSE
             else m_first_false_pos cs))
  else None.

Definition toggle_top (cs : ConditionStack) : option ConditionStack :=
  if m_stack_size cs >? 0 then
    if m_first_false_pos cs =? NO_FALSE then
      Some (mk_ConditionStack (m_stack_size cs) (u32 (m_stack_size cs - 1)))
    else if m_first_false_pos cs =? u32 (m_stack_size cs - 1) then
      Some (mk_ConditionStack (m_stack_size cs) NO_FALSE)
    else Some cs
  else None.

(** The operations that change the stack. *)
Inductive op : Type := Push (f : bool) | Pop | Toggle.

Definition apply_op (o : op) (cs : ConditionStack) : option ConditionStack :=
  match o with
  | Push f => Some (push_back f cs)
  | Pop => pop_back cs
  | Toggle => toggle_top cs
  end.

Fixpoint run (ops : list op) (cs : ConditionStack) : option ConditionStack :=
  match ops with
  | [] => Some cs
  | o :: ops' =>
      match apply_op o cs with
      | Some cs' => run ops' cs'
      | None => None
      end
  end.

(** The stack of booleans that the class stands for: a vector with one entry
    per nesting level, the top at the back. *)
Module Naive.
Definition stack : Type := list bool.

Definition size (l : stack) : Z := Z.of_nat (length l).
Definition empty (l : stack) : bool := if l is [] then true else false.
(** No false element is present. *)
Definition all_true (l : stack) : bool := forallb id l.
Definition at_ (l : stack) (idx : Z) : bool :=
  nth (Z.to_nat idx) l false.
Definition push_back (f : bool) (l : stack) : stack := l ++ [f].
Definition pop_back (l : stack) : option stack :=
  if l is [] then None else Some (removelast l).
(** Flips the top element. *)
Definition toggle_top (l : stack) : option stack :=
  match List.rev l with
  | [] => None
  | b :: r => Some (List.rev r ++ [negb b])
  end.

Definition apply_op (o : op) (l : stack) : option stack :=
  match o with
  | Push f => Some (push_back f l)
  | Pop => pop_back l
  | Toggle => toggle_top l
  end.

Fixpoint run (ops : list op) (l : stack) : option stack :=
  match ops with
  | [] => Some l
  | o :: ops' =>
      match apply_op o l with
      | Some l' => run ops' l'
      | None => None
      end
  end.
End Naive.

(** Number of leading [true] entries. *)
Fixpoint leading_true (l : list bool) : nat :=
  match l with
  | true :: l' => S (leading_true l')
  | _ => 0
  end.

(** What the two fields stand for, given the stack of booleans. *)
Definition represents (l : Naive.stack) (cs : ConditionStack) : Prop :=
  m_stack_size cs = Z.of_nat (length l) ∧
  Z.of_nat (length l) <= NO_FALSE ∧
  m_first_false_pos cs =
    (if Naive.all_true l then NO_FALSE else Z.of_nat (leading_true l)).

(** The values the two fields take while the size has not wrapped: the
    position of the first false, if there is one, lies inside the stack. *)
Definition well_formed (cs : ConditionStack) : Prop :=
  0 <= m_stack_size cs <= NO_FALSE ∧
  (m_first_false_pos cs = NO_FALSE ∨
   0 <= m_first_false_pos cs < m_stack_size cs).

End See.

(** * Properties of the tiny expression language *)

Module TinyProofs.
Import Tiny.

(** ** The parser *)

Lemma bind_Ok {A B} (f : A → result B) (m : result A) (b : B) :
  mbind f m = Ok b → ∃ a, m = Ok a ∧ f a = Ok b.
Proof. destruct m; simpl; intros H; try discriminate. eauto. Qed.

(** Case analysis on the next bind, match or test of a hypothesis
    [H : body = Ok _]. *)
Ltac result_step H :=
  lazymatch type of H with
  | Ok _ = Ok _ => simplify_eq
  | Raise _ = Ok _ => discriminate H
  | Undefined _ = Ok _ => discriminate H
  | NoFuel = Ok _ => discriminate H
  | mbind _ ?m = Ok _ =>
      let E := fresh "E" in
      destruct m as [?| | |] eqn:E;
      cbn [mbind result_bind] in H; [|discriminate H ..];
      try (progress (repeat result_step E))
  | (let '(_, _) := ?p in _) = Ok _ => destruct p
  | (match ?x with _ => _ end) = Ok _ =>
      let E := fresh "E" in destruct x eqn:E
  end.

Lemma rule_ok_variable s : rule_ok s (parse_variable s).
Proof.
  intros x s' H. unfold parse_variable in H.
  repeat result_step H; split; try done; try (by apply suffix_cons_r).
Qed.

Lemma rule_ok_value s re : rule_ok s (parse_value s re).
Proof.
  intros x s' H. unfold parse_value in H.
  repeat result_step H; split; try done; try (by apply suffix_cons_r).
Qed.

Lemma suffix_cons_l' {A} (x : A) l k : (x :: l) `suffix_of` k → l `suffix_of` k.
Proof. intros H. etrans; [|exact H]. apply suffix_cons_r. done. Qed.

Ltac suffix_solve :=
  solve [ done
        | repeat first
            [ done
            | match goal with
              | H : (_ :: ?l) `suffix_of` ?k |- ?l `suffix_of` _ =>
                  apply suffix_cons_l' in H
              | H : ?l `suffix_of` ?k |- ?l `suffix_of` _ =>
                  (etrans; [exact H|]); clear H
              end
            | apply suffix_cons_r ] ].

Lemma rule_ok_restricted s : rule_ok s (parse_restricted s).
Proof.
  intros x s' H. unfold parse_restricted in H.
  repeat result_step H;
    repeat match goal with
      | E : parse_value _ _ = Ok (_, _) |- _ =>
          apply rule_ok_value in E; destruct E as [? ?]
      end;
    (split; [suffix_solve|done]).
Qed.

Ltac use_rules :=
  repeat match goal with
    | E : parse_variable _ = Ok (_, _) |- _ =>
        apply rule_ok_variable in E; destruct E as [? ?]
    | E : parse_value _ _ = Ok (_, _) |- _ =>
        apply rule_ok_value in E; destruct E as [? ?]
    | E : parse_restricted _ = Ok (_, _) |- _ =>
        apply rule_ok_restricted in E; destruct E as [? ?]
    | IH : ∀ s ab a, rule_ok s (parse_expr ?n s ab a),
      E : parse_expr ?n _ _ _ = Ok (_, _) |- _ =>
        apply IH in E; destruct E as [? ?]
    | IH : ∀ s, rule_ok s (parse_set ?n s),
      E : parse_set ?n _ = Ok (_, _) |- _ =>
        apply IH in E; destruct E as [? ?]
    | IH : ∀ s, rule_ok s (parse_parenthesized ?n s),
      E : parse_parenthesized ?n _ = Ok (_, _) |- _ =>
        apply IH in E; destruct E as [? ?]
    | IH : ∀ s lhs, rule_ok s (parse_tok_binary_expr_post_lhs ?n s lhs),
      E : parse_tok_binary_expr_post_lhs ?n _ _ = Ok (_, _) |- _ =>
        apply IH in E; destruct E as [? ?]
    | IH : ∀ s, rule_ok s (parse_tok_binary_expr ?n s),
      E : parse_tok_binary_expr ?n _ = Ok (_, _) |- _ =>
        apply IH in E; destruct E as [? ?]
    | IH : ∀ r vs, loop_ok r (parse_csv_loop ?n r vs),
      E : parse_csv_loop ?n _ _ = Ok (_, _) |- _ =>
        apply IH in E
    | IH : ∀ s, rule_ok s (parse_csv ?n s),
      E : parse_csv ?n _ = Ok (_, _) |- _ =>
        apply IH in E; destruct E as [? ?]
    | IH : ∀ s, rule_ok s (parse_fcall ?n s),
      E : parse_fcall ?n _ = Ok (_, _) |- _ =>
        apply IH in E; destruct E as [? ?]
    | H : None = None → _ |- _ => specialize (H eq_refl)
    | H : Some _ = None → _ |- _ => clear H
    | H : ?a = ?b |- _ => is_var a; subst a
    end.

Lemma rules_ok_all n : rules_ok n.
Proof.
  induction n as [|n IH].
  { unfold rules_ok, rule_ok, loop_ok. repeat split; intros; discriminate. }
  destruct IH as (IHe & IHs & IHp & IHl & IHb & IHlo & IHc & IHf).
  unfold rules_ok. repeat apply conj.
  - intros s ab a x s' H. simpl in H.
    repeat result_step H; use_rules; (split; [suffix_solve|done]).
  - intros s x s' H. simpl in H.
    repeat result_step H; use_rules; (split; [suffix_solve|done]).
  - intros s x s' H. simpl in H.
    repeat result_step H; use_rules; (split; [suffix_solve|done]).
  - intros s lhs x s' H. simpl in H.
    repeat result_step H; use_rules; (split; [suffix_solve|done]).
  - intros s x s' H. simpl in H.
    repeat result_step H; use_rules; (split; [suffix_solve|done]).
  - intros r vs vs' r' H. simpl in H.
    repeat result_step H; use_rules; suffix_solve.
  - intros s x s' H. simpl in H.
    repeat result_step H; use_rules; (split; [suffix_solve|done]).
  - intros s x s' H. simpl in H.
    repeat result_step H; use_rules; (split; [suffix_solve|done]).
Qed.

Lemma Forall_suffix {A} (P : A → Prop) (l k : list A) :
  l `suffix_of` k → Forall P k → Forall P l.
Proof. intros [l' ->] H. by apply Forall_app in H as [_ H]. Qed.

Lemma no_fault_cstr t :
  tok_wf t → kind t = tok_symbol ∨ kind t = tok_number ∨ kind t = tok_string →
  no_fault (cstr (text t)).
Proof. intros Hwf Hk. destruct (Hwf Hk) as (v & -> & _). exact I. Qed.

Lemma no_fault_cstr_head t l :
  Forall tok_wf (t :: l) → ¬ kind t ≠ tok_symbol → no_fault (cstr (text t)).
Proof.
  intros Hwf Hk. apply Forall_cons in Hwf as [Ht _].
  apply no_fault_cstr; [assumption|]. left. by apply dec_stable.
Qed.

Lemma no_fault_variable s :
  Forall tok_wf s → s ≠ [] → no_fault (parse_variable s).
Proof.
  intros Hwf Hne. destruct s as [|t s]; [done|].
  apply Forall_cons in Hwf as [Ht _]. unfold parse_variable.
  destruct (decide (kind t = tok_symbol)) as [Hk|]; [|exact I].
  destruct (Ht (or_introl Hk)) as (v & -> & _). exact I.
Qed.

Lemma no_fault_value s re :
  Forall tok_wf s → s ≠ [] → no_fault (parse_value s re).
Proof.
  intros Hwf Hne. destruct s as [|t s]; [done|].
  apply Forall_cons in Hwf as [Ht _]. unfold parse_value.
  destruct (decide _) as [Hk|]; [|exact I].
  destruct (Ht Hk) as (v & -> & Hv). cbn [cstr mbind result_bind].
  unfold new_value_t.
  destruct (decide (kind t = tok_string)) as [Hs|]; [|exact I].
  destruct (decide (String.length v = 0)) as [Hz|]; [|exact I].
  by destruct (Hv Hs).
Qed.

Lemma no_fault_restricted s :
  Forall tok_wf s → s ≠ [] → no_fault (parse_restricted s).
Proof.
  intros Hwf Hne. destruct s as [|t s]; [done|].
  apply Forall_cons in Hwf as [Ht Hs]. unfold parse_restricted.
  destruct (decide _) as [Hk|]; [|exact I].
  destruct s as [|t' s]; cbn [mbind result_bind].
  - destruct (decide (kind t = tok_hex)); exact I.
  - pose proof (no_fault_value (t' :: s) (kind t) Hs ltac:(done)) as HF.
    destruct (parse_value (t' :: s) (kind t)) as [[[e|] r]| | |];
      cbn [mbind result_bind]; try done.
    destruct (decide (kind t = tok_hex)); exact I.
Qed.

Lemma parse_variable_shape s e r :
  parse_variable s = Ok (Some e, r) → ∃ v, e = var_t v.
Proof.
  unfold parse_variable. intros H. repeat result_step H. eauto.
Qed.

Lemma parse_csv_shape n s e r :
  parse_csv n s = Ok (Some e, r) → ∃ vs, e = list_t vs.
Proof.
  destruct n; simpl; intros H; [done|]. repeat result_step H. eauto.
Qed.

Ltac use_rules_all :=
  repeat match goal with
    | E : parse_variable _ = Ok (?x, _) |- _ => is_var x; destruct x
    | E : parse_csv _ _ = Ok (?x, _) |- _ => is_var x; destruct x
    | E : parse_variable _ = Ok (Some ?e, _) |- _ =>
        let Hs := fresh in
        destruct (parse_variable_shape _ _ _ E) as [? Hs];
        apply rule_ok_variable in E; destruct E as [? ?]; simplify_eq
    | E : parse_csv ?n _ = Ok (Some ?e, _) |- _ =>
        let Hs := fresh in
        destruct (parse_csv_shape _ _ _ _ E) as [? Hs];
        apply (proj1 (proj2 (proj2 (proj2 (proj2 (proj2 (proj2
                 (rules_ok_all n)))))))) in E;
        destruct E as [? ?]; simplify_eq
    | E : parse_variable _ = Ok (_, _) |- _ =>
        apply rule_ok_variable in E; destruct E as [? ?]
    | E : parse_value _ _ = Ok (_, _) |- _ =>
        apply rule_ok_value in E; destruct E as [? ?]
    | E : parse_restricted _ = Ok (_, _) |- _ =>
        apply rule_ok_restricted in E; destruct E as [? ?]
    | E : parse_expr ?n _ _ _ = Ok (_, _) |- _ =>
        apply (proj1 (rules_ok_all n)) in E; destruct E as [? ?]
    | E : parse_set ?n _ = Ok (_, _) |- _ =>
        apply (proj1 (proj2 (rules_ok_all n))) in E; destruct E as [? ?]
    | E : parse_parenthesized ?n _ = Ok (_, _) |- _ =>
        apply (proj1 (proj2 (proj2 (rules_ok_all n)))) in E;
        destruct E as [? ?]
    | E : parse_tok_binary_expr_post_lhs ?n _ _ = Ok (_, _) |- _ =>
        apply (proj1 (proj2 (proj2 (proj2 (rules_ok_all n))))) in E;
        destruct E as [? ?]
    | E : parse_tok_binary_expr ?n _ = Ok (_, _) |- _ =>
        apply (proj1 (proj2 (proj2 (proj2 (proj2 (rules_ok_all n)))))) in E;
        destruct E as [? ?]
    | E : parse_csv_loop ?n _ _ = Ok (_, _) |- _ =>
        apply (proj1 (proj2 (proj2 (proj2 (proj2 (proj2
                 (rules_ok_all n))))))) in E
    | E : parse_csv ?n _ = Ok (_, _) |- _ =>
        apply (proj1 (proj2 (proj2 (proj2 (proj2 (proj2 (proj2
                 (rules_ok_all n)))))))) in E;
        destruct E as [? ?]
    | E : parse_fcall ?n _ = Ok (_, _) |- _ =>
        apply (proj2 (proj2 (proj2 (proj2 (proj2 (proj2 (proj2
                 (rules_ok_all n)))))))) in E;
        destruct E as [? ?]
    | H : None = None → _ |- _ => specialize (H eq_refl)
    | H : Some _ = None → _ |- _ => clear H
    | H : ?a = ?b |- _ => is_var a; subst a
    end.

Ltac wf_solve :=
  match goal with
  | H : Forall tok_wf ?s |- Forall tok_wf ?r =>
      apply (Forall_suffix tok_wf r s); [suffix_solve|exact H]
  end.

Ltac nonempty_solve :=
  solve [ done
        | match goal with
          | H : ¬ (_ ∨ _) |- _ ≠ [] =>
              let E := fresh in intros E; apply H; auto
          end ].

Ltac no_fault_call :=
  first
    [ apply no_fault_variable; [wf_solve|nonempty_solve]
    | apply no_fault_value; [wf_solve|nonempty_solve]
    | apply no_fault_restricted; [wf_solve|nonempty_solve]
    | match goal with
      | IH : ∀ s, _ |- _ => apply IH; [wf_solve|nonempty_solve]
      end
    | match goal with
      | IH : ∀ s, _ |- _ => apply IH; wf_solve
      end
    | eapply no_fault_cstr_head; eassumption
    | exact I ].

Ltac fault_step :=
  lazymatch goal with
  | |- no_fault (Ok _) => exact I
  | |- no_fault NoFuel => exact I
  | |- no_fault (Undefined _) => exfalso; congruence
  | |- no_fault (mbind _ (match ?x with _ => _ end)) =>
      let E := fresh "E" in destruct x eqn:E; cbn [mbind result_bind]
  | |- no_fault (mbind _ ?m) =>
      let HF := fresh "HF" in
      let E := fresh "E" in
      assert (HF : no_fault m) by no_fault_call;
      destruct m as [?| | |] eqn:E; cbn [mbind result_bind];
      [clear HF|contradiction HF|contradiction HF|exact I];
      use_rules_all
  | |- no_fault (let '(_, _) := ?p in _) => destruct p; use_rules_all
  | |- no_fault (match ?x with _ => _ end) =>
      let E := fresh "E" in destruct x eqn:E; use_rules_all
  | |- no_fault _ => no_fault_call
  end.

Lemma rules_no_fault_all n : rules_no_fault n.
Proof.
  induction n as [|n IH].
  { unfold rules_no_fault. repeat split; intros; exact I. }
  destruct IH as (IHe & IHs & IHp & IHl & IHb & IHlo & IHc & IHf).
  unfold rules_no_fault. repeat apply conj.
  - intros s ab a Hwf Hne. simpl. repeat fault_step.
  - intros s Hwf Hne. simpl. repeat fault_step.
  - intros s Hwf Hne. simpl. repeat fault_step.
  - intros s lhs Hwf Hne. simpl. repeat fault_step.
  - intros s Hwf Hne. simpl. repeat fault_step.
  - intros r vs Hwf. simpl. repeat fault_step.
  - intros s Hwf. simpl. repeat fault_step.
  - intros s Hwf Hne. simpl. repeat fault_step.
Qed.

Lemma has_fuel_cstr v : has_fuel (cstr v).
Proof. by destruct v. Qed.

Lemma has_fuel_new_value_t k v re : has_fuel (new_value_t k v re).
Proof. unfold new_value_t. by repeat case_decide. Qed.

Lemma has_fuel_variable s : has_fuel (parse_variable s).
Proof.
  unfold parse_variable. destruct s as [|t s]; [done|].
  case_decide; [|done]. by destruct (text t).
Qed.

Lemma has_fuel_value s re : has_fuel (parse_value s re).
Proof.
  unfold parse_value. destruct s as [|t s]; [done|].
  case_decide; [|done]. destruct (text t); [|done]. simpl.
  pose proof (has_fuel_new_value_t (kind t) s0 re).
  by destruct (new_value_t _ _ _).
Qed.

Lemma has_fuel_restricted s : has_fuel (parse_restricted s).
Proof.
  unfold parse_restricted. destruct s as [|t s]; [done|].
  case_decide; [|done].
  assert (has_fuel (if s is [] then Ok (None, s)
                    else parse_value s (kind t))) as HF.
  { destruct s; [done|apply has_fuel_value]. }
  destruct (if s is [] then _ else _) as [[[e|] r]| | |]; try done.
  simpl. case_decide; [|done].
  pose proof (has_fuel_new_value_t tok_number EmptyString (kind t)).
  by destruct (new_value_t _ _ _).
Qed.

Ltac len_facts :=
  repeat match goal with
    | H : _ `suffix_of` _ |- _ => apply suffix_length in H
    end;
  cbn [length] in *.

Ltac fuel_call :=
  first
    [ apply has_fuel_cstr
    | apply has_fuel_new_value_t
    | apply has_fuel_variable
    | apply has_fuel_value
    | apply has_fuel_restricted
    | match goal with
      | H : ∀ r, _ |- _ => apply H; len_facts; lia
      end ].

Ltac fuel_step :=
  lazymatch goal with
  | |- has_fuel (Ok _) => exact I
  | |- has_fuel (Raise _) => exact I
  | |- has_fuel (Undefined _) => exact I
  | |- has_fuel (mbind _ (match ?x with _ => _ end)) =>
      let E := fresh "E" in destruct x eqn:E; cbn [mbind result_bind]
  | |- has_fuel (mbind _ ?m) =>
      let HF := fresh "HF" in
      let E := fresh "E" in
      assert (HF : has_fuel m) by fuel_call;
      destruct m as [?| | |] eqn:E; cbn [mbind result_bind];
      [clear HF|exact I|exact I|contradiction HF];
      use_rules_all
  | |- has_fuel (let '(_, _) := ?p in _) => destruct p; use_rules_all
  | |- has_fuel (match ?x with _ => _ end) =>
      let E := fresh "E" in destruct x eqn:E; use_rules_all
  | |- has_fuel _ => fuel_call
  end.

Lemma fuel_enough_all (s : cursor) : fuel_enough s.
Proof.
  induction s as [s IH] using (induction_ltof1 _ (@length tok)).
  unfold ltof in IH.
  assert (IHpost : ∀ r (n : nat) lhs, length r < length s → 8 * length r + 1 ≤ n →
            has_fuel (parse_tok_binary_expr_post_lhs n r lhs)).
  { intros r n lhs Hr. by apply (IH r Hr). }
  assert (IHexpr : ∀ r (n : nat) ab a, length r < length s → 8 * length r + 6 ≤ n →
            has_fuel (parse_expr n r ab a)).
  { intros r n ab a Hr. by apply (IH r Hr). }
  assert (IHloop : ∀ r (n : nat) vs, length r < length s → 8 * length r + 7 ≤ n →
            has_fuel (parse_csv_loop n r vs)).
  { intros r n vs Hr. by apply (IH r Hr). }
  assert (IHcsv : ∀ r (n : nat), length r < length s → 8 * length r + 8 ≤ n →
            has_fuel (parse_csv n r)).
  { intros r n Hr. by apply (IH r Hr). }
  clear IH.
  assert (Hpost : ∀ r (n : nat) lhs, length r ≤ length s →
            8 * length r + 1 ≤ n →
            has_fuel (parse_tok_binary_expr_post_lhs n r lhs)).
  { intros r [|n] lhs Hr Hn; [lia|]. simpl. repeat fuel_step. }
  clear IHpost.
  assert (Hset : ∀ n : nat, 8 * length s + 3 ≤ n → has_fuel (parse_set n s)).
  { intros [|n] Hn; [lia|]. simpl. repeat fuel_step. }
  assert (Hparen : ∀ n : nat, 8 * length s + 3 ≤ n →
            has_fuel (parse_parenthesized n s)).
  { intros [|n] Hn; [lia|]. simpl. repeat fuel_step. }
  assert (Hfcall : ∀ n : nat, 8 * length s + 3 ≤ n →
            has_fuel (parse_fcall n s)).
  { intros [|n] Hn; [lia|]. simpl. repeat fuel_step. }
  assert (Hexpr0 : ∀ (n : nat) a, 8 * length s + 4 ≤ n →
            has_fuel (parse_expr n s false a)).
  { intros [|n] a Hn; [lia|]. simpl. repeat fuel_step. }
  assert (Hbin : ∀ n : nat, 8 * length s + 5 ≤ n →
            has_fuel (parse_tok_binary_expr n s)).
  { intros [|n] Hn; [lia|]. simpl. repeat fuel_step. }
  assert (Hexpr : ∀ (n : nat) ab a, 8 * length s + 6 ≤ n →
            has_fuel (parse_expr n s ab a)).
  { intros [|n] ab a Hn; [lia|]. simpl. repeat fuel_step. }
  assert (Hloop : ∀ (n : nat) vs, 8 * length s + 7 ≤ n →
            has_fuel (parse_csv_loop n s vs)).
  { intros [|n] vs Hn; [lia|]. simpl. repeat fuel_step. }
  assert (Hcsv : ∀ n : nat, 8 * length s + 8 ≤ n → has_fuel (parse_csv n s)).
  { intros [|n] Hn; [lia|]. simpl. repeat fuel_step. }
  unfold fuel_enough. repeat apply conj; try assumption.
  intros n lhs Hn. by apply Hpost.
Qed.
(** On well-formed tokens the parser neither faults nor runs out of fuel
    when given [treeify_fuel]: [treeify] returns the tree of the whole
    sequence or throws at a remaining token. *)
Lemma treeify_total (tokens : cursor) :
  tokens ≠ [] → Forall tok_wf tokens →
  (∃ e, parse_expr (treeify_fuel (length tokens)) tokens true true
          = Ok (Some e, []) ∧
        treeify tokens = Ok (Some e)) ∨
  (∃ t rest, (t :: rest) `suffix_of` tokens ∧
             treeify tokens = Raise (SyntaxError (text t))).
Proof.
  intros Hne Hwf. unfold treeify.
  pose proof (proj1 (rules_no_fault_all (treeify_fuel (length tokens)))
                tokens true true Hwf Hne) as Hnf.
  destruct (fuel_enough_all tokens) as (_ & _ & _ & _ & _ & _ & Hf & _).
  specialize (Hf (treeify_fuel (length tokens)) true true).
  unfold treeify_fuel in *. specialize (Hf ltac:(lia)).
  destruct (parse_expr (8 * length tokens + 6) tokens true true)
    as [[x s']| | |] eqn:E; try done.
  cbn [mbind result_bind].
  apply (proj1 (rules_ok_all _)) in E as [Hsuf Hnone].
  destruct s' as [|t rest].
  - left. destruct x as [e|]; [eauto|].
    by specialize (Hnone eq_refl).
  - right. eauto.
Qed.

Lemma treeify_has_fuel (tokens : cursor) : has_fuel (treeify tokens).
Proof.
  unfold treeify.
  destruct (fuel_enough_all tokens) as (_ & _ & _ & _ & _ & _ & Hf & _).
  specialize (Hf (treeify_fuel (length tokens)) true true).
  unfold treeify_fuel in *. specialize (Hf ltac:(lia)).
  destruct (parse_expr (8 * length tokens + 6) tokens true true)
    as [[x [|t s']]| | |]; done.
Qed.

(** C7.  No partial consumption on parse failure: whichever grammar rule is
    applied at whichever cursor, if it returns none then the cursor it hands
    back is the one it was given. *)
Theorem C7_no_consumption_on_failure
    (fuel : nat) (r : rule) (s s' : cursor) :
  apply_rule fuel r s = Ok (None, s') → s' = s.
Proof.
  pose proof (rules_ok_all fuel)
    as (He & Hs & Hp & Hl & Hb & _ & Hc & Hf).
  destruct r; cbn [apply_rule]; intros H.
  - apply rule_ok_variable in H as [_ H]. by apply H.
  - apply rule_ok_value in H as [_ H]. by apply H.
  - apply rule_ok_restricted in H as [_ H]. by apply H.
  - apply Hs in H as [_ H]. by apply H.
  - apply Hp in H as [_ H]. by apply H.
  - apply He in H as [_ H]. by apply H.
  - apply Hb in H as [_ H]. by apply H.
  - apply Hl in H as [_ H]. by apply H.
  - apply Hc in H as [_ H]. by apply H.
  - apply Hf in H as [_ H]. by apply H.
Qed.

Lemma C7_witness :
  apply_rule 9 (rule_expr true true)
    [tk tok_symbol "a"; tk tok_plus "+"] = Ok (Some (var_t "a"), [tk tok_plus "+"]) ∧
  apply_rule 9 rule_fcall [tk tok_symbol "f"; tk tok_lparen "("; tk tok_symbol "a"]
    = Ok (None, [tk tok_symbol "f"; tk tok_lparen "("; tk tok_symbol "a"]) ∧
  [tk tok_symbol "f"; tk tok_lparen "("; tk tok_symbol "a"]
    = [tk tok_symbol "f"; tk tok_lparen "("; tk tok_symbol "a"].
Proof.
  split; [vm_compute; reflexivity|].
  split; [vm_compute; reflexivity|].
  apply (C7_no_consumption_on_failure 9 rule_fcall).
  vm_compute. reflexivity.
Defined.

(** C6.  On the empty token sequence [treeify] hands a null cursor to
    [parse_expr], whose first alternative reads the token under it. *)
Theorem C6_treeify_empty_sequence :
  treeify [] = Undefined NullDeref.
Proof. vm_compute. reflexivity. Qed.

(** The two sequences named by the claim are rejected. *)
Example treeify_unbalanced :
  treeify [tk tok_lparen "("; tk tok_symbol "a"; tk tok_plus "+";
           tk tok_symbol "b"] = Raise (SyntaxError (Some "(")).
Proof. vm_compute. reflexivity. Qed.

Example treeify_trailing :
  treeify [tk tok_symbol "a"; tk tok_plus "+"; tk tok_symbol "b";
           tk tok_rparen ")"] = Raise (SyntaxError (Some ")")).
Proof. vm_compute. reflexivity. Qed.

(** ** The tokenizer *)

Lemma seg_bound h p T t :
  seg h p T (Some t) → Forall (λ x, fst x < t) T.
Proof.
  revert p. induction T as [|[a d] T IH]; intros p; simpl; [constructor|].
  intros (-> & nx & Ha & Hlt & Hseg). specialize (IH _ Hseg).
  constructor; [|exact IH]. simpl.
  destruct T as [|[a' d'] T].
  - simpl in Hseg. subst nx. by apply Hlt.
  - simpl in Hseg. destruct Hseg as (-> & _).
    apply Forall_cons in IH as [IH _]. simpl in IH.
    specialize (Hlt a' eq_refl). lia.
Qed.

Lemma seg_frame h h' p T t :
  seg h p T (Some t) → (∀ a, a < t → h' !! a = h !! a) →
  seg h' p T (Some t).
Proof.
  intros Hseg Hsame. pose proof (seg_bound _ _ _ _ Hseg) as Hb.
  revert p Hseg Hb. induction T as [|[a d] T IH]; intros p; simpl; [done|].
  intros (-> & nx & Ha & Hlt & Hseg) Hb.
  apply Forall_cons in Hb as [Hat Hb]. simpl in Hat.
  split; [done|]. exists nx. rewrite Hsame by done. eauto.
Qed.

Lemma seg_snoc h p T a d b :
  seg h p T (Some a) → h !! a = Some (cell_of d (Some b)) → a < b →
  seg h p (T ++ [(a, d)]) (Some b).
Proof.
  revert p. induction T as [|[a' d'] T IH]; intros p; simpl.
  - intros -> Ha Hlt. split; [done|]. exists (Some b).
    split; [done|]. split; [|done]. by intros ? [= <-].
  - intros (-> & nx & Ha' & Hlt' & Hseg) Ha Hlt. split; [done|].
    exists nx. eauto.
Qed.

Lemma seg_snoc_inv h p T a d q :
  seg h p (T ++ [(a, d)]) q →
  seg h p T (Some a) ∧ h !! a = Some (cell_of d q) ∧ (∀ b, q = Some b → a < b).
Proof.
  revert p. induction T as [|[a' d'] T IH]; intros p; simpl.
  - intros (-> & nx & Ha & Hlt & ->). eauto.
  - intros (-> & nx & Ha' & Hlt' & Hseg).
    destruct (IH _ Hseg) as (Hseg' & Ha & Hlt). eauto 10.
Qed.

Lemma seg_head_nil h p T q : seg h p T q → T = [] → p = q.
Proof. by intros H ->. Qed.

Lemma seg_head_cons h p T t :
  seg h p T (Some t) → T ≠ [] → ∃ a, p = Some a ∧ a < t.
Proof.
  intros Hseg Hne. pose proof (seg_bound _ _ _ _ Hseg) as Hb.
  destruct T as [|[a d] T]; [done|]. destruct Hseg as (-> & _).
  apply Forall_cons in Hb as [Hb _]. eauto.
Qed.

Lemma last_addr_snoc T a d : last_addr (T ++ [(a, d)]) = Some a.
Proof. unfold last_addr. by rewrite last_snoc. Qed.

Lemma deref_live h t c : h !! t = Some (Some c) → deref h (Some t) = Ok c.
Proof. unfold deref. by intros ->. Qed.

Lemma deref_Ok h p c :
  deref h p = Ok c → ∃ t, p = Some t ∧ h !! t = Some (Some c).
Proof.
  unfold deref. destruct p as [t|]; [|done].
  destruct (h !! t) as [[c'|]|] eqn:E; try done. intros [= ->]. eauto.
Qed.

Lemma store_live h t c c' :
  h !! t = Some (Some c) → store h (Some t) c' = Ok (<[t := Some c']> h).
Proof. unfold store. by intros ->. Qed.

Lemma set_token_live h t c k :
  h !! t = Some (Some c) →
  set_token h (Some t) k
  = Ok (<[t := Some (mk_token_t k (value c) (next c))]> h).
Proof.
  intros H. unfold set_token. rewrite (deref_live _ _ _ H). simpl.
  by apply store_live with c.
Qed.

Lemma set_value_live h t c v :
  h !! t = Some (Some c) →
  set_value h (Some t) v
  = Ok (<[t := Some (mk_token_t (token c) (Some v) (next c))]> h).
Proof.
  intros H. unfold set_value. rewrite (deref_live _ _ _ H). simpl.
  by apply store_live with c.
Qed.

Lemma lookup_snoc_fresh {A} (h : list A) x : (h ++ [x]) !! length h = Some x.
Proof. by rewrite lookup_app_r, Nat.sub_diag. Qed.

Lemma new_token_t_null h k :
  new_token_t h k None
  = Ok (h ++ [Some (mk_token_t k None None)], Some (length h)).
Proof. reflexivity. Qed.

Lemma new_token_t_live h k t c :
  h !! t = Some (Some c) →
  new_token_t h k (Some t)
  = Ok (<[t := Some (mk_token_t (token c) (value c) (Some (length h)))]>
          (h ++ [Some (mk_token_t k None None)]),
        Some (length h)).
Proof.
  intros H. unfold new_token_t.
  assert (t < length h) as Hlt by (by apply lookup_lt_Some in H).
  assert ((h ++ [Some (mk_token_t k None None)]) !! t = Some (Some c)) as H'
    by (by rewrite lookup_app_l).
  rewrite (deref_live _ _ _ H'). cbn [mbind result_bind].
  by rewrite (store_live _ _ _ _ H').
Qed.

Lemma delete_token_t_last h t c :
  h !! t = Some (Some c) → next c = None →
  delete_token_t (length h) h (Some t) = Ok (<[t := None]> h).
Proof.
  intros H Hn. assert (t < length h) as Hlt by (by apply lookup_lt_Some in H).
  destruct (length h) as [|n] eqn:E; [lia|]. cbn [delete_token_t].
  rewrite (deref_live _ _ _ H). cbn [mbind result_bind]. rewrite Hn.
  destruct n; cbn [delete_token_t mbind result_bind];
    by rewrite (deref_live _ _ _ H).
Qed.

Lemma delete_token_t_dangling fuel h t c b h' :
  h !! t = Some (Some c) → next c = Some b → h !! b = Some None →
  delete_token_t fuel h (Some t) ≠ Ok h'.
Proof.
  intros H Hn Hb. destruct fuel as [|fuel]; cbn [delete_token_t]; [done|].
  rewrite (deref_live _ _ _ H). cbn [mbind result_bind]. rewrite Hn.
  destruct fuel as [|fuel]; cbn [delete_token_t mbind result_bind]; [done|].
  unfold deref. by rewrite Hb.
Qed.

(** Overwriting the cell at [tail] keeps the segment before it. *)
Lemma seg_insert_tail h p T t x :
  seg h p T (Some t) → seg (<[t := x]> h) p T (Some t).
Proof.
  intros H. apply (seg_frame h); [done|].
  intros a Ha. apply list_lookup_insert_ne. lia.
Qed.

Lemma seg_app_heap h p T t x :
  seg h p T (Some t) → t < length h → seg (h ++ x) p T (Some t).
Proof.
  intros H Ht. apply (seg_frame h); [done|].
  intros a Ha. apply lookup_app_l. lia.
Qed.

Lemma tok_eta d : mk_tok (kind d) (text d) = d.
Proof. by destruct d. Qed.

Lemma lex_core_mono clean Q Q' i i' st st' :
  hp st' = hp st → head st' = head st → tail st' = tail st →
  prev st' = prev st →
  (finalized st' = false → token_start st' < i') →
  (∀ t d nx, tail st = Some t → hp st !! t = Some (cell_of d nx) →
             Q d → Q' d) →
  lex_core clean Q i st → lex_core clean Q' i' st'.
Proof.
  intros Hh Hhd Htl Hpv Hts HQ (T & Hseg & HT & HN & _ & Htail).
  exists T. rewrite Hh, Hhd, Htl, Hpv.
  split; [done|]. split; [done|]. split; [done|]. split; [done|].
  destruct (tail st) as [t|]; [|done].
  destruct Htail as (d & nx & Ht & Hnx & Hprev & Hd).
  exists d, nx. repeat split; try done. by eapply HQ.
Qed.

Lemma lex_core_start_lt clean Q i st :
  lex_core clean Q i st → finalized st = false → token_start st < i.
Proof. by intros (T & _ & _ & _ & H & _). Qed.

Lemma lex_core_tail clean Q i st t c :
  lex_core clean Q i st → tail st = Some t → hp st !! t = Some (Some c) →
  Q (mk_tok (token c) (value c)) ∧
  (next c = None ∨
   ∃ b, next c = Some b ∧ t < b ∧ hp st !! b = Some None).
Proof.
  intros (T & _ & _ & _ & _ & Htail) Htl Ht. rewrite Htl in Htail.
  destruct Htail as (d & nx & Ht' & Hnx & _ & Hd).
  rewrite Ht in Ht'. injection Ht' as ->. cbn [token value next].
  by rewrite tok_eta.
Qed.

(** Overwriting the token at [tail]. *)
Lemma lex_core_update_tail clean Q Q' i i'
    h hd t pv op fin fnd rt ts d nx d' op' fin' fnd' rt' ts' :
  h !! t = Some (cell_of d nx) →
  (open_kind (kind d') → open_kind (kind d)) →
  lex_core clean Q i (mk_lexer h hd (Some t) pv op fin fnd rt ts) →
  (Q d → Q' d') →
  (fin' = false → ts' < i') →
  lex_core clean Q' i'
    (mk_lexer (<[t := cell_of d' nx]> h) hd (Some t) pv op' fin' fnd' rt' ts').
Proof.
  intros Ht Hopen (T & Hseg & HT & HN & _ & Htail) HQ Hts.
  cbn [hp head tail prev finalized token_start] in *.
  destruct Htail as (d0 & nx0 & Ht0 & Hnx & Hprev & Hd).
  rewrite Ht in Ht0. unfold cell_of in Ht0. injection Ht0 as Hk Hv <-.
  assert (d0 = d) as -> by (destruct d0, d; simpl in *; congruence).
  assert (t < length h) as Hlt by (by apply lookup_lt_Some in Ht).
  exists T. cbn [hp head tail prev finalized token_start].
  split; [by apply seg_insert_tail|]. split; [done|]. split; [done|].
  split; [done|].
  exists d', nx. split; [by rewrite list_lookup_insert_eq|].
  split.
  { destruct Hnx as [->|(b & -> & Hb & Hfree)]; [by left|right].
    exists b. split; [done|]. split; [done|].
    rewrite list_lookup_insert_ne by lia. done. }
  split; [|by apply HQ].
  intros Hnil Hk'. apply Hprev; [done|]. by apply Hopen.
Qed.

(** Deleting the token at [tail] and stepping back to [prev]. *)
Lemma lex_core_delete_tail clean Q Q' i i'
    h hd t pv op fin fnd rt ts d op' fin' fnd' rt' ts' :
  h !! t = Some (cell_of d None) → open_kind (kind d) →
  lex_core clean Q i (mk_lexer h hd (Some t) pv op fin fnd rt ts) →
  (∀ da, with_text da → (clean → neat da) → Q' da) →
  (fin' = false → ts' < i') →
  lex_core clean Q' i'
    (mk_lexer (<[t := None]> h) (if decide (hd = Some t) then pv else hd)
       pv pv op' fin' fnd' rt' ts').
Proof.
  intros Ht Hopen (T & Hseg & HT & HN & _ & Htail) HQ Hts.
  cbn [hp head tail prev finalized token_start] in *.
  destruct Htail as (d0 & nx0 & Ht0 & Hnx & Hprev & Hd).
  rewrite Ht in Ht0. unfold cell_of in Ht0. injection Ht0 as Hk Hv <-.
  assert (d0 = d) as -> by (destruct d0, d; simpl in *; congruence).
  specialize (Hprev eq_refl Hopen). subst pv.
  assert (t < length h) as Hlt by (by apply lookup_lt_Some in Ht).
  destruct T as [|[a da] T0 _] using rev_ind.
  - simpl in Hseg. subst hd. rewrite decide_True by done.
    exists []. cbn. repeat split; done.
  - rewrite last_addr_snoc.
    destruct (seg_head_cons _ _ _ _ Hseg) as (a0 & -> & Ha0);
      [by destruct T0|].
    rewrite decide_False by (intros [=]; lia).
    apply seg_snoc_inv in Hseg as (Hseg & Ha & Hat).
    specialize (Hat t eq_refl).
    apply Forall_app in HT as [HT0 Hda].
    apply Forall_cons in Hda as [Hda _]. cbn [snd] in Hda.
    exists T0. cbn [hp head tail prev finalized token_start].
    split.
    { apply (seg_frame h); [done|]. intros b Hb.
      apply list_lookup_insert_ne. lia. }
    split; [done|].
    split.
    { intros Hc. specialize (HN Hc). by apply Forall_app in HN as [HN _]. }
    split; [done|].
    exists da, (Some t).
    split; [rewrite list_lookup_insert_ne by lia; done|].
    split.
    { right. exists t. split; [done|]. split; [done|].
      by rewrite list_lookup_insert_eq. }
    split; [by intros [=]|].
    apply HQ; [done|]. intros Hc. specialize (HN Hc).
    apply Forall_app in HN as [_ HN].
    by apply Forall_cons in HN as [HN _].
Qed.

(** Linking a new token behind [tail]. *)
Lemma lex_core_append clean Q Q' i i' st k h1 fresh v pv' op' fin' fnd' rt'
    ts' :
  lex_core clean Q i st →
  (∀ d, Q d → with_text d ∧ (clean → neat d)) →
  new_token_t (hp st) k (tail st) = Ok (h1, fresh) →
  Q' (mk_tok k v) →
  (open_kind k → pv' = tail st) →
  (fin' = false → ts' < i') →
  fresh = Some (length (hp st)) ∧
  h1 !! length (hp st) = Some (Some (mk_token_t k None None)) ∧
  lex_core clean Q' i'
    (mk_lexer (<[length (hp st) := Some (mk_token_t k v None)]> h1)
       (if head st is None then fresh else head st) fresh pv'
       op' fin' fnd' rt' ts').
Proof.
  destruct st as [h hd tl pv op fin fnd rt ts].
  intros (T & Hseg & HT & HN & _ & Htl) HQ Hnew HQ' Hpv' Hts.
  cbn [hp head tail prev finalized token_start] in *.
  set (n := length h) in *.
  destruct tl as [t|].
  - destruct Htl as (d & nx & Ht & Hnx & Hprev & Hd).
    destruct (HQ d Hd) as [Hdt Hdn].
    rewrite (new_token_t_live _ _ _ _ Ht) in Hnew.
    injection Hnew as <- <-. split; [done|].
    cbn [token value next]. fold n.
    assert (t < n) as Hlt by (by apply lookup_lt_Some in Ht).
    split.
    { rewrite list_lookup_insert_ne by lia. apply lookup_snoc_fresh. }
    assert (n < length (<[t:=Some (mk_token_t (kind d) (text d) (Some n))]>
                          (h ++ [Some (mk_token_t k None None)]))) as Hn.
    { rewrite length_insert, length_app. simpl. lia. }
    exists (T ++ [(t, d)]). cbn [hp head tail prev finalized token_start].
    assert (hd ≠ None) as Hhd.
    { destruct T as [|[a0 d0] T]; simpl in Hseg; [by subst|].
      by destruct Hseg as (-> & _). }
    destruct hd as [a0|]; [|done].
    split.
    { apply seg_snoc; [|
        rewrite list_lookup_insert_ne by lia;
        rewrite list_lookup_insert_eq
          by (rewrite length_app; simpl; lia); done | done].
      apply (seg_frame h); [done|]. intros b Hb.
      rewrite !list_lookup_insert_ne by lia.
      apply lookup_app_l. lia. }
    split.
    { apply Forall_app. split; [done|]. by constructor. }
    split.
    { intros Hc. apply Forall_app. split; [by apply HN|].
      constructor; [by apply Hdn|constructor]. }
    split; [done|].
    exists (mk_tok k v), None.
    split; [by rewrite list_lookup_insert_eq|].
    split; [by left|]. split; [|done].
    intros _ Hk. rewrite last_addr_snoc. by apply Hpv'.
  - subst T. simpl in Hseg. subst hd.
    rewrite new_token_t_null in Hnew. injection Hnew as <- <-.
    split; [done|]. fold n.
    split; [apply lookup_snoc_fresh|].
    exists []. cbn [hp head tail prev finalized token_start seg].
    split; [done|]. split; [done|]. split; [by constructor|].
    split; [done|].
    exists (mk_tok k v), None.
    split.
    { rewrite list_lookup_insert_eq by (rewrite length_app; simpl; lia).
      done. }
    split; [by left|]. split; [|done].
    intros _ Hk. by apply Hpv'.
Qed.

Lemma determine_token_consumable c p rt cur :
  determine_token c p rt cur = tok_consumable → c = "|"%char.
Proof.
  unfold determine_token.
  repeat (case_decide || case_match); try done.
Qed.

Lemma determine_token_prefix c p rt cur :
  is_prefix_marker (determine_token c p rt cur) = true → cur = tok_number.
Proof.
  unfold determine_token, is_prefix_marker.
  repeat (case_decide || case_match); try done; intuition congruence.
Qed.

Lemma substring_nonempty s : ∀ n m,
  n < String.length s → 0 < m → substring n m s ≠ EmptyString.
Proof.
  induction s as [|c s IH]; intros n m Hn Hm; simpl in Hn; [lia|].
  destruct n as [|n]; simpl.
  - destruct m; [lia|done].
  - apply IH; lia.
Qed.

Lemma with_text_consumable v : with_text (mk_tok tok_consumable v).
Proof. by intros ?. Qed.

Lemma with_text_Some k v : v ≠ EmptyString → with_text (mk_tok k (Some v)).
Proof. intros Hv _. by exists v. Qed.

Lemma classify_char_steady clean i c p st tk st' :
  lex_steady clean False i st → classify_char c p st = Ok (tk, st') →
  lex_steady clean (is_prefix_marker tk = true ∧ open st' = false) i st' ∧
  (c ≠ "|"%char → tk ≠ tok_consumable).
Proof.
  destruct st as [h hd tl pv op fin fnd rt ts].
  unfold lex_steady. cbn [finalized]. intros Hinv H.
  unfold classify_char in H.
  assert (∀ cur, c ≠ "|"%char → determine_token c p rt cur ≠ tok_consumable)
    as Hpipe.
  { intros cur Hc Hk. apply determine_token_consumable in Hk. contradiction. }
  pose proof (lex_core_start_lt _ _ _ _ Hinv) as Hts.
  cbn [finalized token_start] in Hts.
  assert (Hsame : ∀ op' rt' (pm : Prop),
    lex_core clean (tail_steady clean pm fin) i
      (mk_lexer h hd tl pv op' fin fnd rt' ts)).
  { intros op' rt' pm. generalize Hinv. apply lex_core_mono; try done.
    intros t d nx _ _ (Hf & Hc). split; [done|]. intros Hcl.
    destruct (Hc Hcl) as [Hm Hs]. split; [|done]. intros Hk.
    by destruct (Hm Hk). }
  destruct tl as [t|].
  - pose proof Hinv as (T & _ & _ & _ & _ & Htl).
    cbn [hp tail] in Htl. destruct Htl as (d & nx & Ht & _ & _ & _).
    assert (t < length h) as Hlt by (by apply lookup_lt_Some in Ht).
    rewrite !(deref_live _ _ _ Ht) in H.
    cbn [fmap result_fmap token mbind result_bind] in H.
    specialize (Hpipe (kind d)).
    set (k := determine_token c p rt (kind d)) in *. clearbody k.
    repeat result_step H.
    all: try match goal with
      | E : set_token _ _ _ = Ok _ |- _ =>
          rewrite (set_token_live _ _ _ _ Ht) in E; injection E as <-
      end.
    all: try match goal with
      | E : deref (<[?t:=Some ?x]> ?h) (Some ?t) = Ok _ |- _ =>
          rewrite (deref_live (<[t:=Some x]> h) t x) in E
            by (by apply list_lookup_insert_eq);
          injection E as <-
      end.
    all: cbn [finalized open]; split; try done; try apply Hsame.
    all: cbn [token value next] in *.
    all: eapply (lex_core_update_tail _ _ _ _ _ _ _ _ _ _ _ _ _ _ d nx
                   (mk_tok tok_consumable (text d)));
      [exact Ht
      |unfold open_kind; cbn [kind]; auto
      |exact Hinv
      |
      |exact Hts].
    all: intros _; split; [intros _; apply with_text_consumable|].
    all: intros _; cbn [kind]; split; [|done]; intros _; split; [done|].
    all: try done.
    all: apply bool_decide_eq_false; intros ->; done.
  - cbn [fmap result_fmap token mbind result_bind] in H.
    specialize (Hpipe tok_undef).
    set (k := determine_token c p rt tok_undef) in *. clearbody k.
    repeat result_step H.
    all: cbn [finalized open]; split; try done; apply Hsame.
Qed.

Lemma cell_of_inj d nx d' nx' :
  Some (cell_of d nx) = Some (cell_of d' nx') → d = d' ∧ nx = nx'.
Proof.
  unfold cell_of. intros [= Hk Hv Hn]. split; [|done].
  destruct d, d'; simpl in *; congruence.
Qed.

Lemma close_token_ready clean (pm : Prop) s i tk st st' :
  lex_steady clean pm i st → (pm → is_prefix_marker tk = true) →
  i ≤ String.length s →
  close_token s i tk st = Ok st' → lex_ready clean tk i st'.
Proof.
  destruct st as [h hd tl pv op fin fnd rt ts].
  unfold lex_steady, lex_ready. cbn [finalized]. intros Hinv Hpm Hi H.
  unfold close_token in H.
  pose proof (lex_core_start_lt _ _ _ _ Hinv) as Hts.
  cbn [finalized token_start] in Hts.
  destruct tl as [t|].
  - pose proof Hinv as (T & _ & _ & _ & _ & Htl).
    cbn [hp tail] in Htl. destruct Htl as (d & nx & Ht & Hnx & _ & _).
    rewrite !(deref_live _ _ _ Ht) in H.
    cbn [token mbind result_bind] in H.
    destruct (bool_decide (kind d = tok_consumable)) eqn:Hpend.
    + apply bool_decide_eq_true in Hpend.
      destruct (is_prefix_marker tk) eqn:Hpre.
      * destruct Hnx as [->|(b & -> & Hb & Hfree)].
        -- rewrite (delete_token_t_last _ _ _ Ht eq_refl) in H.
           cbn [mbind result_bind] in H. injection H as <-.
           cbn [finalized].
           eapply lex_core_delete_tail;
             [exact Ht|unfold open_kind; auto|exact Hinv| |exact Hts].
           intros da Hda Hneat. split; [done|]. intros Hcl.
           destruct (Hneat Hcl) as [Hk Hs]. by rewrite Hpre.
        -- exfalso.
           destruct (delete_token_t (length h) h (Some t)) as [h'| | |] eqn:E;
             try done.
           by eapply delete_token_t_dangling in E.
      * injection H as <-. cbn [finalized].
        generalize Hinv. apply lex_core_mono; try done.
        intros t' d' nx' [= <-]. cbn [hp]. rewrite Ht.
        intros [-> ->]%cell_of_inj.
        intros (_ & Hc). split.
        { intros Hk. by destruct Hk. }
        intros Hcl. destruct (Hc Hcl) as [Hm _].
        specialize (Hpm (Hm Hpend)). congruence.
    + apply bool_decide_eq_false in Hpend.
      destruct fin; cbn [negb] in H.
      * injection H as <-. cbn [finalized].
        generalize Hinv. apply lex_core_mono; try done.
        intros t' d' nx' [= <-]. cbn [hp]. rewrite Ht.
        intros [-> ->]%cell_of_inj.
        intros (Hf & Hc). split; [by apply Hf|].
        intros Hcl. destruct (Hc Hcl) as [_ Hs].
        split; [done|]. split; [|done]. intros Hst. by apply Hs.
      * rewrite (set_value_live _ _ _ _ Ht) in H.
        cbn [mbind result_bind token next] in H. injection H as <-.
        cbn [finalized]. specialize (Hts eq_refl).
        eapply (lex_core_update_tail _ _ _ _ _ _ _ _ _ _ _ _ _ _ d nx
                  (mk_tok (kind d) (Some (strndup_span s ts i))));
          [exact Ht|done|exact Hinv| |done].
        intros (_ & Hc). split.
        { apply with_text_Some. apply substring_nonempty; lia. }
        intros Hcl. destruct (Hc Hcl) as [_ Hs]. cbn [kind].
        split; [done|]. split; [|done]. intros Hst.
        by destruct (Hs Hst).
  - cbn [mbind result_bind] in H. destruct fin; cbn [negb] in H.
    + injection H as <-. cbn [finalized].
      generalize Hinv. apply lex_core_mono; try done.
    + done.
Qed.

Lemma switch_token_steady clean i c tk st st' :
  lex_ready clean tk i st → (clean → tk ≠ tok_consumable) →
  switch_token i c tk st = Ok st' → lex_steady clean False (S i) st'.
Proof.
  unfold lex_ready, lex_steady. intros Hinv Hclean H.
  assert (Hjoin : ∀ d, tail_ready clean tk (finalized st) d →
                       with_text d ∧ (clean → neat d)).
  { intros d (Hd & Hc). split; [done|]. intros Hcl.
    destruct (Hc Hcl) as (Hk & Hs & _). by split. }
  pose proof (lex_core_start_lt _ _ _ _ Hinv) as Hts.
  (* the two shapes of a case of the switch *)
  assert (Hopen : open_kind tk →
    ∀ fnd',
    ('(h, fresh) ← new_token_t (hp st) tk (tail st);
     Ok (mk_lexer h (if head st is None then fresh else head st) fresh
           (tail st) true false fnd' (restrict_type st) i)) = Ok st' →
    lex_core clean (tail_steady clean False (finalized st')) (S i) st').
  { intros Hk fnd' H'. clear H.
    destruct (new_token_t (hp st) tk (tail st)) as [[h1 fresh]| | |] eqn:E;
      try done.
    cbn [mbind result_bind] in H'. injection H' as <-. cbn [finalized].
    destruct (lex_core_append clean _ (tail_steady clean False false)
                i (S i) st tk h1 fresh None (tail st) true false fnd'
                (restrict_type st) i Hinv Hjoin E) as (-> & Hn & Hinv');
      [| done | intros _; lia |].
    { split; [done|]. intros Hcl. cbn [kind]. split; [by apply Hclean|].
      destruct Hk as [ -> | [ -> | [ -> | -> ] ] ]; done. }
    by rewrite list_insert_id in Hinv'. }
  assert (Hstruct : ¬ open_kind tk →
    (is_structural tk = true → is_prefix_marker tk = false) →
    (t ← deref (hp st) (tail st);
     '(h, head, tail) ←
       (if decide (token t = tok_consumable) then
          h' ← delete_token_t (length (hp st)) (hp st) (tail st);
          Ok (h', (if decide (head st = tail st) then prev st else head st),
              prev st)
        else Ok (hp st, head st, tail st));
     '(h, fresh) ← new_token_t h tk tail;
     h ← set_value h fresh (String c EmptyString);
     Ok (mk_lexer h (if head is None then fresh else head) fresh (prev st)
           (open st) (finalized st) (finding st) (restrict_type st)
           (token_start st))) = Ok st' →
    lex_core clean (tail_steady clean False (finalized st')) (S i) st').
  { intros Hk Hsp H'. clear H Hopen.
    apply bind_Ok in H' as (cl & Hd & H').
    apply deref_Ok in Hd as (t & Htl & Ht).
    assert (∃ st1,
              lex_core clean (tail_ready clean tk (finalized st)) i st1 ∧
              ('(h, fresh) ← new_token_t (hp st1) tk (tail st1);
               h ← set_value h fresh (String c EmptyString);
               Ok (mk_lexer h (if head st1 is None then fresh else head st1)
                     fresh (prev st) (open st) (finalized st) (finding st)
                     (restrict_type st) (token_start st))) = Ok st')
      as (st1 & Hinv1 & H1).
    { destruct (decide (token cl = tok_consumable)) as [Hc|Hc].
      - destruct (lex_core_tail _ _ _ _ _ _ Hinv Htl Ht) as [[_ Hq] Hnx].
        assert (¬ clean) as Hncl.
        { intros Hcl. by destruct (Hq Hcl) as (Hk' & _). }
        destruct st as [h hd tl pv op fin fnd rt ts].
        cbn [hp head tail prev open finalized finding restrict_type
               token_start] in *. subst tl.
        destruct cl as [k v nx]. cbn [token value next] in *. subst k.
        destruct Hnx as [->|(b & -> & Hb & Hfree)].
        + rewrite (delete_token_t_last _ _ _ Ht eq_refl) in H'.
          cbn [mbind result_bind] in H'.
          eexists (mk_lexer _ _ _ _ op fin fnd rt ts). split; [|exact H'].
          eapply (lex_core_delete_tail _ _ _ _ _ _ _ _ _ _ _ _ _ _
                    (mk_tok tok_consumable v));
            [exact Ht|unfold open_kind; cbn; auto|exact Hinv| |exact Hts].
          intros da Hda _. split; [done|]. intros Hcl. by destruct Hncl.
        + exfalso.
          destruct (delete_token_t (length h) h (Some t)) as [h'| | |] eqn:E;
            try done.
          by eapply delete_token_t_dangling in E.
      - cbn [mbind result_bind] in H'. exists st. by split. }
    destruct (new_token_t (hp st1) tk (tail st1)) as [[h1 fresh]| | |] eqn:E;
      try done.
    cbn [mbind result_bind] in H1.
    assert (tail_steady clean False (finalized st)
              (mk_tok tk (Some (String c EmptyString)))) as Hnew.
    { split; [intros _; by apply with_text_Some|].
      intros Hcl. cbn [kind]. split; [by apply Hclean|].
      intros Hs. split; [by eexists|].
      destruct Hinv as (T & _ & _ & _ & _ & Htail). rewrite Htl in Htail.
      destruct Htail as (d & nx & _ & _ & _ & _ & Hr).
      destruct (Hr Hcl) as (_ & _ & Hfin). by apply Hfin, Hsp. }
    destruct (lex_core_append clean _ (tail_steady clean False (finalized st))
                i (S i) st1 tk h1 fresh (Some (String c EmptyString))
                (prev st) (open st) (finalized st) (finding st)
                (restrict_type st) (token_start st) Hinv1)
      as (-> & Hn & Hinv'); try done.
    { intros Hf. specialize (Hts Hf). lia. }
    rewrite (set_value_live _ _ _ _ Hn) in H1.
    cbn [mbind result_bind token next] in H1. by injection H1 as <-. }
  destruct st as [h hd tl pv op fin fnd rt ts].
  cbn [hp head tail prev open finalized finding restrict_type token_start]
    in *.
  unfold switch_token in H.
  destruct tk; try done;
    first [ eapply Hopen; [unfold open_kind; auto|exact H]
          | apply Hstruct;
            [unfold open_kind; intuition discriminate|done|exact H]
          | idtac ].
  (* whitespace *)
  injection H as <-. cbn [finalized].
  generalize Hinv. apply lex_core_mono; try done.
  - intros Hf. specialize (Hts Hf). cbn [token_start] in *. lia.
  - intros t d nx _ _ (Hd & Hc). split; [done|]. intros Hcl.
    destruct (Hc Hcl) as (Hk & Hs & Hfin). split; [done|].
    intros Hst. split; [by apply Hs|by apply Hfin].
Qed.

Lemma pipe_free_cons c s :
  pipe_free (String c s) = true → c ≠ "|"%char ∧ pipe_free s = true.
Proof.
  cbn [pipe_free]. intros [Hc Hs]%andb_prop. split; [|done].
  intros ->. by vm_compute in Hc.
Qed.

Lemma lex_steady_init clean : lex_steady clean False 0 lexer_init.
Proof. exists []. cbn. repeat split; done. Qed.

Lemma tokenize_char_steady (clean : Prop) s i c p st st' :
  lex_steady clean False i st → (clean → c ≠ "|"%char) →
  i ≤ String.length s →
  tokenize_char s i c p st = Ok st' → lex_steady clean False (S i) st'.
Proof.
  intros Hinv Hc Hi H. unfold tokenize_char in H.
  pose proof (lex_core_start_lt _ _ _ _ Hinv) as Hts.
  destruct (decide (finding st ≠ zero)).
  - destruct (decide (c ≠ finding st)); injection H as <-.
    + generalize Hinv. apply lex_core_mono; try done.
      intros Hf. specialize (Hts Hf). lia.
    + generalize Hinv. apply lex_core_mono; try done.
      intros Hf. specialize (Hts Hf). cbn [token_start]. lia.
  - apply bind_Ok in H as ([tk st1] & Hcl & H).
    apply classify_char_steady with (clean := clean) (i := i) in Hcl
      as [Hinv1 Hk]; [|done].
    pose proof (lex_core_start_lt _ _ _ _ Hinv1) as Hts1.
    destruct (open st1) eqn:Hop.
    + injection H as <-.
      generalize Hinv1. apply lex_core_mono; try done.
      * intros Hf. specialize (Hts1 Hf). lia.
      * intros t d nx _ _ (Hf & Hcn). split; [done|]. intros Hcl.
        destruct (Hcn Hcl) as [Hm Hs]. split; [|done].
        intros Hkd. by destruct (Hm Hkd).
    + apply bind_Ok in H as (st2 & Hclose & H).
      eapply (close_token_ready clean) in Hclose;
        [|exact Hinv1|by intros [? _]|done].
      apply (switch_token_steady clean) in H; [done|done|].
      intros Hcl. apply Hk. by apply Hc.
Qed.

Lemma tokenize_loop_steady (clean : Prop) s rest : ∀ p i st st' i',
  lex_steady clean False i st →
  i + String.length rest = String.length s →
  (clean → pipe_free rest = true) →
  tokenize_loop s rest p i st = Ok (st', i') →
  lex_steady clean False i' st' ∧ i' ≤ String.length s.
Proof.
  induction rest as [|c rest IH]; intros p i st st' i' Hinv Hlen Hpf H;
    cbn [tokenize_loop] in H.
  - injection H as <- <-. split; [done|]. lia.
  - cbn [String.length] in Hlen.
    destruct (decide (c = zero)).
    { injection H as <- <-. split; [done|]. lia. }
    apply bind_Ok in H as (st1 & Hc & H).
    apply (tokenize_char_steady clean) in Hc; [|done| |lia].
    + eapply IH; [exact Hc|lia| |exact H].
      intros Hcl. by destruct (pipe_free_cons _ _ (Hpf Hcl)).
    + intros Hcl. by destruct (pipe_free_cons _ _ (Hpf Hcl)).
Qed.

Lemma tokenize_state_final (clean : Prop) s st :
  (clean → pipe_free s = true) →
  tokenize_state s = Ok st → ∃ i, lex_core clean (tail_final clean) i st.
Proof.
  unfold tokenize_state. intros Hpf H.
  apply bind_Ok in H as ([st1 i] & Hl & H).
  apply (tokenize_loop_steady clean) in Hl as [Hinv Hi];
    [|apply lex_steady_init|done|done].
  exists i.
  pose proof (lex_core_start_lt _ _ _ _ Hinv) as Hts.
  destruct (finalized st1) eqn:Hfin.
  - injection H as <-. unfold lex_steady in Hinv. rewrite Hfin in Hinv.
    generalize Hinv. apply lex_core_mono; try done; [congruence|].
    intros t d nx _ _ (Hf & Hc). split; [by apply Hf|].
    intros Hcl. destruct (Hc Hcl) as [Hm Hs]. split.
    + intros Hk. by destruct (Hm Hk).
    + intros Hst. by apply Hs.
  - apply bind_Ok in H as (h' & Hset & H). injection H as <-.
    specialize (Hts eq_refl).
    destruct st1 as [h hd tl pv op fin fnd rt ts].
    cbn [hp head tail prev open finalized finding restrict_type token_start]
      in *. subst fin.
    destruct tl as [t|]; [|done].
    pose proof Hinv as (T & _ & _ & _ & _ & Htl).
    cbn [hp tail] in Htl. destruct Htl as (d & nx & Ht & _ & _ & _).
    rewrite (set_value_live _ _ _ _ Ht) in Hset. injection Hset as <-.
    cbn [token next].
    eapply (lex_core_update_tail _ _ _ _ _ _ _ _ _ _ _ _ _ _ d nx
              (mk_tok (kind d) (Some (strndup_span s ts i))));
      [exact Ht|done|exact Hinv| |done].
    intros (_ & Hc). split.
    { apply with_text_Some. apply substring_nonempty; lia. }
    intros Hcl. destruct (Hc Hcl) as [Hm Hs]. split; cbn [kind].
    + intros Hk. by destruct (Hm Hk).
    + intros Hst. by destruct (Hs Hst).
Qed.

Lemma chain_seg_split h T : ∀ fuel p q l,
  seg h p T q → chain fuel h p = Ok l →
  ∃ fuel' l', chain fuel' h q = Ok l' ∧ l = (snd <$> T) ++ l'.
Proof.
  induction T as [|[a d] T IH]; intros fuel p q l; simpl.
  - intros -> H. eauto.
  - intros (-> & nx & Ha & Hlt & Hseg) H.
    destruct fuel as [|fuel]; [done|]. cbn [chain] in H.
    rewrite (deref_live _ _ _ Ha) in H. cbn [mbind result_bind next] in H.
    apply bind_Ok in H as (l1 & Hl1 & H). injection H as <-.
    destruct (IH _ _ _ _ Hseg Hl1) as (fuel' & l' & Hq & ->).
    exists fuel', l'. split; [done|]. cbn [token value]. by rewrite tok_eta.
Qed.

Lemma chain_tail h t d nx fuel l :
  h !! t = Some (cell_of d nx) →
  nx = None ∨ (∃ b, nx = Some b ∧ t < b ∧ h !! b = Some None) →
  chain fuel h (Some t) = Ok l → l = [d].
Proof.
  intros Ht Hnx H. destruct fuel as [|fuel]; [done|]. cbn [chain] in H.
  rewrite (deref_live _ _ _ Ht) in H. cbn [mbind result_bind next] in H.
  apply bind_Ok in H as (l1 & Hl1 & H). injection H as <-.
  cbn [token value]. rewrite tok_eta.
  destruct Hnx as [->|(b & -> & Hb & Hfree)].
  - destruct fuel; simpl in Hl1; by injection Hl1 as <-.
  - exfalso. destruct fuel as [|fuel]; [done|]. cbn [chain] in Hl1.
    unfold deref in Hl1. by rewrite Hfree in Hl1.
Qed.

(** What the tokenizer guarantees of the sequence it returns. *)
Lemma tokenize_tokens (clean : Prop) s l :
  (clean → pipe_free s = true) → tokenize s = Ok l →
  Forall with_text l ∧ (clean → Forall neat l).
Proof.
  unfold tokenize. intros Hpf H. apply bind_Ok in H as (st & Hst & H).
  apply (tokenize_state_final clean) in Hst
    as (i & T & Hseg & HT & HN & _ & Htl); [|done].
  destruct (chain_seg_split _ _ _ _ _ _ Hseg H) as (fuel' & l' & Hq & ->).
  assert (Forall with_text l' ∧ (clean → Forall neat l')) as [Hl1 Hl2].
  { destruct (tail st) as [t|].
    - destruct Htl as (d & nx & Ht & Hnx & _ & Hd & Hn).
      rewrite (chain_tail _ _ _ _ _ _ Ht Hnx Hq).
      split; [by repeat constructor|].
      intros Hcl. repeat constructor; by apply Hn.
    - destruct fuel'; simpl in Hq; injection Hq as <-; by split. }
  split.
  - apply Forall_app. split; [|done].
    apply Forall_fmap. by eapply Forall_impl; [exact HT|].
  - intros Hcl. apply Forall_app. split; [|by apply Hl2].
    apply Forall_fmap. by eapply Forall_impl; [exact (HN Hcl)|].
Qed.

Lemma has_fuel_bind {A B} (f : A → result B) (m : result A) :
  has_fuel m → (∀ a, m = Ok a → has_fuel (f a)) → has_fuel (mbind f m).
Proof. destruct m; simpl; auto. Qed.

Lemma has_fuel_deref h p : has_fuel (deref h p).
Proof. unfold deref. by repeat case_match. Qed.

Lemma has_fuel_store h p c : has_fuel (store h p c).
Proof. unfold store. by repeat case_match. Qed.

Lemma has_fuel_set_token h p k : has_fuel (set_token h p k).
Proof.
  unfold set_token. apply has_fuel_bind; [apply has_fuel_deref|].
  intros; apply has_fuel_store.
Qed.

Lemma has_fuel_set_value h p v : has_fuel (set_value h p v).
Proof.
  unfold set_value. apply has_fuel_bind; [apply has_fuel_deref|].
  intros; apply has_fuel_store.
Qed.

Lemma has_fuel_new_token_t h k p : has_fuel (new_token_t h k p).
Proof.
  unfold new_token_t. destruct p; [|done].
  apply has_fuel_bind; [apply has_fuel_deref|]. intros c _.
  apply has_fuel_bind; [apply has_fuel_store|]. done.
Qed.

(** Deleting the token at [tail] never needs more fuel than the heap has
    cells. *)
Lemma has_fuel_delete_tail h t c :
  h !! t = Some (Some c) →
  (next c = None ∨ ∃ b, next c = Some b ∧ t < b ∧ h !! b = Some None) →
  has_fuel (delete_token_t (length h) h (Some t)).
Proof.
  intros Ht Hnx. destruct Hnx as [Hn|(b & Hn & Hb & Hfree)].
  - by rewrite (delete_token_t_last _ _ _ Ht Hn).
  - assert (b < length h) as Hlb by (by apply lookup_lt_Some in Hfree).
    destruct (length h) as [|[|n]] eqn:E; [lia|lia|].
    cbn [delete_token_t]. rewrite (deref_live _ _ _ Ht).
    cbn [mbind result_bind]. rewrite Hn.
    cbn [delete_token_t mbind result_bind]. unfold deref. by rewrite Hfree.
Qed.


Lemma has_fuel_classify_char c p st : has_fuel (classify_char c p st).
Proof.
  destruct st as [h hd tl pv op fin fnd rt ts]. unfold classify_char.
  apply has_fuel_bind.
  { destruct tl; [|done]. destruct (deref h (Some n)) eqn:E; try done.
    unfold deref in E. by repeat case_match. }
  intros cur _.
  apply has_fuel_bind.
  { case_decide; [|done]. apply has_fuel_bind; [apply has_fuel_deref|done]. }
  intros [] _; [done|].
  apply has_fuel_bind.
  { destruct (is_prefix_marker _); [|done].
    apply has_fuel_bind; [apply has_fuel_deref|]. intros t _.
    case_decide; [apply has_fuel_set_token|done]. }
  intros h1 _.
  apply has_fuel_bind; [|done].
  destruct (if decide (_ = tok_ws) then false else op); [|done].
  apply has_fuel_bind; [apply has_fuel_deref|done].
Qed.

Lemma has_fuel_close_token clean Q s i k st :
  lex_core clean Q i st → has_fuel (close_token s i k st).
Proof.
  intros Hinv. destruct st as [h hd tl pv op fin fnd rt ts].
  unfold close_token.
  apply has_fuel_bind.
  { destruct tl; [|done]. apply has_fuel_bind; [apply has_fuel_deref|done]. }
  intros pending Hp. destruct pending.
  - destruct (is_prefix_marker k); [|done].
    apply has_fuel_bind; [|done].
    destruct tl as [t|]; [|done].
    apply bind_Ok in Hp as (c0 & E & _).
    apply deref_Ok in E as (t' & [= <-] & Ht).
    destruct (lex_core_tail _ _ _ _ _ _ Hinv eq_refl Ht) as [_ Hnx].
    by eapply has_fuel_delete_tail.
  - destruct (negb fin); [|done].
    apply has_fuel_bind; [apply has_fuel_set_value|done].
Qed.

Lemma has_fuel_switch_token clean Q i c k st :
  lex_core clean Q i st → has_fuel (switch_token i c k st).
Proof.
  intros Hinv. destruct st as [h hd tl pv op fin fnd rt ts].
  unfold switch_token.
  assert (has_fuel
    (t ← deref h tl;
     '(h0, head, tail) ←
       (if decide (token t = tok_consumable) then
          h' ← delete_token_t (length h) h tl;
          Ok (h', (if decide (hd = tl) then pv else hd), pv)
        else Ok (h, hd, tl));
     '(h1, fresh) ← new_token_t h0 k tail;
     h2 ← set_value h1 fresh (String c EmptyString);
     Ok (mk_lexer h2 (if head is None then fresh else head) fresh pv
           op fin fnd rt ts))) as Hstruct.
  { apply has_fuel_bind; [apply has_fuel_deref|]. intros cl Hd.
    apply deref_Ok in Hd as (t & -> & Ht).
    destruct (lex_core_tail _ _ _ _ _ _ Hinv eq_refl Ht) as [_ Hnx].
    apply has_fuel_bind.
    - destruct (decide (token cl = tok_consumable)); [|done].
      apply has_fuel_bind; [|done]. by eapply has_fuel_delete_tail.
    - intros [[h0 hd0] tl0] _.
      apply has_fuel_bind; [apply has_fuel_new_token_t|].
      intros [h1 fresh] _.
      apply has_fuel_bind; [apply has_fuel_set_value|done]. }
  destruct k; try done; try exact Hstruct;
    (apply has_fuel_bind; [apply has_fuel_new_token_t|by intros [? ?] _]).
Qed.

Lemma has_fuel_tokenize_char s i c p st :
  lex_steady False False i st → i ≤ String.length s →
  has_fuel (tokenize_char s i c p st).
Proof.
  intros Hinv Hi. unfold tokenize_char.
  destruct (decide (finding st ≠ zero)); [by case_decide|].
  apply has_fuel_bind; [apply has_fuel_classify_char|]. intros [k st1] Hc.
  apply (classify_char_steady False i) in Hc as [Hinv1 _]; [|done].
  destruct (open st1); [done|].
  apply has_fuel_bind; [by eapply has_fuel_close_token|]. intros st2 Hcl.
  eapply (close_token_ready False) in Hcl;
    [|exact Hinv1|by intros [? _]|done].
  by eapply has_fuel_switch_token.
Qed.

Lemma has_fuel_tokenize_loop s rest : ∀ p i st,
  lex_steady False False i st →
  i + String.length rest = String.length s →
  has_fuel (tokenize_loop s rest p i st).
Proof.
  induction rest as [|c rest IH]; intros p i st Hinv Hlen;
    cbn [tokenize_loop]; [done|].
  cbn [String.length] in Hlen.
  destruct (decide (c = zero)); [done|].
  apply has_fuel_bind; [apply has_fuel_tokenize_char; [done|lia]|].
  intros st1 Hc.
  apply (tokenize_char_steady False) in Hc; [|done|done|lia].
  apply IH; [done|lia].
Qed.

Lemma has_fuel_tokenize_state s : has_fuel (tokenize_state s).
Proof.
  unfold tokenize_state. apply has_fuel_bind.
  - apply has_fuel_tokenize_loop; [apply lex_steady_init|done].
  - intros [st i] _. destruct (finalized st); [done|].
    apply has_fuel_bind; [apply has_fuel_set_value|done].
Qed.

(** Reading a chain whose addresses increase takes no more steps than the
    distance to its last cell. *)
Lemma has_fuel_chain h t d nx T : ∀ p fuel,
  seg h p T (Some t) →
  h !! t = Some (cell_of d nx) →
  (nx = None ∨ ∃ b, nx = Some b ∧ t < b ∧ h !! b = Some None) →
  (∀ a, p = Some a → t + (if nx is None then 1 else 2) ≤ fuel + a) →
  has_fuel (chain fuel h p).
Proof.
  intros p fuel Hseg Ht Hnx. revert p fuel Hseg.
  induction T as [|[a d'] T IH]; intros p fuel; simpl.
  - intros -> Hf. specialize (Hf t eq_refl).
    destruct fuel as [|fuel]; [destruct nx; lia|]. cbn [chain].
    rewrite (deref_live _ _ _ Ht). cbn [mbind result_bind next].
    destruct Hnx as [->|(b & -> & Hb & Hfree)].
    + by destruct fuel.
    + destruct fuel as [|fuel]; [lia|]. cbn [chain mbind result_bind].
      unfold deref. by rewrite Hfree.
  - intros (-> & nx' & Ha & Hlt & Hseg) Hf. specialize (Hf a eq_refl).
    pose proof (seg_bound _ _ _ _ (conj eq_refl
      (ex_intro _ nx' (conj Ha (conj Hlt Hseg))) : seg h (Some a) ((a, d') :: T) (Some t))) as Hb.
    apply Forall_cons in Hb as [Hat _]. cbn [fst] in Hat.
    destruct fuel as [|fuel]; [destruct nx; lia|]. cbn [chain].
    rewrite (deref_live _ _ _ Ha). cbn [mbind result_bind next].
    apply has_fuel_bind; [|done].
    apply IH; [done|]. intros b ->. specialize (Hlt b eq_refl).
    destruct nx; lia.
Qed.

(** The tokenizer needs no more fuel than it is given: it returns a
    sequence, throws, or runs into undefined behaviour. *)
Lemma tokenize_has_fuel s : has_fuel (tokenize s).
Proof.
  unfold tokenize. apply has_fuel_bind; [apply has_fuel_tokenize_state|].
  intros st Hst.
  apply (tokenize_state_final False) in Hst
    as (i & T & Hseg & _ & _ & _ & Htl); [|done].
  destruct (tail st) as [t|].
  - destruct Htl as (d & nx & Ht & Hnx & _).
    eapply has_fuel_chain; [exact Hseg|exact Ht|exact Hnx|].
    intros a _. apply lookup_lt_Some in Ht as Hlen.
    destruct Hnx as [->|(b & -> & Hb & Hfree)]; [lia|].
    apply lookup_lt_Some in Hfree. lia.
  - subst T. simpl in Hseg. rewrite Hseg. by destruct (length (hp st)).
Qed.

Lemma with_text_wf d : with_text d → tok_wf d.
Proof.
  intros Hd Hk. destruct Hd as (v & Hv & Hne).
  { by destruct Hk as [-> |[-> | ->]]. }
  exists v. split; [done|]. intros _. by destruct v.
Qed.

Lemma tokenize_wf s l : tokenize s = Ok l → Forall tok_wf l.
Proof.
  intros H. apply (tokenize_tokens False) in H as [H _]; [|done].
  eapply Forall_impl; [exact H|]. apply with_text_wf.
Qed.

(** The tokenizer hands the parser what the parser needs: on a sequence
    that [tokenize] returned and that is not empty, [treeify] returns the
    tree of the whole sequence or throws at a remaining token. *)
Lemma tokenize_treeify (s : string) (tokens : list tok) :
  tokenize s = Ok tokens → tokens ≠ [] →
  (∃ e, treeify tokens = Ok (Some e)) ∨
  (∃ t rest, (t :: rest) `suffix_of` tokens ∧
             treeify tokens = Raise (SyntaxError (text t))).
Proof.
  intros H Hne. apply tokenize_wf in H.
  destruct (treeify_total tokens Hne H) as [(e & _ & He)|Hr]; eauto.
Qed.

(** C2.  When the first character that produces a token is a structural
    character or a pipe, [tokenize] reads [tail->token] while [tail] is
    still null: the outcome is neither a token sequence nor an exception. *)
Theorem C2_tokenize_reads_null_tail :
  Forall (λ s, tokenize s = Undefined NullDeref)
    ["+"; "-"; "*"; "/"; ","; "="; ")"; "("; "|"; " +"; "0x1F"].
Proof. repeat constructor; vm_compute; reflexivity. Qed.



(** C9, as stated, fails: a pending marker can stay without text, and the
    concat token has a text of two characters. *)
Lemma C9_counterexample :
  tokenize "a|b" =
    Ok [tk tok_symbol "a"; mk_tok tok_consumable None; tk tok_symbol "b"] ∧
  tokenize "a||b" =
    Ok [tk tok_symbol "a"; tk tok_concat "||"; tk tok_symbol "b"] ∧
  tokenize "a|+b" =
    Ok [tk tok_symbol "a"; tk tok_plus "|+"; tk tok_symbol "b"].
Proof. repeat split; vm_compute; reflexivity. Qed.

(** C9, amended.  In every token sequence that [tokenize] returns, every
    token other than a pending marker has a text that is not empty: the
    symbols, numbers and strings, the structural tokens and the prefix
    markers.  When the input holds no pipe character, the sequence holds no
    pending marker, and every structural token (parens, operators, comma,
    equal) carries a text of exactly one character. *)
Theorem C9_tokens_have_text (s : string) (tokens : list tok) :
  tokenize s = Ok tokens →
  Forall (λ t, kind t ≠ tok_consumable →
               ∃ v, text t = Some v ∧ v ≠ EmptyString) tokens ∧
  (pipe_free s = true →
   Forall (λ t, kind t ≠ tok_consumable ∧
                (is_structural (kind t) = true →
                 ∃ ch, text t = Some (String ch EmptyString))) tokens).
Proof.
  intros H.
  by apply (tokenize_tokens (pipe_free s = true)) in H.
Qed.

Lemma C9_witness :
  tokenize "f(a, b)" =
    Ok [tk tok_symbol "f"; tk tok_lparen "("; tk tok_symbol "a";
        tk tok_comma ","; tk tok_symbol "b"; tk tok_rparen ")"] ∧
  pipe_free "f(a, b)" = true ∧
  Forall (λ t, kind t ≠ tok_consumable ∧
               (is_structural (kind t) = true →
                ∃ ch, text t = Some (String ch EmptyString)))
    [tk tok_symbol "f"; tk tok_lparen "("; tk tok_symbol "a";
     tk tok_comma ","; tk tok_symbol "b"; tk tok_rparen ")"].
Proof.
  split; [vm_compute; reflexivity|].
  split; [vm_compute; reflexivity|].
  apply (C9_tokens_have_text "f(a, b)");
    vm_compute; reflexivity.
Defined.

(** ** Evaluation *)

Lemma eval_call_list {S} order (ct : st_callback_table S) fname values st :
  eval order ct (call_t fname (Some values)) st =
  '(listref, st) ← list_eval order ct values st;
  Ok (fcall ct fname listref st).
Proof. reflexivity. Qed.

(** Induction on syntax trees, through argument lists. *)
Lemma st_t_rect' (P : st_t → Prop) :
  (∀ v, P (var_t v)) →
  (∀ ty re v, P (value_t ty re v)) →
  (∀ v e, P e → P (set_t v e)) →
  (∀ vs, Forall P vs → P (list_t vs)) →
  (∀ f, P (call_t f None)) →
  (∀ f vs, Forall P vs → P (call_t f (Some vs))) →
  (∀ op l r, P l → P r → P (bin_t op l r)) →
  ∀ t, P t.
Proof.
  intros Hvar Hval Hset Hlist Hcall0 Hcall Hbin.
  fix IH 1. intros [v|ty re v|v e|vs|f [vs|]|op l r].
  - apply Hvar.
  - apply Hval.
  - apply Hset, IH.
  - apply Hlist. induction vs as [|x vs IHvs]; constructor; [apply IH|done].
  - apply Hcall. induction vs as [|x vs IHvs]; constructor; [apply IH|done].
  - apply Hcall0.
  - apply Hbin; apply IH.
Qed.

Section Recording.
Context {S : Type}.
Variable order : arg_order.
Variable ct : st_callback_table S.

#[local] Abbreviation ev := (eval order (recording ct)).
#[local] Abbreviation evl := (list_eval order (recording ct)).

(** Evaluation only adds calls at the end of the log. *)
Lemma eval_log_extends t : ∀ st log r st' log',
  ev t (st, log) = Ok (r, (st', log')) → log `prefix_of` log'.
Proof.
  induction t as [v|ty re v|v e IH|vs IH|f|f vs IH|op l r IHl IHr]
    using st_t_rect'; intros st log r0 st' log' H.
  - cbn in H. destruct (load ct v st). injection H as <- <- <-.
    by apply prefix_app_r.
  - cbn in H. destruct (convert ct v ty re st). injection H as <- <- <-.
    by apply prefix_app_r.
  - cbn [eval] in H. apply bind_Ok in H as ([r1 [st1 log1]] & He & H).
    apply IH in He. cbn in H. injection H as <- <- <-.
    etrans; [exact He|]. by apply prefix_app_r.
  - done.
  - done.
  - rewrite eval_call_list in H.
    apply bind_Ok in H as ([refs [st1 log1]] & Hl & H).
    cbn in H. destruct (fcall ct f refs st1). injection H as <- <- <-.
    etrans; [|by apply prefix_app_r].
    clear -Hl IH. revert st log refs Hl.
    induction vs as [|x vs IHvs]; intros st log refs Hl.
    + cbn in Hl. by injection Hl as <- <- <-.
    + apply Forall_cons in IH as [Hx Hvs]. cbn [list_eval] in Hl.
      apply bind_Ok in Hl as ([r1 [st2 log2]] & He & Hl).
      apply bind_Ok in Hl as ([rs [st3 log3]] & Hr & Hl).
      injection Hl as <- <- <-.
      etrans; [by eapply Hx|]. by eapply IHvs.
  - cbn [eval] in H. destruct order.
    + apply bind_Ok in H as ([ra [st1 log1]] & Ha & H).
      apply bind_Ok in H as ([rb [st2 log2]] & Hb & H).
      cbn in H. destruct (bin ct op ra rb st2). injection H as <- <- <-.
      etrans; [by eapply IHl|]. etrans; [by eapply IHr|].
      by apply prefix_app_r.
    + apply bind_Ok in H as ([rb [st1 log1]] & Hb & H).
      apply bind_Ok in H as ([ra [st2 log2]] & Ha & H).
      cbn in H. destruct (bin ct op ra rb st2). injection H as <- <- <-.
      etrans; [by eapply IHr|]. etrans; [by eapply IHl|].
      by apply prefix_app_r.
Qed.

(** The elements of a list are evaluated front to back. *)
Lemma list_eval_app vs1 vs2 σ :
  evl (vs1 ++ vs2) σ =
  '(r1, σ1) ← evl vs1 σ; '(r2, σ2) ← evl vs2 σ1; Ok (r1 ++ r2, σ2).
Proof.
  revert σ. induction vs1 as [|v vs1 IH]; intros σ.
  - cbn. destruct (evl vs2 σ) as [[r2 σ2]| | |]; done.
  - cbn [app list_eval]. destruct (ev v σ) as [[r σ1]| | |]; try done.
    cbn [mbind result_bind]. rewrite IH.
    destruct (evl vs1 σ1) as [[r1 σ2]| | |]; try done.
    cbn [mbind result_bind].
    destruct (evl vs2 σ2) as [[r2 σ3]| | |]; done.
Qed.

Lemma list_eval_length vs : ∀ σ refs σ1,
  evl vs σ = Ok (refs, σ1) → length refs = length vs.
Proof.
  induction vs as [|x vs IHvs]; intros σ refs σ1 Hl.
  - cbn in Hl. by injection Hl as <- _.
  - cbn [list_eval] in Hl.
    apply bind_Ok in Hl as ([r1 σ2] & He & Hl).
    apply bind_Ok in Hl as ([rs σ3] & Hr & Hl).
    injection Hl as <- _. cbn. f_equal. by eapply IHvs.
Qed.

Lemma eval_call_trace f vs σ res σ' :
  ev (call_t f (Some vs)) σ = Ok (res, σ') →
  ∃ refs σ1,
    evl vs σ = Ok (refs, σ1) ∧ length refs = length vs ∧
    snd σ' = snd σ1 ++ [CFcall f refs res].
Proof.
  intros H. rewrite eval_call_list in H.
  apply bind_Ok in H as ([refs [st1 log1]] & Hl & H).
  cbn in H. destruct (fcall ct f refs st1) as [r0 st2] eqn:E.
  injection H as <- <-.
  exists refs, (st1, log1). split; [done|]. split; [|done].
  by eapply list_eval_length.
Qed.

Lemma eval_f_a_b st :
  ∃ ra rb res st',
    ev (call_t "f" (Some [var_t "a"; var_t "b"])) (st, []) =
    Ok (res, (st', [CLoad "a" ra; CLoad "b" rb; CFcall "f" [ra; rb] res])).
Proof.
  cbn. destruct (load ct "a" st) as [ra st1].
  destruct (load ct "b" st1) as [rb st2]. cbn.
  destruct (fcall ct "f" [ra; rb] st2) as [res st3]. eauto.
Qed.

End Recording.

Lemma eval_bin_trace {S} order (ct : st_callback_table S) op l r σ res σ' :
  eval order (recording ct) (bin_t op l r) σ = Ok (res, σ') →
  ∃ ra rb σ1 σ2,
    (match order with
     | LeftToRight =>
         eval order (recording ct) l σ = Ok (ra, σ1) ∧
         eval order (recording ct) r σ1 = Ok (rb, σ2)
     | RightToLeft =>
         eval order (recording ct) r σ = Ok (rb, σ1) ∧
         eval order (recording ct) l σ1 = Ok (ra, σ2)
     end) ∧
    snd σ `prefix_of` snd σ1 ∧ snd σ1 `prefix_of` snd σ2 ∧
    snd σ' = snd σ2 ++ [CBin op ra rb res].
Proof.
  intros H. cbn [eval] in H. destruct order.
  - apply bind_Ok in H as ([ra [st1 log1]] & Ha & H).
    apply bind_Ok in H as ([rb [st2 log2]] & Hb & H).
    cbn in H. destruct (bin ct op ra rb st2) as [r0 st3] eqn:E.
    injection H as <- <-.
    exists ra, rb, (st1, log1), (st2, log2). destruct σ as [st log].
    cbn [snd]. split; [done|].
    split; [eapply eval_log_extends; eassumption|].
    split; [eapply eval_log_extends; eassumption|done].
  - apply bind_Ok in H as ([rb [st1 log1]] & Hb & H).
    apply bind_Ok in H as ([ra [st2 log2]] & Ha & H).
    cbn in H. destruct (bin ct op ra rb st2) as [r0 st3] eqn:E.
    injection H as <- <-.
    exists ra, rb, (st1, log1), (st2, log2). destruct σ as [st log].
    cbn [snd]. split; [done|].
    split; [eapply eval_log_extends; eassumption|].
    split; [eapply eval_log_extends; eassumption|done].
Qed.

Example tokenize_a_minus_b_minus_c :
  tokenize "a-b-c" =
  Ok [tk tok_symbol "a"; tk tok_minus "-"; tk tok_symbol "b";
      tk tok_minus "-"; tk tok_symbol "c"].
Proof. vm_compute. reflexivity. Qed.

Example tokenize_f_a_b :
  tokenize "f(a, b)" =
  Ok [tk tok_symbol "f"; tk tok_lparen "("; tk tok_symbol "a";
      tk tok_comma ","; tk tok_symbol "b"; tk tok_rparen ")"].
Proof. vm_compute. reflexivity. Qed.

Example treeify_f_a_b :
  treeify [tk tok_symbol "f"; tk tok_lparen "("; tk tok_symbol "a";
           tk tok_comma ","; tk tok_symbol "b"; tk tok_rparen ")"] =
  Ok (Some (call_t "f" (Some [var_t "a"; var_t "b"]))).
Proof. vm_compute. reflexivity. Qed.


(** C1.  Chained binary operators parse right-associatively: [a-b-c] is
    tokenized and parsed to [bin(minus, a, bin(minus, b, c))], and under a
    contract whose [bin] subtracts and whose [load] gives a=5, b=3, c=1 the
    evaluation returns 5 - (3 - 1) = 3. *)
Theorem C1_chained_minus_right_assoc
    {S : Type} (order : arg_order) (ct : st_callback_table S) (st : S) :
  (∀ x y st, (y <= x)%N → fst (bin ct tok_minus x y st) = (x - y)%N) →
  (∀ st, fst (load ct "a" st) = 5%N) →
  (∀ st, fst (load ct "b" st) = 3%N) →
  (∀ st, fst (load ct "c" st) = 1%N) →
  ∃ tokens st',
    tokenize "a-b-c" = Ok tokens ∧
    treeify tokens =
      Ok (Some (bin_t tok_minus (var_t "a")
                  (bin_t tok_minus (var_t "b") (var_t "c")))) ∧
    eval order ct
      (bin_t tok_minus (var_t "a") (bin_t tok_minus (var_t "b") (var_t "c")))
      st = Ok (3%N, st').
Proof.
  intros Hbin Ha Hb Hc.
  eexists.
  assert (∀ x y st, (y <= x)%N →
            ∃ st', bin ct tok_minus x y st = ((x - y)%N, st')) as Hbin'.
  { intros x y s0 Hle. specialize (Hbin x y s0 Hle).
    destruct (bin ct tok_minus x y s0) as [r s1]. simpl in Hbin. subst. eauto. }
  assert (∀ v n, (∀ st, fst (load ct v st) = n) →
            ∀ st, ∃ st', load ct v st = (n, st')) as Hload.
  { intros v n H s0. specialize (H s0).
    destruct (load ct v s0) as [r s1]. simpl in H. subst. eauto. }
  assert (∀ st, ∃ st', bin ct tok_minus 3%N 1%N st = (2%N, st')) as H31.
  { intros s0. by apply (Hbin' 3%N 1%N). }
  assert (∀ st, ∃ st', bin ct tok_minus 5%N 2%N st = (3%N, st')) as H52.
  { intros s0. by apply (Hbin' 5%N 2%N). }
  destruct order; cbn [eval mbind result_bind].
  - destruct (Hload _ _ Ha st) as (s1 & ->); cbn [eval mbind result_bind].
    destruct (Hload _ _ Hb s1) as (s2 & ->); cbn [eval mbind result_bind].
    destruct (Hload _ _ Hc s2) as (s3 & ->); cbn [eval mbind result_bind].
    destruct (H31 s3) as (s4 & ->); cbn [eval mbind result_bind].
    destruct (H52 s4) as (s5 & ->); cbn [eval mbind result_bind].
    exists s5. split; [exact tokenize_a_minus_b_minus_c|].
    split; [vm_compute; reflexivity|reflexivity].
  - destruct (Hload _ _ Hc st) as (s1 & ->); cbn [eval mbind result_bind].
    destruct (Hload _ _ Hb s1) as (s2 & ->); cbn [eval mbind result_bind].
    destruct (H31 s2) as (s3 & ->); cbn [eval mbind result_bind].
    destruct (Hload _ _ Ha s3) as (s4 & ->); cbn [eval mbind result_bind].
    destruct (H52 s4) as (s5 & ->); cbn [eval mbind result_bind].
    exists s5. split; [exact tokenize_a_minus_b_minus_c|].
    split; [vm_compute; reflexivity|reflexivity].
Qed.

Lemma C1_witness :
  ∃ tokens st',
    tokenize "a-b-c" = Ok tokens ∧
    treeify tokens =
      Ok (Some (bin_t tok_minus (var_t "a")
                  (bin_t tok_minus (var_t "b") (var_t "c")))) ∧
    eval RightToLeft sample_contract
      (bin_t tok_minus (var_t "a") (bin_t tok_minus (var_t "b") (var_t "c")))
      tt = Ok (3%N, st').
Proof.
  apply (C1_chained_minus_right_assoc RightToLeft sample_contract tt).
  - intros x y st Hle. reflexivity.
  - intros st. reflexivity.
  - intros st. reflexivity.
  - intros st. reflexivity.
Defined.

(** C3.  [func()] parses to a call node whose argument list is the null
    pointer that [parse_csv] returned for zero arguments; [call_t::eval]
    calls [list_eval] through it, so no [fcall] is made. *)
Theorem C3_zero_argument_call
    {S : Type} (order : arg_order) (ct : st_callback_table S) (st : S) :
  tokenize "func()" =
    Ok [tk tok_symbol "func"; tk tok_lparen "("; tk tok_rparen ")"] ∧
  treeify [tk tok_symbol "func"; tk tok_lparen "("; tk tok_rparen ")"] =
    Ok (Some (call_t "func" None)) ∧
  eval order ct (call_t "func" None) st = Undefined NullDeref.
Proof. repeat split; vm_compute; reflexivity. Qed.

(** C8, as stated, fails where the compiler evaluates the arguments of
    [ct->bin(...)] from the right: the right operand is loaded first. *)
Lemma C8_counterexample :
  (tokenize "a-b" ≫= treeify) =
    Ok (Some (bin_t tok_minus (var_t "a") (var_t "b"))) ∧
  eval RightToLeft (recording sample_contract)
    (bin_t tok_minus (var_t "a") (var_t "b")) (tt, []) =
  Ok (2%N, (tt, [CLoad "b" 3%N; CLoad "a" 5%N; CBin tok_minus 5%N 3%N 2%N])).
Proof. split; vm_compute; reflexivity. Qed.

(** C8, amended.  Under a contract that records its calls: a BinaryOp node
    evaluates both operands, one after the other in the order the compiler
    chose for the arguments of the call, and then makes the single [bin]
    call; a Call node evaluates its arguments from first to last and then
    makes the single [fcall] call; [f(a, b)] gives the trace load(a),
    load(b), fcall(f, [ref_a, ref_b]). *)
Theorem C8_evaluation_order
    {S : Type} (order : arg_order) (ct : st_callback_table S) :
  (∀ op l r σ res σ',
     eval order (recording ct) (bin_t op l r) σ = Ok (res, σ') →
     ∃ ra rb σ1 σ2,
       (match order with
        | LeftToRight =>
            eval order (recording ct) l σ = Ok (ra, σ1) ∧
            eval order (recording ct) r σ1 = Ok (rb, σ2)
        | RightToLeft =>
            eval order (recording ct) r σ = Ok (rb, σ1) ∧
            eval order (recording ct) l σ1 = Ok (ra, σ2)
        end) ∧
       snd σ `prefix_of` snd σ1 ∧ snd σ1 `prefix_of` snd σ2 ∧
       snd σ' = snd σ2 ++ [CBin op ra rb res]) ∧
  (∀ f vs σ res σ',
     eval order (recording ct) (call_t f (Some vs)) σ = Ok (res, σ') →
     ∃ refs σ1,
       list_eval order (recording ct) vs σ = Ok (refs, σ1) ∧
       length refs = length vs ∧
       snd σ' = snd σ1 ++ [CFcall f refs res]) ∧
  (∀ vs1 vs2 σ,
     list_eval order (recording ct) (vs1 ++ vs2) σ =
     '(r1, σ1) ← list_eval order (recording ct) vs1 σ;
     '(r2, σ2) ← list_eval order (recording ct) vs2 σ1;
     Ok (r1 ++ r2, σ2)) ∧
  (∀ st, ∃ tokens ra rb res st',
     tokenize "f(a, b)" = Ok tokens ∧
     treeify tokens = Ok (Some (call_t "f" (Some [var_t "a"; var_t "b"]))) ∧
     eval order (recording ct) (call_t "f" (Some [var_t "a"; var_t "b"]))
       (st, []) =
     Ok (res, (st', [CLoad "a" ra; CLoad "b" rb; CFcall "f" [ra; rb] res]))).
Proof.
  split; [intros *; apply eval_bin_trace|].
  split; [intros *; apply eval_call_trace|].
  split; [intros *; apply list_eval_app|].
  intros st. destruct (eval_f_a_b order ct st) as (ra & rb & res & st' & H).
  eexists _, ra, rb, res, st'.
  split; [exact tokenize_f_a_b|]. split; [exact treeify_f_a_b|exact H].
Qed.

Lemma C8_witness :
  eval LeftToRight (recording sample_contract)
    (bin_t tok_minus (var_t "a") (var_t "b")) (tt, []) =
  Ok (2%N, (tt, [CLoad "a" 5%N; CLoad "b" 3%N; CBin tok_minus 5%N 3%N 2%N])) ∧
  ∃ ra rb σ1 σ2,
    (eval LeftToRight (recording sample_contract) (var_t "a") (tt, [])
       = Ok (ra, σ1) ∧
     eval LeftToRight (recording sample_contract) (var_t "b") σ1
       = Ok (rb, σ2)) ∧
    snd (tt, @nil call) `prefix_of` snd σ1 ∧ snd σ1 `prefix_of` snd σ2 ∧
    [CLoad "a" 5%N; CLoad "b" 3%N; CBin tok_minus 5%N 3%N 2%N] =
      snd σ2 ++ [CBin tok_minus ra rb 2%N].
Proof.
  split; [vm_compute; reflexivity|].
  apply (proj1 (C8_evaluation_order LeftToRight sample_contract)
           tok_minus (var_t "a") (var_t "b") (tt, []) 2%N
           (tt, [CLoad "a" 5%N; CLoad "b" 3%N; CBin tok_minus 5%N 3%N 2%N])).
  vm_compute. reflexivity.
Defined.

(** ** Further properties *)

Lemma grows_refl h : grows 0 h h.
Proof. split; [lia|done]. Qed.

Lemma grows_trans n m k h1 h2 h3 :
  grows n h1 h2 → grows m h2 h3 → n + m ≤ k → grows k h1 h3.
Proof. intros [? ?] [? ?] ?. split; [lia|auto]. Qed.

Lemma store_grows h p c h' :
  store h p c = Ok h' → is_token_kind (token c) = true → grows 0 h h'.
Proof.
  unfold store. intros H Hc. repeat result_step H. split.
  - rewrite length_insert. lia.
  - intros Hk a c' Ha.
    destruct (decide (a = n)) as [->|Hne].
    + rewrite list_lookup_insert_eq in Ha by (by eapply lookup_lt_Some).
      by injection Ha as <-.
    + rewrite list_lookup_insert_ne in Ha by done. by eapply Hk.
Qed.

Lemma deref_kind h p c :
  deref h p = Ok c → heap_kinds h → is_token_kind (token c) = true.
Proof. unfold deref. intros H Hk. repeat result_step H. by eapply Hk. Qed.

Lemma set_token_grows h p k h' :
  set_token h p k = Ok h' → is_token_kind k = true → grows 0 h h'.
Proof.
  unfold set_token. intros H Hk. repeat result_step H.
  by eapply store_grows.
Qed.

Lemma set_value_grows h p v h' : set_value h p v = Ok h' → grows 0 h h'.
Proof.
  unfold set_value. intros H. apply bind_Ok in H as (c & Hd & H).
  split.
  - unfold store in H. repeat result_step H. rewrite length_insert. lia.
  - intros Hk. eapply store_grows; [exact H| |done].
    cbn [token]. by eapply deref_kind.
Qed.

Lemma heap_kinds_snoc h c :
  heap_kinds h → is_token_kind (token c) = true → heap_kinds (h ++ [Some c]).
Proof.
  intros Hk Hc a c' Ha.
  destruct (decide (a < length h)) as [Hlt|Hge].
  - rewrite lookup_app_l in Ha by done. by eapply Hk.
  - rewrite lookup_app_r in Ha by lia.
    destruct (a - length h) as [|m]; [|by destruct m].
    cbn in Ha. by injection Ha as <-.
Qed.

Lemma new_token_t_grows h k prev h' fresh :
  new_token_t h k prev = Ok (h', fresh) → is_token_kind k = true →
  grows 1 h h'.
Proof.
  unfold new_token_t. intros H Hk. destruct prev as [a|].
  - apply bind_Ok in H as (c & Hd & H).
    apply bind_Ok in H as (h2 & Hs & H). injection H as <- <-.
    split.
    + unfold store in Hs. repeat result_step Hs.
      rewrite length_insert, length_app. cbn. lia.
    + intros Hh. eapply store_grows; [exact Hs| |by apply heap_kinds_snoc].
      cbn [token]. eapply deref_kind; [exact Hd|by apply heap_kinds_snoc].
  - injection H as <- <-. split.
    + rewrite length_app. cbn. lia.
    + intros Hh. by apply heap_kinds_snoc.
Qed.

Lemma delete_token_t_grows fuel : ∀ h p h',
  delete_token_t fuel h p = Ok h' → grows 0 h h'.
Proof.
  induction fuel as [|fuel IH]; intros h p h' H.
  - destruct p; [done|]. injection H as <-. apply grows_refl.
  - destruct p as [a|]; [|injection H as <-; apply grows_refl].
    cbn [delete_token_t] in H.
    apply bind_Ok in H as (c & Hd & H).
    apply bind_Ok in H as (h1 & Hdel & H).
    apply bind_Ok in H as (c1 & Hd1 & H). injection H as <-.
    apply IH in Hdel as [Hlen Hk]. split.
    + rewrite length_insert. lia.
    + intros Hh b c' Hb.
      destruct (decide (b = a)) as [->|Hne].
      * apply lookup_lt_Some in Hb as Hlt. rewrite length_insert in Hlt.
        by rewrite list_lookup_insert_eq in Hb.
      * rewrite list_lookup_insert_ne in Hb by done. by eapply Hk.
Qed.

Ltac grow :=
  repeat match goal with
    | E : set_token _ _ _ = Ok _ |- _ => apply set_token_grows in E; [|done]
    | E : set_value _ _ _ = Ok _ |- _ => apply set_value_grows in E
    | E : new_token_t _ _ _ = Ok _ |- _ =>
        apply new_token_t_grows in E; [|done]
    | E : delete_token_t _ _ _ = Ok _ |- _ => apply delete_token_t_grows in E
    end;
  cbn [hp] in *; unfold grows in *;
  try solve [intuition (auto; lia)].

Lemma classify_char_grows c p st tk st' :
  classify_char c p st = Ok (tk, st') → grows 0 (hp st) (hp st').
Proof.
  destruct st as [h hd tl pv op fin fnd rt ts]. unfold classify_char.
  intros H. repeat result_step H; grow.
Qed.

Lemma close_token_grows s i tk st st' :
  close_token s i tk st = Ok st' → grows 0 (hp st) (hp st').
Proof.
  destruct st as [h hd tl pv op fin fnd rt ts]. unfold close_token.
  intros H. repeat result_step H; grow.
Qed.

Lemma switch_token_grows i c tk st st' :
  switch_token i c tk st = Ok st' → grows 1 (hp st) (hp st').
Proof.
  destruct st as [h hd tl pv op fin fnd rt ts]. unfold switch_token.
  intros H. destruct tk; repeat result_step H; grow.
Qed.

Lemma tokenize_char_grows s i c p st st' :
  tokenize_char s i c p st = Ok st' → grows 1 (hp st) (hp st').
Proof.
  unfold tokenize_char. intros H.
  repeat result_step H; cbn [hp]; try (split; [lia|done]).
  all: repeat match goal with
    | E : classify_char _ _ _ = Ok _ |- _ => apply classify_char_grows in E
    | E : close_token _ _ _ _ = Ok _ |- _ => apply close_token_grows in E
    | E : switch_token _ _ _ _ = Ok _ |- _ => apply switch_token_grows in E
    end; grow.
Qed.

Lemma tokenize_loop_grows s rest : ∀ p i st st' i',
  tokenize_loop s rest p i st = Ok (st', i') →
  i ≤ i' ≤ i + String.length rest ∧ grows (i' - i) (hp st) (hp st').
Proof.
  induction rest as [|c rest IH]; intros p i st st' i' H;
    cbn [tokenize_loop String.length] in *.
  - injection H as <- <-. split; [lia|]. rewrite Nat.sub_diag.
    apply grows_refl.
  - destruct (decide (c = zero)).
    { injection H as <- <-. split; [lia|]. rewrite Nat.sub_diag.
      apply grows_refl. }
    apply bind_Ok in H as (st1 & Hc & H).
    apply tokenize_char_grows in Hc. apply IH in H as [Hi H].
    split; [lia|].
    eapply grows_trans; [exact Hc|exact H|lia].
Qed.

Lemma tokenize_state_heap s st :
  tokenize_state s = Ok st →
  length (hp st) ≤ String.length s ∧ heap_kinds (hp st).
Proof.
  unfold tokenize_state. intros H.
  apply bind_Ok in H as ([st1 i] & Hl & H).
  apply tokenize_loop_grows in Hl as [Hi [Hlen Hk]].
  cbn [lexer_init hp length] in *.
  assert (heap_kinds (hp st1)) as Hk1 by (by apply Hk).
  destruct (finalized st1).
  - injection H as <-. split; [lia|done].
  - apply bind_Ok in H as (h' & Hset & H). injection H as <-. cbn [hp].
    apply set_value_grows in Hset as [Hlen' Hk']. split; [lia|auto].
Qed.

Lemma chain_kinds h : ∀ fuel p l,
  chain fuel h p = Ok l → heap_kinds h →
  length l ≤ fuel ∧ Forall (λ t, is_token_kind (kind t) = true) l.
Proof.
  induction fuel as [|fuel IH]; intros p l H Hk.
  - destruct p; [done|]. injection H as <-. split; [done|constructor].
  - destruct p as [a|]; [|injection H as <-; split; [cbn; lia|constructor]].
    cbn [chain] in H. apply bind_Ok in H as (c & Hd & H).
    apply bind_Ok in H as (l1 & Hl1 & H). injection H as <-.
    apply IH in Hl1 as [Hlen HF]; [|done]. split; [cbn; lia|].
    constructor; [|done]. cbn [kind]. by eapply deref_kind.
Qed.

(** X1.  Every token of a sequence that [tokenize] returns has the kind of a
    token: whitespace never becomes a token, and no token is left with
    [tok_undef]. *)
Theorem X1_tokenize_token_kinds (s : string) (tokens : list tok) :
  tokenize s = Ok tokens →
  Forall (λ t, kind t ≠ tok_ws ∧ kind t ≠ tok_undef) tokens.
Proof.
  unfold tokenize. intros H. apply bind_Ok in H as (st & Hst & H).
  apply tokenize_state_heap in Hst as [_ Hk].
  apply chain_kinds in H as [_ H]; [|done].
  eapply Forall_impl; [exact H|]. intros t Ht.
  cbn beta in *. revert Ht. destruct (kind t); cbn; intros Ht; split; done.
Qed.

Lemma X1_witness :
  Forall (λ t, kind t ≠ tok_ws ∧ kind t ≠ tok_undef)
    [tk tok_symbol "a"; tk tok_plus "+"; tk tok_symbol "b"].
Proof.
  apply (X1_tokenize_token_kinds " a + b "). vm_compute. reflexivity.
Defined.

(** X2.  A sequence that [tokenize] returns has at most as many tokens as the
    text has characters. *)
Theorem X2_tokenize_length (s : string) (tokens : list tok) :
  tokenize s = Ok tokens → length tokens ≤ String.length s.
Proof.
  unfold tokenize. intros H. apply bind_Ok in H as (st & Hst & H).
  apply tokenize_state_heap in Hst as [Hlen Hk].
  apply chain_kinds in H as [H _]; [|done]. lia.
Qed.

Lemma X2_witness :
  length [tk tok_symbol "a"; tk tok_plus "+"; tk tok_symbol "b"] ≤
    String.length "a+b".
Proof.
  apply (X2_tokenize_length "a+b"). vm_compute. reflexivity.
Defined.

(** No test of [determine_token] on a given character fires for a
    character of the class that [Hc] states. *)
Ltac skip_char_tests Hc :=
  repeat match goal with
    | |- context [decide (?c = ?x)] =>
        rewrite (decide_False (P := c = x)) by (intros ->; by vm_compute in Hc)
    | |- context [decide (?c = ?x ∨ ?c = ?y ∨ ?c = ?z)] =>
        rewrite (decide_False (P := c = x ∨ c = y ∨ c = z))
          by (intros [->|[->| ->]]; by vm_compute in Hc)
    | |- context [decide (tok_undef ≠ tok_undef)] =>
        rewrite (decide_False (P := tok_undef ≠ tok_undef)) by (by intros [])
    end.

Lemma letter_not_digit c : is_letter c = true → is_digit c = false.
Proof.
  unfold is_letter, is_digit, char_between. intros H.
  destruct (decide (c = "_"%char)) as [Heq|Hne]; [by subst c|].
  rewrite (bool_decide_eq_false_2 _ Hne), orb_false_r in H. change (N_of_ascii "0") with 48%N.
  change (N_of_ascii "9") with 57%N. change (N_of_ascii "a") with 97%N in H.
  change (N_of_ascii "z") with 122%N in H.
  change (N_of_ascii "A") with 65%N in H.
  change (N_of_ascii "Z") with 90%N in H.
  apply andb_false_iff. rewrite !N.leb_gt.
  apply orb_prop in H as [H|H]; apply andb_prop in H as [H1 H2];
    apply N.leb_le in H1, H2; lia.
Qed.

Lemma determine_token_letter c p cur :
  is_letter c = true → cur ≠ tok_number →
  determine_token c p tok_undef cur = tok_symbol.
Proof.
  intros Hc Hcur. unfold determine_token. skip_char_tests Hc.
  rewrite !(decide_False (P := _ ∧ _ ∧ cur = tok_number)) by (by intros (_ & _ & ?)).
  fold (is_digit c). rewrite (letter_not_digit c Hc).
  rewrite (bool_decide_eq_false_2 _ Hcur). cbn [andb].
  fold (is_letter c). by rewrite Hc.
Qed.

Lemma determine_token_digit c p cur :
  is_digit c = true →
  determine_token c p tok_undef cur =
    if decide (cur = tok_symbol) then tok_symbol else tok_number.
Proof.
  intros Hc. unfold determine_token. skip_char_tests Hc.
  rewrite (decide_False (P := c = "x"%char ∧ _))
    by (intros [-> _]; by vm_compute in Hc).
  rewrite (decide_False (P := c = "b"%char ∧ _))
    by (intros [-> _]; by vm_compute in Hc).
  fold (is_digit c). by rewrite Hc.
Qed.

Lemma letter_not_zero c : is_letter c = true → c ≠ zero.
Proof. intros Hc ->. by vm_compute in Hc. Qed.

Lemma digit_not_zero c : is_digit c = true → c ≠ zero.
Proof. intros Hc ->. by vm_compute in Hc. Qed.

Lemma tokenize_char_first s c k :
  k = tok_symbol ∨ k = tok_number →
  determine_token c zero tok_undef tok_undef = k →
  tokenize_char s 0 c zero lexer_init = Ok (in_word k).
Proof.
  intros Hk Hc. unfold tokenize_char, lexer_init, classify_char.
  cbn. rewrite Hc. by destruct Hk as [-> | ->].
Qed.

Lemma tokenize_char_in_word s i c p k :
  k = tok_symbol ∨ k = tok_number →
  determine_token c p tok_undef k = k →
  tokenize_char s i c p (in_word k) = Ok (in_word k).
Proof.
  intros Hk Hc. unfold tokenize_char, in_word, classify_char.
  cbn. rewrite Hc. by destruct Hk as [-> | ->].
Qed.

Lemma tokenize_loop_in_word s k (f : ascii → bool) rest : ∀ p i,
  k = tok_symbol ∨ k = tok_number →
  (∀ c p, f c = true → c ≠ zero ∧ determine_token c p tok_undef k = k) →
  all_chars f rest = true →
  tokenize_loop s rest p i (in_word k) = Ok (in_word k, i + String.length rest).
Proof.
  induction rest as [|c rest IH]; intros p i Hk Hf Hall.
  - cbn. do 2 f_equal. lia.
  - cbn [all_chars] in Hall. apply andb_prop in Hall as [Hc Hall].
    destruct (Hf c p Hc) as [Hz Hd].
    cbn [tokenize_loop String.length]. rewrite decide_False by done.
    rewrite tokenize_char_in_word by done. cbn [mbind result_bind].
    rewrite IH by done. do 2 f_equal. lia.
Qed.

Lemma substring_all s : substring 0 (String.length s) s = s.
Proof. induction s as [|c s IH]; cbn; [done|by rewrite IH]. Qed.

(** A word of one kind is one token, whose text is the word. *)
Lemma tokenize_word k (f : ascii → bool) c rest :
  k = tok_symbol ∨ k = tok_number →
  c ≠ zero → determine_token c zero tok_undef tok_undef = k →
  (∀ c p, f c = true → c ≠ zero ∧ determine_token c p tok_undef k = k) →
  all_chars f rest = true →
  tokenize (String c rest) = Ok [tk k (String c rest)].
Proof.
  intros Hk Hz Hc Hf Hall. unfold tokenize, tokenize_state.
  cbn [tokenize_loop]. rewrite decide_False by done.
  rewrite (tokenize_char_first _ _ k) by done. cbn [mbind result_bind].
  rewrite (tokenize_loop_in_word _ k f) by done.
  cbn [mbind result_bind in_word finalized hp tail head token_start].
  unfold strndup_span. rewrite Nat.sub_0_r.
  change (1 + String.length rest) with (String.length (String c rest)).
  rewrite substring_all. reflexivity.
Qed.

(** X3.  An identifier (a letter or underscore, then letters, digits and
    underscores) is tokenized as the one symbol whose text is the
    identifier, and [treeify] makes of it the variable of that name. *)
Theorem X3_tokenize_identifier (c : ascii) (rest : string) :
  is_letter c = true →
  all_chars (λ x, is_letter x || is_digit x) rest = true →
  tokenize (String c rest) = Ok [tk tok_symbol (String c rest)] ∧
  treeify [tk tok_symbol (String c rest)] = Ok (Some (var_t (String c rest))).
Proof.
  intros Hc Hrest. split; [|reflexivity].
  apply (tokenize_word tok_symbol (λ x, is_letter x || is_digit x));
    [by left|by apply letter_not_zero|by apply determine_token_letter|
    |done].
  intros x p Hx. apply orb_prop in Hx as [Hx|Hx].
  - split; [by apply letter_not_zero|by apply determine_token_letter].
  - split; [by apply digit_not_zero|].
    rewrite determine_token_digit by done. by rewrite decide_True.
Qed.

Lemma X3_witness :
  tokenize "a0x_1" = Ok [tk tok_symbol "a0x_1"] ∧
  treeify [tk tok_symbol "a0x_1"] = Ok (Some (var_t "a0x_1")).
Proof.
  apply (X3_tokenize_identifier "a" "0x_1"); vm_compute; reflexivity.
Defined.

(** X4.  A run of decimal digits is tokenized as the one number whose text is
    the run, and [treeify] makes of it the numeric literal without
    restriction. *)
Theorem X4_tokenize_number (c : ascii) (rest : string) :
  is_digit c = true → all_chars is_digit rest = true →
  tokenize (String c rest) = Ok [tk tok_number (String c rest)] ∧
  treeify [tk tok_number (String c rest)] =
    Ok (Some (value_t tok_number tok_undef (String c rest))).
Proof.
  intros Hc Hrest. split; [|reflexivity].
  apply (tokenize_word tok_number is_digit);
    [by right|by apply digit_not_zero| | |done].
  - rewrite determine_token_digit by done. by rewrite decide_False.
  - intros x p Hx. split; [by apply digit_not_zero|].
    rewrite determine_token_digit by done. by rewrite decide_False.
Qed.

Lemma X4_witness :
  tokenize "2026" = Ok [tk tok_number "2026"] ∧
  treeify [tk tok_number "2026"] =
    Ok (Some (value_t tok_number tok_undef "2026")).
Proof.
  apply (X4_tokenize_number "2" "026"); vm_compute; reflexivity.
Defined.

Lemma tokenize_loop_in_string s rest : ∀ p i,
  all_chars (λ c, bool_decide (c ≠ zero) && bool_decide (c ≠ quote)) rest
    = true →
  tokenize_loop s rest p i (in_string false) =
    Ok (in_string false, i + String.length rest).
Proof.
  induction rest as [|c rest IH]; intros p i Hall.
  - cbn. do 2 f_equal. lia.
  - cbn [all_chars] in Hall. apply andb_prop in Hall as [Hc Hall].
    apply andb_prop in Hc as [Hz Hq].
    apply bool_decide_eq_true in Hz, Hq.
    cbn [tokenize_loop String.length]. rewrite decide_False by done.
    unfold tokenize_char at 1. cbn [finding in_string negb].
    rewrite decide_True by done. rewrite decide_True by done.
    cbn [mbind result_bind]. rewrite IH by done. do 2 f_equal. lia.
Qed.

Lemma tokenize_loop_closing s body : ∀ p i,
  all_chars (λ c, bool_decide (c ≠ zero) && bool_decide (c ≠ quote)) body
    = true →
  tokenize_loop s (body +:+ String quote EmptyString) p i (in_string false) =
    Ok (in_string true, i + String.length body + 1).
Proof.
  induction body as [|c body IH]; intros p i Hall.
  - change (EmptyString +:+ String quote EmptyString)
      with (String quote EmptyString).
    cbn [tokenize_loop]. rewrite decide_False by done.
    cbn [String.length]. replace (i + 0 + 1) with (S i) by lia. reflexivity.
  - cbn [all_chars] in Hall. apply andb_prop in Hall as [Hc Hall].
    apply andb_prop in Hc as [Hz Hq].
    apply bool_decide_eq_true in Hz, Hq.
    change (String c body +:+ String quote EmptyString)
      with (String c (body +:+ String quote EmptyString)).
    cbn [tokenize_loop String.length].
    rewrite decide_False by done.
    unfold tokenize_char at 1. cbn [finding in_string negb].
    rewrite decide_True by done. rewrite decide_True by done.
    cbn [mbind result_bind]. rewrite IH by done. do 2 f_equal. lia.
Qed.

Lemma tokenize_char_quote s :
  tokenize_char s 0 quote zero lexer_init = Ok (in_string false).
Proof. reflexivity. Qed.

Lemma substring_prefix s t :
  substring 0 (String.length s) (s +:+ t) = s.
Proof.
  induction s as [|c s IH].
  - by destruct t.
  - change (String c s +:+ t) with (String c (s +:+ t)).
    cbn [String.length substring]. by rewrite IH.
Qed.

Lemma length_append s t :
  String.length (s +:+ t) = String.length s + String.length t.
Proof.
  induction s as [|c s IH]; [done|].
  change (String c s +:+ t) with (String c (s +:+ t)).
  cbn [String.length]. by rewrite IH.
Qed.

Lemma treeify_string v :
  String.length v ≠ 0 →
  treeify [tk tok_string v] =
    Ok (Some (value_t tok_string tok_undef
                (substring 1 (String.length v - 2) v))).
Proof.
  intros Hv. destruct v as [|c v]; [done|]. reflexivity.
Qed.

(** X5.  A string literal, whatever its body holds other than a double quote, is
    one string token whose text includes both quotes, and the [value_t]
    that [treeify] builds from it holds the body without the quotes. *)
Theorem X5_tokenize_string_literal (body : string) :
  all_chars (λ c, bool_decide (c ≠ zero) && bool_decide (c ≠ quote)) body
    = true →
  let lit := String quote (body +:+ String quote EmptyString) in
  tokenize lit = Ok [tk tok_string lit] ∧
  treeify [tk tok_string lit] = Ok (Some (value_t tok_string tok_undef body)).
Proof.
  intros Hbody lit. split.
  - unfold tokenize, tokenize_state, lit.
    cbn [tokenize_loop]. rewrite decide_False by done.
    rewrite tokenize_char_quote. cbn [mbind result_bind].
    rewrite tokenize_loop_closing by done.
    cbn [mbind result_bind in_string finalized hp tail head token_start].
    unfold strndup_span. rewrite Nat.sub_0_r.
    replace (1 + String.length body + 1)
      with (String.length (String quote (body +:+ String quote EmptyString)))
      by (cbn [String.length]; rewrite length_append; cbn; lia).
    rewrite substring_all. reflexivity.
  - rewrite treeify_string by done. do 3 f_equal. unfold lit.
    cbn [String.length]. rewrite length_append. cbn [String.length].
    replace (S (String.length body + 1) - 2) with (String.length body) by lia.
    cbn [substring]. apply substring_prefix.
Qed.

Lemma X5_witness :
  tokenize (String quote ("a|b (" +:+ String quote EmptyString)) =
    Ok [tk tok_string (String quote ("a|b (" +:+ String quote EmptyString))] ∧
  treeify [tk tok_string (String quote ("a|b (" +:+ String quote EmptyString))]
    = Ok (Some (value_t tok_string tok_undef "a|b (")).
Proof.
  apply (X5_tokenize_string_literal "a|b ("). vm_compute. reflexivity.
Defined.

(** X6.  A string literal without its closing quote is accepted: it is one
    string token that runs to the end of the text, and the [value_t] built
    from it has lost the last character of the body. *)
Theorem X6_tokenize_unterminated_string (body : string) :
  all_chars (λ c, bool_decide (c ≠ zero) && bool_decide (c ≠ quote)) body
    = true →
  tokenize (String quote body) = Ok [tk tok_string (String quote body)] ∧
  treeify [tk tok_string (String quote body)] =
    Ok (Some (value_t tok_string tok_undef
                (substring 0 (String.length body - 1) body))).
Proof.
  intros Hbody. split.
  - unfold tokenize, tokenize_state.
    cbn [tokenize_loop]. rewrite decide_False by done.
    rewrite tokenize_char_quote. cbn [mbind result_bind].
    rewrite tokenize_loop_in_string by done.
    cbn [mbind result_bind in_string finalized hp tail head token_start negb].
    unfold strndup_span. rewrite Nat.sub_0_r.
    change (1 + String.length body)
      with (String.length (String quote body)).
    rewrite substring_all. reflexivity.
  - rewrite treeify_string by done. cbn [String.length].
    replace (S (String.length body) - 2) with (String.length body - 1) by lia.
    reflexivity.
Qed.

Lemma X6_witness :
  tokenize (String quote "abc") = Ok [tk tok_string (String quote "abc")] ∧
  treeify [tk tok_string (String quote "abc")] =
    Ok (Some (value_t tok_string tok_undef
                (substring 0 (String.length "abc" - 1) "abc"))).
Proof.
  apply (X6_tokenize_unterminated_string "abc"). vm_compute. reflexivity.
Defined.

Lemma seg_above h T : ∀ p q a,
  seg h p T q → (∀ b, p = Some b → a < b) → Forall (λ x, a < fst x) T.
Proof.
  induction T as [|[a' d] T IH]; intros p q a; simpl; [constructor|].
  intros (-> & nx & Ha & Hlt & Hseg) Hp. specialize (Hp a' eq_refl).
  constructor; [done|]. eapply IH; [exact Hseg|].
  intros b Hb. specialize (Hlt b Hb). lia.
Qed.

Lemma seg_length h T : ∀ p t a,
  seg h p T (Some t) → p = Some a → length T + a ≤ t.
Proof.
  induction T as [|[a' d] T IH]; intros p t a; simpl.
  - intros -> [= ->]. lia.
  - intros (-> & nx & Ha & Hlt & Hseg) [= <-].
    destruct nx as [b|].
    + specialize (IH _ _ b Hseg eq_refl). specialize (Hlt b eq_refl). lia.
    + by destruct T as [|[? ?] T]; simpl in Hseg; [|destruct Hseg].
Qed.

Lemma seg_snoc_end h p T a d :
  seg h p T (Some a) → h !! a = Some (cell_of d None) →
  seg h p (T ++ [(a, d)]) None.
Proof.
  revert p. induction T as [|[a' d'] T IH]; intros p; simpl.
  - intros -> Ha. split; [done|]. exists None. by repeat split.
  - intros (-> & nx & Ha' & Hlt' & Hseg) Ha. split; [done|].
    exists nx. eauto.
Qed.

(** What [delete p] does to a chain that ends in a null [next]: every object
    of the chain is released, and nothing else changes. *)
Lemma delete_token_t_seg h T : ∀ p fuel,
  seg h p T None → length T ≤ fuel →
  ∃ h', delete_token_t fuel h p = Ok h' ∧ length h' = length h ∧
        ∀ a, h' !! a = if decide (a ∈ T.*1) then Some None else h !! a.
Proof.
  induction T as [|[a d] T IH]; intros p fuel; simpl.
  - intros -> _. exists h. split; [by destruct fuel|]. split; [done|].
    intros a. cbn. by destruct (decide (a ∈ [])) as [Hin%elem_of_nil|].
  - intros (-> & nx & Ha & Hlt & Hseg) Hf.
    destruct fuel as [|fuel]; [lia|].
    destruct (IH nx fuel Hseg ltac:(lia)) as (h1 & Hdel & Hlen & Hlook).
    pose proof (seg_above _ _ _ _ a Hseg Hlt) as Hab.
    assert (a ∉ T.*1) as Hnot.
    { intros Hin. apply list_elem_of_fmap in Hin as ([a' d'] & -> & Hin).
      rewrite Forall_forall in Hab. specialize (Hab _ Hin). cbn in Hab. lia. }
    exists (<[a := None]> h1). cbn [delete_token_t].
    rewrite (deref_live _ _ _ Ha). cbn [mbind result_bind next].
    rewrite Hdel. cbn [mbind result_bind].
    assert (h1 !! a = Some (cell_of d nx)) as Ha1.
    { rewrite Hlook. by rewrite decide_False. }
    rewrite (deref_live _ _ _ Ha1). cbn [mbind result_bind].
    split; [done|]. split; [by rewrite length_insert|].
    intros b. destruct (decide (b = a)) as [->|Hne].
    + rewrite list_lookup_insert_eq
        by (rewrite Hlen; by eapply lookup_lt_Some).
      rewrite decide_True; [done|]. apply elem_of_cons. by left.
    + rewrite list_lookup_insert_ne by done. rewrite Hlook.
      destruct (decide (b ∈ T.*1)) as [Hin|Hnin].
      * rewrite decide_True; [done|]. apply elem_of_cons. by right.
      * rewrite decide_False; [done|]. rewrite elem_of_cons. by intros [?|?].
Qed.

(** X7.  The destructor, called on the first token of a chain that ends in a
    null [next], releases every token of the chain and changes nothing
    else. *)
Theorem X7_delete_token_t_frees_chain
    (h : heap) (p : ptr) (T : list (nat * tok)) (fuel : nat) :
  seg h p T None → length T ≤ fuel →
  ∃ h', delete_token_t fuel h p = Ok h' ∧ length h' = length h ∧
        ∀ a, h' !! a = if decide (a ∈ T.*1) then Some None else h !! a.
Proof. apply delete_token_t_seg. Qed.

Lemma X7_witness :
  ∃ h', delete_token_t 2
          [Some (mk_token_t tok_symbol (Some "a") (Some 2)); None;
           Some (mk_token_t tok_plus (Some "+") None)] (Some 0) = Ok h' ∧
        length h' = 3 ∧
        ∀ a, h' !! a =
             if decide (a ∈ [0; 2]) then Some None
             else [Some (mk_token_t tok_symbol (Some "a") (Some 2)); None;
                   Some (mk_token_t tok_plus (Some "+") None)] !! a.
Proof.
  apply (X7_delete_token_t_frees_chain
           [Some (mk_token_t tok_symbol (Some "a") (Some 2)); None;
            Some (mk_token_t tok_plus (Some "+") None)] (Some 0)
           [(0, tk tok_symbol "a"); (2, tk tok_plus "+")] 2).
  - cbn. split; [done|]. exists (Some 2). split; [done|].
    split; [intros b [= <-]; lia|]. split; [done|].
    exists None. by repeat split.
  - cbn. lia.
Defined.

Lemma linked_update h hd x c c' :
  h !! x = Some (Some c) → next c' = next c →
  linked h hd → linked (<[x := Some c']> h) hd.
Proof.
  intros Hx Hn Hl a ca Ha.
  assert (x < length h) as Hlt by (by eapply lookup_lt_Some).
  assert (∃ ca0, h !! a = Some (Some ca0)) as (ca0 & Ha0).
  { destruct (decide (a = x)) as [->|Hne]; [eauto|].
    rewrite list_lookup_insert_ne in Ha by done. eauto. }
  destruct (Hl _ _ Ha0) as [->|(b & cb & Hb & Hcb & Hnb)]; [by left|].
  right. destruct (decide (b = x)) as [->|Hne].
  - exists x, c'. rewrite list_lookup_insert_eq by done.
    rewrite Hx in Hcb. injection Hcb as <-. by rewrite Hn.
  - exists b, cb. by rewrite list_lookup_insert_ne.
Qed.

Lemma linked_set_token h p k h' hd :
  set_token h p k = Ok h' → linked h hd → linked h' hd.
Proof.
  unfold set_token, store. intros H Hl.
  apply bind_Ok in H as (c & Hd & H).
  apply deref_Ok in Hd as (x & -> & Hx). rewrite Hx in H.
  injection H as <-. by eapply linked_update.
Qed.

Lemma linked_set_value h p v h' hd :
  set_value h p v = Ok h' → linked h hd → linked h' hd.
Proof.
  unfold set_value, store. intros H Hl.
  apply bind_Ok in H as (c & Hd & H).
  apply deref_Ok in Hd as (x & -> & Hx). rewrite Hx in H.
  injection H as <-. by eapply linked_update.
Qed.

Lemma linked_delete h hd pv t ct :
  h !! t = Some (Some ct) → loose_end h (Some t) → linked h hd →
  linked (<[t := None]> h) (if decide (hd = Some t) then pv else hd).
Proof.
  intros Ht Hloose Hl a c Ha.
  destruct (decide (a = t)) as [->|Hne].
  { apply lookup_lt_Some in Ht.
    by rewrite list_lookup_insert_eq in Ha. }
  rewrite list_lookup_insert_ne in Ha by done.
  destruct (Hl _ _ Ha) as [->|(b & cb & Hb & Hcb & Hnb)].
  - left. rewrite decide_False; [done|]. by intros [= ->].
  - right. destruct (decide (b = t)) as [->|Hbt].
    + rewrite Ht in Hcb. injection Hcb as <-.
      by destruct (Hloose t ct a c eq_refl Ht Hnb).
    + exists b, cb. by rewrite list_lookup_insert_ne.
Qed.

Lemma linked_append h k tl h' fresh hd :
  new_token_t h k tl = Ok (h', fresh) →
  (tl = None → hd = None) → (∀ t, tl = Some t → t < length h) →
  loose_end h tl → linked h hd →
  linked h' (if hd is None then fresh else hd).
Proof.
  unfold new_token_t. intros H Hnone Hin Hloose Hl.
  destruct tl as [t|].
  - apply bind_Ok in H as (ct & Hd & H).
    apply deref_Ok in Hd as (t' & [= <-] & Ht1).
    unfold store in H. rewrite Ht1 in H. cbn [mbind result_bind] in H.
    injection H as <- <-.
    assert (t < length h) as Hlt by (by apply Hin).
    rewrite lookup_app_l in Ht1 by done.
    intros a c Ha.
    destruct (decide (a = length h)) as [->|Hna].
    { right. exists t, (mk_token_t (token ct) (value ct) (Some (length h))).
      split; [done|]. split; [|done].
      rewrite list_lookup_insert_eq; [done|]. rewrite length_app. lia. }
    assert (a < length h) as Hla.
    { apply lookup_lt_Some in Ha. rewrite length_insert, length_app in Ha.
      cbn in Ha. lia. }
    assert (∃ c0, h !! a = Some (Some c0)) as (c0 & Ha0).
    { destruct (decide (a = t)) as [->|Hne]; [eauto|].
      rewrite list_lookup_insert_ne, lookup_app_l in Ha by done. eauto. }
    destruct (Hl _ _ Ha0) as [->|(b & cb & Hb & Hcb & Hnb)]; [by left|].
    right. destruct (decide (b = t)) as [->|Hbt].
    + rewrite Ht1 in Hcb. injection Hcb as <-.
      by destruct (Hloose t ct a c0 eq_refl Ht1 Hnb).
    + exists b, cb. split; [done|]. split; [|done].
      rewrite list_lookup_insert_ne by done.
      rewrite lookup_app_l; [done|]. lia.
  - injection H as <- <-. rewrite (Hnone eq_refl).
    intros a c Ha.
    destruct (decide (a = length h)) as [->|Hna]; [by left|].
    assert (a < length h) as Hla.
    { apply lookup_lt_Some in Ha. rewrite length_app in Ha. cbn in Ha. lia. }
    rewrite lookup_app_l in Ha by done.
    destruct (Hl _ _ Ha) as [Hhd|(b & cb & Hb & Hcb & Hnb)].
    { by rewrite (Hnone eq_refl) in Hhd. }
    right. exists b, cb. split; [done|]. split; [|done].
    rewrite lookup_app_l; [done|]. lia.
Qed.

(** What the chain invariant says of the two ends of the chain. *)
Lemma lex_core_ends clean Q i st :
  lex_core clean Q i st →
  (tail st = None → head st = None) ∧
  (∀ t, tail st = Some t → t < length (hp st)) ∧
  loose_end (hp st) (tail st).
Proof.
  intros (T & Hseg & _ & _ & _ & Htl). repeat split.
  - intros Hn. rewrite Hn in *. subst T. exact Hseg.
  - intros t Ht. rewrite Ht in Htl. destruct Htl as (d & nx & Hc & _).
    by eapply lookup_lt_Some.
  - intros t ct a c Ht Hct Hn Ha. rewrite Ht in Htl.
    destruct Htl as (d & nx & Hc & Hnx & _).
    rewrite Hct in Hc. injection Hc as ->. cbn [next] in Hn. subst nx.
    destruct Hnx as [|(b & [= <-] & _ & Hfree)]; [done|].
    by rewrite Hfree in Ha.
Qed.

(** A [delete tail] that returns has released the one object at [tail]. *)
Lemma delete_tail_Ok clean Q i st t ct h' :
  lex_core clean Q i st → tail st = Some t → hp st !! t = Some (Some ct) →
  delete_token_t (length (hp st)) (hp st) (Some t) = Ok h' →
  next ct = None ∧ h' = <[t := None]> (hp st).
Proof.
  intros Hinv Htl Ht H.
  destruct (lex_core_tail _ _ _ _ _ _ Hinv Htl Ht)
    as [_ [Hn|(b & Hn & _ & Hfree)]].
  - split; [done|]. rewrite (delete_token_t_last _ _ _ Ht Hn) in H.
    by injection H as <-.
  - by eapply delete_token_t_dangling in H.
Qed.

(** After [delete tail] the object at [prev] is the end of the chain, with
    a [next] that points to the released object. *)
Lemma delete_tail_ends clean Q i st t ct :
  lex_core clean Q i st → tail st = Some t → hp st !! t = Some (Some ct) →
  next ct = None → token ct = tok_consumable →
  let h' := <[t := None]> (hp st) in
  let hd' := if decide (head st = Some t) then prev st else head st in
  (prev st = None → hd' = None) ∧
  (∀ a, prev st = Some a → a < length h') ∧
  loose_end h' (prev st).
Proof.
  intros (T & Hseg & _ & _ & _ & Htl) Ht Hct Hn Hk h' hd'.
  rewrite Ht in Htl, Hseg. destruct Htl as (d & nx & Hc & _ & Hprev & _).
  rewrite Hct in Hc. injection Hc as ->. cbn [next token] in *. subst nx.
  specialize (Hprev eq_refl ltac:(unfold open_kind; auto)).
  induction T as [|[a0 d0] T0 _] using rev_ind.
  - cbn in Hprev, Hseg. subst hd'. rewrite Hseg, Hprev.
    rewrite decide_True by done. repeat split; done.
  - rewrite last_addr_snoc in Hprev.
    apply seg_snoc_inv in Hseg as (Hseg & Ha0 & Hlt).
    specialize (Hlt t eq_refl). rewrite Hprev. repeat split; [done| |].
    + intros a [= <-]. subst h'. rewrite length_insert.
      by eapply lookup_lt_Some.
    + intros x cx a c [= <-] Hx Hnx Ha. subst h'.
      rewrite list_lookup_insert_ne in Hx by lia.
      rewrite Ha0 in Hx. injection Hx as <-. cbn [next] in Hnx.
      injection Hnx as <-.
      rewrite list_lookup_insert_eq in Ha; [done|].
      by eapply lookup_lt_Some.
Qed.

Lemma classify_char_linked c p st tk st' :
  classify_char c p st = Ok (tk, st') →
  linked (hp st) (head st) → linked (hp st') (head st').
Proof.
  destruct st as [h hd tl pv op fin fnd rt ts]. unfold classify_char.
  intros H Hl. repeat result_step H; cbn [hp head] in *; try done;
    by eapply linked_set_token.
Qed.

Lemma close_token_linked clean Q s i tk st st' :
  lex_core clean Q i st → close_token s i tk st = Ok st' →
  linked (hp st) (head st) → linked (hp st') (head st').
Proof.
  intros Hinv H Hl. pose proof (lex_core_ends _ _ _ _ Hinv) as (_ & _ & Hloose).
  destruct st as [h hd tl pv op fin fnd rt ts]. unfold close_token in H.
  cbn [hp head tail prev] in *.
  apply bind_Ok in H as (pending & Hp & H).
  destruct pending.
  - destruct (is_prefix_marker tk); [|by injection H as <-].
    apply bind_Ok in H as (h' & Hdel & H). injection H as <-. cbn [hp head].
    destruct tl as [t|]; [|done].
    apply bind_Ok in Hp as (ct & Hd & _).
    apply deref_Ok in Hd as (t' & [= <-] & Ht).
    destruct (delete_tail_Ok _ _ _ _ _ _ _ Hinv eq_refl Ht Hdel) as [_ ->].
    replace (if decide (hd = Some t) then pv else hd)
      with (if decide (hd = Some t) then pv else hd) by done.
    by eapply linked_delete.
  - destruct (negb fin); [|by injection H as <-].
    apply bind_Ok in H as (h' & Hset & H). injection H as <-. cbn [hp head].
    by eapply linked_set_value.
Qed.

Lemma switch_token_linked clean Q i c tk st st' :
  lex_core clean Q i st → switch_token i c tk st = Ok st' →
  linked (hp st) (head st) → linked (hp st') (head st').
Proof.
  intros Hinv H Hl.
  pose proof (lex_core_ends _ _ _ _ Hinv) as (Hnone & Hin & Hloose).
  assert (Hopen : ∀ fnd',
    ('(h, fresh) ← new_token_t (hp st) tk (tail st);
     Ok (mk_lexer h (if head st is None then fresh else head st) fresh
           (tail st) true false fnd' (restrict_type st) i)) = Ok st' →
    linked (hp st') (head st')).
  { intros fnd' H'. clear H.
    apply bind_Ok in H' as ([h1 fresh] & E & H'). injection H' as <-.
    cbn [hp head]. by eapply linked_append. }
  assert (Hstruct :
    (t ← deref (hp st) (tail st);
     '(h, head, tail) ←
       (if decide (token t = tok_consumable) then
          h' ← delete_token_t (length (hp st)) (hp st) (tail st);
          Ok (h', (if decide (head st = tail st) then prev st else head st),
              prev st)
        else Ok (hp st, head st, tail st));
     '(h, fresh) ← new_token_t h tk tail;
     h ← set_value h fresh (String c EmptyString);
     Ok (mk_lexer h (if head is None then fresh else head) fresh (prev st)
           (open st) (finalized st) (finding st) (restrict_type st)
           (token_start st))) = Ok st' →
    linked (hp st') (head st')).
  { intros H'. clear H Hopen.
    apply bind_Ok in H' as (ct & Hd & H').
    apply deref_Ok in Hd as (t & Htl & Ht).
    apply bind_Ok in H' as ([[h0 hd0] tl0] & Hdel & H').
    apply bind_Ok in H' as ([h1 fresh] & Hnew & H').
    apply bind_Ok in H' as (h2 & Hset & H'). injection H' as <-.
    cbn [hp head]. eapply linked_set_value; [exact Hset|].
    destruct (decide (token ct = tok_consumable)) as [Hk|Hk].
    - apply bind_Ok in Hdel as (h' & Hdel & E). injection E as <- <- <-.
      rewrite Htl in Hdel.
      destruct (delete_tail_Ok _ _ _ _ _ _ _ Hinv Htl Ht Hdel) as [Hn ->].
      destruct (delete_tail_ends _ _ _ _ _ _ Hinv Htl Ht Hn Hk)
        as (Hnone' & Hin' & Hloose').
      rewrite Htl in *.
      eapply linked_append; [exact Hnew|done|done|done|].
      eapply linked_delete; [exact Ht|done|done].
    - injection Hdel as <- <- <-. by eapply linked_append. }
  destruct st as [h hd tl pv op fin fnd rt ts].
  cbn [hp head tail prev open finalized finding restrict_type token_start]
    in *.
  unfold switch_token in H.
  destruct tk; try done;
    first [ by eapply Hopen | by apply Hstruct | idtac ].
  by injection H as <-.
Qed.

Lemma tokenize_char_linked s i c p st st' :
  lex_steady False False i st → i ≤ String.length s →
  tokenize_char s i c p st = Ok st' →
  linked (hp st) (head st) → linked (hp st') (head st').
Proof.
  intros Hinv Hi H Hl. unfold tokenize_char in H.
  destruct (decide (finding st ≠ zero)).
  { by destruct (decide (c ≠ finding st)); injection H as <-. }
  apply bind_Ok in H as ([tk st1] & Hc & H).
  pose proof (classify_char_linked _ _ _ _ _ Hc Hl) as Hl1.
  apply (classify_char_steady False i) in Hc as [Hinv1 _]; [|done].
  destruct (open st1); [by injection H as <-|].
  apply bind_Ok in H as (st2 & Hcl & H).
  pose proof (close_token_linked _ _ _ _ _ _ _ Hinv1 Hcl Hl1) as Hl2.
  eapply (close_token_ready False) in Hcl;
    [|exact Hinv1|by intros [? _]|done].
  by eapply switch_token_linked.
Qed.

Lemma tokenize_loop_linked s rest : ∀ p i st st' i',
  lex_steady False False i st →
  i + String.length rest = String.length s →
  tokenize_loop s rest p i st = Ok (st', i') →
  linked (hp st) (head st) → linked (hp st') (head st').
Proof.
  induction rest as [|c rest IH]; intros p i st st' i' Hinv Hlen H Hl;
    cbn [tokenize_loop String.length] in *.
  - by injection H as <- <-.
  - destruct (decide (c = zero)); [by injection H as <- <-|].
    apply bind_Ok in H as (st1 & Hc & H).
    assert (i ≤ String.length s) as Hi by lia.
    pose proof (tokenize_char_linked _ _ _ _ _ _ Hinv Hi Hc Hl) as Hl1.
    apply (tokenize_char_steady False) in Hc; [|done|done|lia].
    eapply IH; [exact Hc|lia|exact H|done].
Qed.

Lemma tokenize_state_linked s st :
  tokenize_state s = Ok st → linked (hp st) (head st).
Proof.
  unfold tokenize_state. intros H.
  apply bind_Ok in H as ([st1 i] & Hloop & H).
  eapply tokenize_loop_linked in Hloop as Hl;
    [|apply lex_steady_init|done|by intros ? ? ?].
  destruct (finalized st1); [by injection H as <-|].
  apply bind_Ok in H as (h' & Hset & H). injection H as <-. cbn [hp head].
  by eapply linked_set_value.
Qed.

Lemma seg_head_in h T : ∀ p q a,
  seg h p T q → p = Some a → a ∈ T.*1 ∨ q = Some a.
Proof.
  destruct T as [|[a0 d0] T]; intros p q a; simpl.
  - intros -> ->. by right.
  - intros (-> & _) [= <-]. left. apply elem_of_cons. by left.
Qed.

Lemma seg_next h T : ∀ p q b cb a,
  seg h p T q → b ∈ T.*1 → h !! b = Some (Some cb) → next cb = Some a →
  a ∈ T.*1 ∨ q = Some a.
Proof.
  induction T as [|[a0 d0] T IH]; intros p q b cb a; simpl.
  - by intros _ Hin%elem_of_nil.
  - intros (-> & nx & Ha0 & Hlt & Hseg) Hin Hb Hn.
    apply elem_of_cons in Hin as [->|Hin].
    + rewrite Ha0 in Hb. injection Hb as <-. cbn [next] in Hn. subst nx.
      destruct (seg_head_in _ _ _ _ a Hseg eq_refl) as [Hin|Hq].
      * left. apply elem_of_cons. by right.
      * by right.
    + destruct (IH _ _ _ _ _ Hseg Hin Hb Hn) as [Hin'|Hq]; [|by right].
      left. apply elem_of_cons. by right.
Qed.

(** No object outside the chain is live. *)
Lemma linked_in_chain h hd tl T :
  seg h hd T tl → loose_end h tl → linked h hd →
  ∀ a c, h !! a = Some (Some c) → a ∈ T.*1 ∨ tl = Some a.
Proof.
  intros Hseg Hloose Hl a. induction a as [a IH] using lt_wf_ind.
  intros c Ha.
  destruct (Hl _ _ Ha) as [->|(b & cb & Hb & Hcb & Hnb)].
  - by eapply seg_head_in.
  - destruct (IH b Hb cb Hcb) as [Hin|Htl].
    + by eapply seg_next.
    + by destruct (Hloose b cb a c Htl Hcb Hnb).
Qed.

(** X8.  When [tokenize] returns, [delete head] is safe and leaves no token
    allocated: every token the tokenizer created and did not delete itself
    is in the chain it returns. *)
Theorem X8_tokenize_chain_owns_all_tokens (s : string) (tokens : list tok) :
  tokenize s = Ok tokens →
  ∃ st h', tokenize_state s = Ok st ∧
           delete_token_t (length (hp st)) (hp st) (head st) = Ok h' ∧
           length h' = length (hp st) ∧
           Forall (λ c, c = None) h'.
Proof.
  unfold tokenize. intros H. apply bind_Ok in H as (st & Hst & H).
  exists st.
  pose proof (tokenize_state_linked _ _ Hst) as Hl.
  apply (tokenize_state_final False) in Hst as Hfin; [|done].
  destruct Hfin as (i & Hinv).
  pose proof (lex_core_ends _ _ _ _ Hinv) as (Hnone & Hin & Hloose).
  pose proof Hinv as (T & Hseg & _ & _ & _ & Htl).
  pose proof (linked_in_chain _ _ _ _ Hseg Hloose Hl) as Hall.
  destruct (tail st) as [t|] eqn:Et.
  - destruct Htl as (d & nx & Ht & Hnx & _).
    (* the chain was read to its end: [tail->next] is null *)
    destruct (chain_seg_split _ _ _ _ _ _ Hseg H) as (fuel' & l' & Hq & _).
    assert (nx = None) as ->.
    { destruct Hnx as [->|(b & -> & Hb & Hfree)]; [done|]. exfalso.
      destruct fuel' as [|fuel']; [done|]. cbn [chain] in Hq.
      rewrite (deref_live _ _ _ Ht) in Hq. cbn [mbind result_bind next] in Hq.
      destruct fuel' as [|fuel']; [done|]. cbn [chain] in Hq.
      unfold deref in Hq. by rewrite Hfree in Hq. }
    pose proof (seg_snoc_end _ _ _ _ _ Hseg Ht) as Hfull.
    assert (length (T ++ [(t, d)]) ≤ length (hp st)) as Hlen.
    { rewrite length_app. cbn [length].
      apply lookup_lt_Some in Ht.
      destruct (head st) as [a|] eqn:Eh.
      - pose proof (seg_length _ _ _ _ _ Hseg eq_refl). lia.
      - by destruct T as [|[? ?] ?]; [|destruct Hseg]. }
    destruct (delete_token_t_seg _ _ _ _ Hfull Hlen) as (h' & Hdel & Hl' & Hlook).
    exists h'. split; [done|]. split; [done|]. split; [done|].
    apply Forall_lookup_2. intros a x Hx. rewrite Hlook in Hx.
    destruct (decide (a ∈ (T ++ [(t, d)]).*1)) as [Hin'|Hnin];
      [by injection Hx as <-|].
    destruct x as [c|]; [|done]. exfalso. apply Hnin.
    rewrite fmap_app, elem_of_app. cbn.
    destruct (Hall _ _ Hx) as [?|[= <-]]; [by left|].
    right. apply elem_of_cons. by left.
  - subst T. cbn in Hseg. rewrite Hseg. exists (hp st).
    split; [done|]. split; [by destruct (length (hp st))|]. split; [done|].
    apply Forall_lookup_2. intros a x Hx.
    destruct x as [c|]; [|done]. exfalso.
    destruct (Hall _ _ Hx) as [Hin'%elem_of_nil|?]; done.
Qed.

Lemma X8_witness :
  ∃ st h', tokenize_state "x=0x1F+b" = Ok st ∧
           delete_token_t (length (hp st)) (hp st) (head st) = Ok h' ∧
           length h' = length (hp st) ∧
           Forall (λ c, c = None) h'.
Proof.
  apply (X8_tokenize_chain_owns_all_tokens "x=0x1F+b"
           [tk tok_symbol "x"; tk tok_equal "="; tk tok_hex "0x";
            tk tok_number "1F"; tk tok_plus "+"; tk tok_number "b"]).
  vm_compute. reflexivity.
Defined.

Lemma append_nil_r s : s +:+ EmptyString = s.
Proof.
  induction s as [|c s IH]; [done|].
  change (String c s +:+ EmptyString) with (String c (s +:+ EmptyString)).
  by rewrite IH.
Qed.

(** X9.  [token_t::print] on the first token of a chain writes one line per
    token, in the order of the chain: the name of the kind and the text, or
    [<null>] for a token without text. *)
Theorem X9_token_t_print_chain (fuel : nat) (h : heap) (p : ptr) (l : list tok) :
  chain fuel h p = Ok l → p ≠ None →
  token_t_print fuel h p = Ok (token_lines l).
Proof.
  revert p l. induction fuel as [|fuel IH]; intros p l H Hp.
  - by destruct p.
  - destruct p as [a|]; [|done]. cbn [chain token_t_print] in *.
    apply bind_Ok in H as (c & Hd & H). rewrite Hd. cbn [mbind result_bind].
    apply bind_Ok in H as (l1 & Hl1 & H). injection H as <-.
    cbn [token_lines foldr kind text].
    destruct (next c) as [b|] eqn:Hn.
    + rewrite (IH _ _ Hl1) by done. done.
    + destruct fuel; cbn in Hl1; injection Hl1 as <-;
        cbn [foldr]; by rewrite append_nil_r.
Qed.

Lemma X9_witness :
  token_t_print 2
    [Some (mk_token_t tok_symbol (Some "a") (Some 1));
     Some (mk_token_t tok_consumable None None)] (Some 0) =
  Ok (token_lines [tk tok_symbol "a"; mk_tok tok_consumable None]).
Proof.
  apply (X9_token_t_print_chain 2 _ (Some 0)); [vm_compute; reflexivity|done].
Defined.

Lemma print_call fname values :
  print (call_t fname (Some values)) =
  s ← print_values 0 values;
  Ok (printf_s fname +:+ "(" +:+ "[" +:+ s +:+ "]" +:+ ")").
Proof. reflexivity. Qed.

Lemma print_list values :
  print (list_t values) = s ← print_values 0 values; Ok ("[" +:+ s +:+ "]").
Proof. reflexivity. Qed.

Lemma separated_cons sep x xs :
  separated sep (x :: xs) = x +:+ each_after sep xs.
Proof.
  revert x. induction xs as [|y ys IH]; intros x.
  - cbn. by rewrite append_nil_r.
  - change (separated sep (x :: y :: ys))
      with (x +:+ sep +:+ separated sep (y :: ys)).
    by rewrite IH.
Qed.

Lemma print_values_text vs :
  Forall (λ e, if has_empty_call e then print e = Undefined NullDeref
               else print e = Ok (text_of e)) vs →
  if existsb has_empty_call vs
  then ∀ i, print_values i vs = Undefined NullDeref
  else print_values 0 vs = Ok (separated ", " (map text_of vs)) ∧
       ∀ i, print_values (S i) vs = Ok (each_after ", " (map text_of vs)).
Proof.
  induction 1 as [|v vs Hv _ IH]; [done|].
  cbn [existsb print_values map].
  destruct (has_empty_call v); cbn [orb].
  - intros i. by rewrite Hv.
  - rewrite Hv. cbn [mbind result_bind].
    destruct (existsb has_empty_call vs).
    + intros i. by rewrite IH.
    + destruct IH as [_ IH]. split.
      * rewrite IH. cbn [mbind result_bind].
        by rewrite separated_cons.
      * intros i. by rewrite IH.
Qed.

(** X16.  [print] writes the text of every tree that has no call with a null
    [args]: a variable as its name, a literal as its type and text (the
    restriction is not shown), an assignment as [name = value], the arguments
    of a call in brackets with a comma and a space between them, an
    operation as [(tok_bin op lhs rhs)].  On a tree that has such a call it
    dereferences the null [args]. *)
Theorem X16_print_outcome (e : st_t) :
  if has_empty_call e then print e = Undefined NullDeref
  else print e = Ok (text_of e).
Proof.
  induction e as [v|ty re v|v e IH|vs IH|f|f vs IH|op l r IHl IHr]
    using st_t_rect'.
  - done.
  - done.
  - cbn [has_empty_call print text_of]. destruct (has_empty_call e).
    + by rewrite IH.
    + by rewrite IH.
  - rewrite print_list. cbn [has_empty_call text_of].
    pose proof (print_values_text vs IH) as Hl.
    destruct (existsb has_empty_call vs).
    + by rewrite Hl.
    + destruct Hl as [-> _]. done.
  - done.
  - rewrite print_call. cbn [has_empty_call text_of].
    pose proof (print_values_text vs IH) as Hl.
    destruct (existsb has_empty_call vs).
    + by rewrite Hl.
    + destruct Hl as [-> _]. done.
  - cbn [has_empty_call print text_of].
    destruct (has_empty_call l); cbn [orb].
    + by rewrite IHl.
    + rewrite IHl. cbn [mbind result_bind].
      destruct (has_empty_call r).
      * by rewrite IHr.
      * by rewrite IHr.
Qed.

Lemma expr_tree_top e : expr_tree e = true → top_tree e = true.
Proof. by destruct e. Qed.

Lemma consumes_variable s : consumes expr_tree s (parse_variable s).
Proof.
  intros x s' H. unfold parse_variable in H.
  repeat result_step H; (split; [simpl; lia|]); intros ? [= <-];
    (split; [simpl; lia|done]).
Qed.

Lemma new_value_t_tree k v re e : new_value_t k v re = Ok e → expr_tree e = true.
Proof. unfold new_value_t. intros H. by repeat result_step H. Qed.

Lemma consumes_value s re : consumes expr_tree s (parse_value s re).
Proof.
  intros x s' H. unfold parse_value in H.
  repeat result_step H; (split; [simpl; lia|]); intros ? [= <-];
    (split; [simpl; lia|by eapply new_value_t_tree]).
Qed.

Lemma consumes_restricted s : consumes expr_tree s (parse_restricted s).
Proof.
  intros x s' H. unfold parse_restricted in H.
  repeat result_step H;
    repeat match goal with
      | E : parse_value _ _ = Ok (_, _) |- _ =>
          apply consumes_value in E; destruct E as [? E];
          try (destruct (E _ eq_refl) as [? ?]); clear E
      | E : new_value_t _ _ _ = Ok _ |- _ => apply new_value_t_tree in E
      end;
    (split; [simpl in *; lia|]); intros ? [= <-];
    (split; [simpl in *; lia|done]).
Qed.

Ltac use_consume :=
  repeat match goal with
    | E : parse_variable _ = Ok (_, _) |- _ =>
        apply consumes_variable in E; destruct E as [? E];
        try (destruct (E _ eq_refl) as [? ?]); clear E
    | E : parse_value _ _ = Ok (_, _) |- _ =>
        apply consumes_value in E; destruct E as [? E];
        try (destruct (E _ eq_refl) as [? ?]); clear E
    | E : parse_restricted _ = Ok (_, _) |- _ =>
        apply consumes_restricted in E; destruct E as [? E];
        try (destruct (E _ eq_refl) as [? ?]); clear E
    | IH : ∀ s ab a, consumes _ s (parse_expr ?n s ab a),
      E : parse_expr ?n _ _ _ = Ok (_, _) |- _ =>
        apply IH in E; destruct E as [? E];
        try (destruct (E _ eq_refl) as [? ?]); clear E
    | IH : ∀ s, consumes _ s (parse_set ?n s),
      E : parse_set ?n _ = Ok (_, _) |- _ =>
        apply IH in E; destruct E as [? E];
        try (destruct (E _ eq_refl) as [? ?]); clear E
    | IH : ∀ s, consumes _ s (parse_parenthesized ?n s),
      E : parse_parenthesized ?n _ = Ok (_, _) |- _ =>
        apply IH in E; destruct E as [? E];
        try (destruct (E _ eq_refl) as [? ?]); clear E
    | IH : ∀ s, consumes _ s (parse_tok_binary_expr ?n s),
      E : parse_tok_binary_expr ?n _ = Ok (_, _) |- _ =>
        apply IH in E; destruct E as [? E];
        try (destruct (E _ eq_refl) as [? ?]); clear E
    | IH : ∀ s, consumes _ s (parse_csv ?n s),
      E : parse_csv ?n _ = Ok (_, _) |- _ =>
        apply IH in E; destruct E as [? E];
        try (destruct (E _ eq_refl) as [? ?]); clear E
    | IH : ∀ s, consumes _ s (parse_fcall ?n s),
      E : parse_fcall ?n _ = Ok (_, _) |- _ =>
        apply IH in E; destruct E as [? E];
        try (destruct (E _ eq_refl) as [? ?]); clear E
    end.

Ltac consume_done :=
  cbn [length expr_tree top_tree is_list_of] in *;
  try match goal with
    | |- _ ∧ _ => split
    end;
  try lia;
  try (intros ? [= <-]; split; [cbn [length] in *; lia|]);
  try done.

Lemma rules_consume_all n : rules_consume n.
Proof.
  induction n as [|n IH].
  { unfold rules_consume, consumes. repeat split; intros; discriminate. }
  destruct IH as (IHe & IHs & IHp & IHl & IHb & IHlo & IHc & IHf).
  unfold rules_consume. repeat apply conj.
  - intros s ab a x s' H. simpl in H.
    repeat result_step H; use_consume; consume_done;
      try (by apply expr_tree_top);
      try (destruct a; cbn [top_tree]; (done || by apply expr_tree_top)).
  - intros s x s' H. simpl in H.
    repeat result_step H; use_consume; consume_done.
  - intros s x s' H. simpl in H.
    repeat result_step H; use_consume; consume_done.
  - intros s lhs Hlhs x s' H. simpl in H.
    repeat result_step H; use_consume; consume_done.
    cbn [expr_tree]. by rewrite Hlhs.
  - intros s x s' H. simpl in H.
    repeat result_step H; use_consume;
      try match goal with
        | E : parse_tok_binary_expr_post_lhs _ _ _ = Ok (_, _) |- _ =>
            apply IHl in E; [|done]; destruct E as [? E];
            try (destruct (E _ eq_refl) as [? ?]); clear E
        end;
      consume_done.
  - intros r vs vs' r' Hvs H. simpl in H.
    repeat result_step H; use_consume;
      try match goal with
        | E : parse_csv_loop _ _ _ = Ok (_, _) |- _ =>
            apply IHlo in E;
            [destruct E as (? & ? & ? & ?)
            |rewrite forallb_app; cbn [forallb]; by rewrite Hvs, ?andb_true_r]
        end;
      rewrite ?forallb_app, ?length_app in *; cbn [forallb length] in *;
      rewrite ?andb_true_r in *;
      repeat split; try done; try lia; try (by rewrite Hvs).
  - intros s x s' H. simpl in H.
    repeat result_step H; use_consume;
      try match goal with
        | E : parse_csv_loop _ _ [] = Ok (_, _) |- _ =>
            apply IHlo in E; [destruct E as (? & ? & ? & ?)|done]
        end;
      consume_done.
  - intros s x s' H. simpl in H.
    repeat result_step H; use_consume; consume_done.
Qed.

(** X10.  A grammar rule that returns a tree has consumed at least one token: the
    cursor it hands back is a position further down the same sequence. *)
Theorem X10_rule_consumes_a_token
    (fuel : nat) (r : rule) (s s' : cursor) (e : st_t) :
  apply_rule fuel r s = Ok (Some e, s') →
  s' `suffix_of` s ∧ length s' < length s.
Proof.
  intros H. split.
  { pose proof (rules_ok_all fuel)
      as (He & Hs & Hp & Hl & Hb & _ & Hc & Hf).
    destruct r; cbn [apply_rule] in H.
    - by apply rule_ok_variable in H as [H _].
    - by apply rule_ok_value in H as [H _].
    - by apply rule_ok_restricted in H as [H _].
    - by apply Hs in H as [H _].
    - by apply Hp in H as [H _].
    - by apply He in H as [H _].
    - by apply Hb in H as [H _].
    - by apply Hl in H as [H _].
    - by apply Hc in H as [H _].
    - by apply Hf in H as [H _]. }
  pose proof (rules_consume_all fuel)
    as (He & Hs & Hp & _ & Hb & _ & Hc & Hf).
  destruct r; cbn [apply_rule] in H.
  - apply consumes_variable in H as [_ H]. by destruct (H _ eq_refl).
  - apply consumes_value in H as [_ H]. by destruct (H _ eq_refl).
  - apply consumes_restricted in H as [_ H]. by destruct (H _ eq_refl).
  - apply Hs in H as [_ H]. by destruct (H _ eq_refl).
  - apply Hp in H as [_ H]. by destruct (H _ eq_refl).
  - apply He in H as [_ H]. by destruct (H _ eq_refl).
  - apply Hb in H as [_ H]. by destruct (H _ eq_refl).
  - destruct fuel as [|fuel]; [done|]. simpl in H.
    pose proof (rules_ok_all fuel) as (He' & _).
    repeat result_step H; use_rules.
    match goal with
    | H : _ `suffix_of` _ |- _ => apply suffix_length in H
    end. cbn [length] in *. lia.
  - apply Hc in H as [_ H]. by destruct (H _ eq_refl).
  - apply Hf in H as [_ H]. by destruct (H _ eq_refl).
Qed.

Lemma X10_witness :
  [tk tok_plus "+"; tk tok_symbol "c"] `suffix_of`
    [tk tok_symbol "f"; tk tok_lparen "("; tk tok_symbol "a";
     tk tok_rparen ")"; tk tok_plus "+"; tk tok_symbol "c"] ∧
  length [tk tok_plus "+"; tk tok_symbol "c"] <
    length [tk tok_symbol "f"; tk tok_lparen "("; tk tok_symbol "a";
            tk tok_rparen ")"; tk tok_plus "+"; tk tok_symbol "c"].
Proof.
  apply (X10_rule_consumes_a_token 9 rule_fcall _ _ (call_t "f" (Some [var_t "a"]))).
  vm_compute. reflexivity.
Defined.

Lemma treeify_top_tree (tokens : cursor) (e : st_t) :
  treeify tokens = Ok (Some e) → top_tree e = true.
Proof.
  unfold treeify. intros H.
  pose proof (rules_consume_all (treeify_fuel (length tokens))) as (He & _).
  repeat result_step H.
  apply He in E as [_ E]. by destruct (E _ eq_refl).
Qed.

(** X11.  In a tree that [treeify] returns an assignment can only be the root,
    and a [list_t] only the argument list of a call. *)
Theorem X11_treeify_tree_shape (tokens : cursor) (e : st_t) :
  treeify tokens = Ok (Some e) → top_tree e = true.
Proof. apply treeify_top_tree. Qed.

Lemma X11_witness :
  top_tree (set_t "x" (bin_t tok_plus (call_t "f" (Some [var_t "a"]))
                         (value_t tok_number tok_undef "1"))) = true.
Proof.
  apply (X11_treeify_tree_shape
           [tk tok_symbol "x"; tk tok_equal "="; tk tok_symbol "f";
            tk tok_lparen "("; tk tok_symbol "a"; tk tok_rparen ")";
            tk tok_plus "+"; tk tok_number "1"]).
  vm_compute. reflexivity.
Defined.

Lemma parse_fcall_operator n x o r :
  n ≠ 0 → is_binary_operator (kind o) = true →
  parse_fcall n (tk tok_symbol x :: o :: r) =
    Ok (None, tk tok_symbol x :: o :: r).
Proof.
  intros Hn Ho. destruct n as [|n]; [done|]. cbn.
  destruct o as [[] v]; try discriminate Ho; cbn;
    repeat case_decide; try done; naive_solver.
Qed.

Lemma parse_parenthesized_symbol n x r :
  n ≠ 0 →
  parse_parenthesized n (tk tok_symbol x :: r) = Ok (None, tk tok_symbol x :: r).
Proof. intros Hn. by destruct n as [|n]. Qed.

Lemma parse_expr_operand_chain rest : ∀ x n b,
  Forall (λ p, is_binary_operator (kind (fst p)) = true) rest →
  3 * length rest + 4 ≤ n →
  parse_expr n (operand_chain x rest) true b =
    Ok (Some (right_nested x rest), []).
Proof.
  induction rest as [|[o y] rest IH]; intros x n b Hops Hn.
  - destruct n as [|[|[|[|n]]]]; cbn [length] in Hn; try lia.
    destruct b; reflexivity.
  - apply Forall_cons in Hops as [Ho Hops]. cbn [fst] in Ho.
    destruct n as [|[|[|n]]]; cbn [length] in Hn; try lia.
    specialize (IH y n false Hops ltac:(lia)).
    unfold operand_chain in *. cbn [flat_map app fst snd right_nested] in *.
    cbn [parse_expr parse_tok_binary_expr mbind result_bind].
    rewrite parse_fcall_operator by (done || lia).
    cbn [mbind result_bind].
    rewrite parse_parenthesized_symbol by lia.
    cbn [mbind result_bind parse_variable tk kind text cstr
         parse_tok_binary_expr_post_lhs].
    rewrite decide_True by done.
    cbn [mbind result_bind]. rewrite Ho. cbn [negb].
    rewrite IH. cbn [mbind result_bind]. reflexivity.
Qed.

Lemma length_operand_chain x rest :
  length rest < length (operand_chain x rest).
Proof.
  unfold operand_chain. cbn [length].
  induction rest as [|p rest IH]; cbn [flat_map app length]; lia.
Qed.

(** X12.  The five binary operators have no precedence among them and all nest to
    the right: operands joined by any operators parse as
    [x o1 (y1 o2 (y2 ...))]. *)
Theorem X12_operators_nest_to_the_right (x : string) (rest : list (tok * string)) :
  Forall (λ p, is_binary_operator (kind (fst p)) = true) rest →
  treeify (operand_chain x rest) = Ok (Some (right_nested x rest)).
Proof.
  intros Hops. unfold treeify.
  rewrite parse_expr_operand_chain; [done|done|].
  pose proof (length_operand_chain x rest). unfold treeify_fuel. lia.
Qed.

Lemma X12_witness :
  tokenize "a*b+c/d" =
    Ok (operand_chain "a" [(tk tok_mul "*", "b"); (tk tok_plus "+", "c");
                           (tk tok_div "/", "d")]) ∧
  treeify (operand_chain "a" [(tk tok_mul "*", "b"); (tk tok_plus "+", "c");
                              (tk tok_div "/", "d")]) =
    Ok (Some (bin_t tok_mul (var_t "a")
                (bin_t tok_plus (var_t "b")
                   (bin_t tok_div (var_t "c") (var_t "d"))))).
Proof.
  split; [vm_compute; reflexivity|].
  apply (X12_operators_nest_to_the_right "a"
           [(tk tok_mul "*", "b"); (tk tok_plus "+", "c");
            (tk tok_div "/", "d")]).
  repeat constructor.
Defined.

Section EvalOutcome.
Context {S : Type}.
Variable order : arg_order.
Variable ct : st_callback_table S.

Lemma list_eval_outcome vs :
  Forall (λ e, expr_tree e = true →
               ∀ st, eval_outcome (has_empty_call e) (eval order ct e st)) vs →
  forallb expr_tree vs = true →
  ∀ st, eval_outcome (existsb has_empty_call vs) (list_eval order ct vs st).
Proof.
  induction vs as [|v vs IH]; intros HF Ht st.
  - cbn. eauto.
  - apply Forall_cons in HF as [Hv HF]. cbn [forallb] in Ht.
    apply andb_prop in Ht as [Ht1 Ht2].
    specialize (Hv Ht1 st). specialize (IH HF Ht2).
    cbn [existsb list_eval]. unfold eval_outcome in *.
    destruct (has_empty_call v); cbn [orb].
    + by rewrite Hv.
    + destruct Hv as (r & st1 & ->). cbn [mbind result_bind].
      specialize (IH st1).
      destruct (existsb has_empty_call vs).
      * by rewrite IH.
      * destruct IH as (rs & st2 & ->). cbn. eauto.
Qed.

Lemma eval_expr_outcome e :
  expr_tree e = true →
  ∀ st, eval_outcome (has_empty_call e) (eval order ct e st).
Proof.
  induction e as [v|ty re v|v e IH|vs IH|f|f vs IH|op l r IHl IHr]
    using st_t_rect'; intros Ht st; cbn [expr_tree] in Ht; try done.
  - cbn. destruct (load ct v st). eauto.
  - cbn. destruct (convert ct v ty re st). eauto.
  - rewrite eval_call_list. cbn [has_empty_call].
    pose proof (list_eval_outcome vs IH Ht st) as Hl.
    unfold eval_outcome in *.
    destruct (existsb has_empty_call vs).
    + by rewrite Hl.
    + destruct Hl as (rs & st1 & ->). cbn [mbind result_bind].
      destruct (fcall ct f rs st1). eauto.
  - apply andb_prop in Ht as [Htl Htr].
    cbn [has_empty_call eval]. unfold eval_outcome in *.
    destruct order.
    + specialize (IHl Htl st).
      destruct (has_empty_call l); cbn [orb].
      * by rewrite IHl.
      * destruct IHl as (a & st1 & ->). cbn [mbind result_bind].
        specialize (IHr Htr st1).
        destruct (has_empty_call r).
        -- by rewrite IHr.
        -- destruct IHr as (b & st2 & ->). cbn [mbind result_bind].
           destruct (bin ct op a b st2). eauto.
    + specialize (IHr Htr st).
      destruct (has_empty_call r); rewrite ?orb_true_r, ?orb_false_r.
      * by rewrite IHr.
      * destruct IHr as (b & st1 & ->). cbn [mbind result_bind].
        specialize (IHl Htl st1).
        destruct (has_empty_call l).
        -- by rewrite IHl.
        -- destruct IHl as (a & st2 & ->). cbn [mbind result_bind].
           destruct (bin ct op a b st2). eauto.
Qed.

Lemma eval_top_outcome e :
  top_tree e = true →
  ∀ st, eval_outcome (has_empty_call e) (eval order ct e st).
Proof.
  destruct e as [v|ty re v|v e|vs|f a|op l r]; cbn [top_tree];
    try apply eval_expr_outcome.
  intros Ht st. pose proof (eval_expr_outcome e Ht st) as He.
  cbn [has_empty_call eval]. unfold eval_outcome in *.
  destruct (has_empty_call e).
  - by rewrite He.
  - destruct He as (r & st1 & ->). cbn. eauto.
Qed.

End EvalOutcome.

(** X14.  Evaluating a tree that [treeify] returned, under any contract and in
    either order of the operands, returns a value, unless the tree holds a
    call without arguments, whose null [args] is then dereferenced; the
    exception of [list_t::eval] is never thrown. *)
Theorem X14_eval_of_treeify {S} (order : arg_order) (ct : st_callback_table S)
    (tokens : cursor) (e : st_t) (st : S) :
  treeify tokens = Ok (Some e) →
  if has_empty_call e then eval order ct e st = Undefined NullDeref
  else ∃ r st', eval order ct e st = Ok (r, st').
Proof.
  intros H. apply treeify_top_tree in H.
  apply (eval_top_outcome order ct e H st).
Qed.

Lemma X14_witness :
  ∃ r st', eval RightToLeft sample_contract
             (set_t "x" (bin_t tok_minus (var_t "a")
                           (call_t "f" (Some [var_t "b"])))) tt
           = Ok (r, st').
Proof.
  refine (X14_eval_of_treeify RightToLeft sample_contract
           [tk tok_symbol "x"; tk tok_equal "="; tk tok_symbol "a";
            tk tok_minus "-"; tk tok_symbol "f"; tk tok_lparen "(";
            tk tok_symbol "b"; tk tok_rparen ")"]
           (set_t "x" (bin_t tok_minus (var_t "a")
                         (call_t "f" (Some [var_t "b"])))) tt _).
  vm_compute. reflexivity.
Defined.

Lemma adds_step (n m : nat) (log log1 : list call) c :
  adds n log log1 → is_unary c = false → m = S n →
  adds m log (log1 ++ [c]).
Proof.
  intros (tr & -> & <- & Hu) Hc ->. exists (tr ++ [c]).
  rewrite app_assoc, length_app, Forall_app, Forall_singleton.
  cbn [length]. repeat split; [lia|done|by rewrite Hc].
Qed.

Lemma adds_trans (n m k : nat) (log log1 log2 : list call) :
  adds n log log1 → adds m log1 log2 → k = n + m → adds k log log2.
Proof.
  intros (tr & -> & <- & Hu) (tr' & -> & <- & Hu') ->. exists (tr ++ tr').
  rewrite app_assoc, length_app, Forall_app. done.
Qed.

Lemma adds_refl log : adds 0 log log.
Proof. exists []. by rewrite app_nil_r. Qed.

Section Calls.
Context {S : Type}.
Variable order : arg_order.
Variable ct : st_callback_table S.

#[local] Abbreviation ev := (eval order (recording ct)).
#[local] Abbreviation evl := (list_eval order (recording ct)).

Lemma list_eval_calls vs :
  Forall (λ e, ∀ st log r st' log',
            ev e (st, log) = Ok (r, (st', log')) →
            adds (nodes e) log log') vs →
  ∀ st log rs st' log',
    evl vs (st, log) = Ok (rs, (st', log')) →
    adds (list_sum (map nodes vs)) log log'.
Proof.
  induction vs as [|x vs IHvs]; intros IH st log rs st' log' Hl.
  - cbn in Hl. injection Hl as <- <- <-. apply adds_refl.
  - apply Forall_cons in IH as [Hx Hvs]. cbn [list_eval] in Hl.
    apply bind_Ok in Hl as ([r1 [st2 log2]] & He & Hl).
    apply bind_Ok in Hl as ([rs' [st3 log3]] & Hr & Hl).
    injection Hl as <- <- <-.
    eapply adds_trans; [by eapply Hx|by eapply IHvs|done].
Qed.

Lemma eval_calls e : ∀ st log r st' log',
  ev e (st, log) = Ok (r, (st', log')) → adds (nodes e) log log'.
Proof.
  induction e as [v|ty re v|v e IH|vs IH|f|f vs IH|op l r IHl IHr]
    using st_t_rect'; intros st log r0 st' log' H.
  - cbn in H. destruct (load ct v st). injection H as <- <- <-.
    by eapply adds_step; [apply adds_refl| |].
  - cbn in H. destruct (convert ct v ty re st). injection H as <- <- <-.
    by eapply adds_step; [apply adds_refl| |].
  - cbn [eval] in H. apply bind_Ok in H as ([r1 [st1 log1]] & He & H).
    apply IH in He. cbn in H. injection H as <- <- <-.
    by eapply adds_step.
  - done.
  - done.
  - rewrite eval_call_list in H.
    apply bind_Ok in H as ([refs [st1 log1]] & Hl & H).
    cbn in H. destruct (fcall ct f refs st1). injection H as <- <- <-.
    eapply adds_step; [by eapply list_eval_calls|done|done].
  - cbn [eval] in H. destruct order.
    + apply bind_Ok in H as ([ra [st1 log1]] & Ha & H).
      apply bind_Ok in H as ([rb [st2 log2]] & Hb & H).
      cbn in H. destruct (bin ct op ra rb st2). injection H as <- <- <-.
      eapply adds_step; [|done|done].
      eapply adds_trans; [by eapply IHl|by eapply IHr|done].
    + apply bind_Ok in H as ([rb [st1 log1]] & Hb & H).
      apply bind_Ok in H as ([ra [st2 log2]] & Ha & H).
      cbn in H. destruct (bin ct op ra rb st2). injection H as <- <- <-.
      eapply adds_step; [|done|cbn [nodes]; reflexivity].
      eapply adds_trans; [by eapply IHr|by eapply IHl|lia].
Qed.

End Calls.

Lemma asks_refl log : asks [] log log.
Proof. exists []. by rewrite app_nil_r. Qed.

Lemma asks_trans rs1 rs2 log log1 log2 :
  asks rs1 log log1 → asks rs2 log1 log2 → asks (rs1 ++ rs2) log log2.
Proof.
  intros (tr & -> & <-) (tr' & -> & <-). exists (tr ++ tr').
  by rewrite app_assoc, map_app.
Qed.

Lemma asks_step rs log log1 c :
  asks rs log log1 → asks (rs ++ [request_of c]) log (log1 ++ [c]).
Proof.
  intros H. apply (asks_trans _ _ _ _ _ H). by exists [c].
Qed.

Section Requests.
Context {S : Type}.
Variable order : arg_order.
Variable ct : st_callback_table S.

#[local] Abbreviation ev := (eval order (recording ct)).
#[local] Abbreviation evl := (list_eval order (recording ct)).

Lemma list_eval_requests vs :
  Forall (λ e, ∀ st log r st' log',
            ev e (st, log) = Ok (r, (st', log')) →
            asks (requests order e) log log') vs →
  ∀ st log rs st' log',
    evl vs (st, log) = Ok (rs, (st', log')) →
    length rs = length vs ∧ asks (flat_map (requests order) vs) log log'.
Proof.
  induction vs as [|x vs IHvs]; intros IH st log rs st' log' Hl.
  - cbn in Hl. injection Hl as <- <- <-. split; [done|apply asks_refl].
  - apply Forall_cons in IH as [Hx Hvs]. cbn [list_eval] in Hl.
    apply bind_Ok in Hl as ([r1 [st2 log2]] & He & Hl).
    apply bind_Ok in Hl as ([rs' [st3 log3]] & Hr & Hl).
    injection Hl as <- <- <-.
    destruct (IHvs Hvs _ _ _ _ _ Hr) as [Hlen Hasks].
    split; [cbn; by rewrite Hlen|].
    cbn [flat_map]. eapply asks_trans; [by eapply Hx|done].
Qed.

Lemma eval_requests e : ∀ st log r st' log',
  ev e (st, log) = Ok (r, (st', log')) → asks (requests order e) log log'.
Proof.
  induction e as [v|ty re v|v e IH|vs IH|f|f vs IH|op l r IHl IHr]
    using st_t_rect'; intros st log r0 st' log' H.
  - cbn in H. destruct (load ct v st). injection H as <- <- <-.
    apply (asks_step [] _ _ (CLoad v _)), asks_refl.
  - cbn in H. destruct (convert ct v ty re st). injection H as <- <- <-.
    apply (asks_step [] _ _ (CConvert v ty re _)), asks_refl.
  - cbn [eval] in H. apply bind_Ok in H as ([r1 [st1 log1]] & He & H).
    apply IH in He. cbn in H. injection H as <- <- <-.
    by apply (asks_step _ _ _ (CSave v _)).
  - done.
  - done.
  - rewrite eval_call_list in H.
    apply bind_Ok in H as ([refs [st1 log1]] & Hl & H).
    cbn in H. destruct (fcall ct f refs st1). injection H as <- <- <-.
    destruct (list_eval_requests vs IH _ _ _ _ _ Hl) as [Hlen Hasks].
    cbn [requests]. rewrite <- Hlen.
    by apply (asks_step _ _ _ (CFcall f refs _)).
  - cbn [eval] in H. cbn [requests]. destruct order.
    + apply bind_Ok in H as ([ra [st1 log1]] & Ha & H).
      apply bind_Ok in H as ([rb [st2 log2]] & Hb & H).
      cbn in H. destruct (bin ct op ra rb st2). injection H as <- <- <-.
      apply (asks_step _ _ _ (CBin op ra rb _)).
      eapply asks_trans; [by eapply IHl|by eapply IHr].
    + apply bind_Ok in H as ([rb [st1 log1]] & Hb & H).
      apply bind_Ok in H as ([ra [st2 log2]] & Ha & H).
      cbn in H. destruct (bin ct op ra rb st2). injection H as <- <- <-.
      apply (asks_step _ _ _ (CBin op ra rb _)).
      eapply asks_trans; [by eapply IHr|by eapply IHl].
Qed.

End Requests.

(** X15.  An evaluation that returns has made exactly one call to the contract
    for each node of the tree, each node after its operands, and the call is
    the one of the node: [load] of the name for a variable, [convert] of the
    text, type and restriction for a literal, [save] to the name for an
    assignment, [bin] of the operator for an operation, [fcall] of the name
    with the number of the arguments for a call.  [unary] is never
    called. *)
Theorem X15_eval_one_call_per_node {S} (order : arg_order)
    (ct : st_callback_table S) (e : st_t) (st st' : S) (log log' : list call)
    (r : ref) :
  eval order (recording ct) e (st, log) = Ok (r, (st', log')) →
  ∃ tr, log' = log ++ tr ∧ map request_of tr = requests order e ∧
        length tr = nodes e ∧ Forall (λ c, is_unary c = false) tr.
Proof.
  intros H.
  destruct (eval_requests order ct e _ _ _ _ _ H) as (tr & -> & Hreq).
  destruct (eval_calls order ct e _ _ _ _ _ H) as (tr' & Heq & Hlen & Hu).
  apply app_inv_head in Heq. subst tr'. by exists tr.
Qed.

Lemma X15_witness :
  ∃ tr, [CLoad "a" 5%N; CLoad "b" 3%N; CBin tok_minus 5%N 3%N 2%N;
         CSave "x" 2%N] = [] ++ tr ∧
        map request_of tr =
          [RLoad "a"; RLoad "b"; RBin tok_minus; RSave "x"] ∧
        length tr = 4 ∧
        Forall (λ c, is_unary c = false) tr.
Proof.
  apply (X15_eval_one_call_per_node LeftToRight sample_contract
           (set_t "x" (bin_t tok_minus (var_t "a") (var_t "b"))) tt tt [] _
           nullref).
  vm_compute. reflexivity.
Defined.

(** X13.  On every sequence that [tokenize] returned and that is not empty,
    [treeify] returns the tree of the whole sequence or throws the
    [SyntaxError] of a token of the sequence; it neither returns null nor
    runs into a null pointer. *)
Theorem X13_treeify_after_tokenize (s : string) (tokens : list tok) :
  tokenize s = Ok tokens → tokens ≠ [] →
  (∃ e, treeify tokens = Ok (Some e)) ∨
  (∃ t rest, (t :: rest) `suffix_of` tokens ∧
             treeify tokens = Raise (SyntaxError (text t))).
Proof. apply tokenize_treeify. Qed.

Lemma X13_witness :
  (∃ e, treeify [tk tok_symbol "a"; tk tok_plus "+"; tk tok_rparen ")"]
        = Ok (Some e)) ∨
  (∃ t rest,
     (t :: rest) `suffix_of`
       [tk tok_symbol "a"; tk tok_plus "+"; tk tok_rparen ")"] ∧
     treeify [tk tok_symbol "a"; tk tok_plus "+"; tk tok_rparen ")"]
       = Raise (SyntaxError (text t))).
Proof.
  apply (X13_treeify_after_tokenize "a+)"); [vm_compute; reflexivity|done].
Defined.

(** ** The grammar and the tokenizer on whole classes of input *)

Lemma parse_fcall_no_paren n x t r :
  n ≠ 0 → kind t ≠ tok_lparen →
  parse_fcall n (tk tok_symbol x :: t :: r) =
    Ok (None, tk tok_symbol x :: t :: r).
Proof.
  intros Hn Ht. destruct n as [|n]; [done|]. cbn.
  rewrite (decide_False (P := tok_symbol ≠ tok_symbol)) by (by intros []).
  destruct (decide (r = [] ∨ kind t ≠ tok_lparen)) as [|Hno]; [done|].
  destruct Hno. by right.
Qed.

Lemma parse_fcall_alone n x :
  n ≠ 0 → parse_fcall n [tk tok_symbol x] = Ok (None, [tk tok_symbol x]).
Proof. intros Hn. by destruct n as [|n]. Qed.

Lemma parse_expr_operand n x b suffix :
  4 ≤ n → ends_expr suffix → (b = true → ∀ t r, suffix = t :: r → kind t ≠ tok_equal ∨ r = []) →
  parse_expr n (tk tok_symbol x :: suffix) true b =
    Ok (Some (var_t x), suffix).
Proof.
  intros Hn Hs Hb. destruct n as [|[|[|[|n]]]]; try lia.
  destruct suffix as [|t r].
  - by destruct b.
  - destruct Hs as [Hop Hlp].
    cbn [parse_expr parse_tok_binary_expr mbind result_bind].
    rewrite !parse_fcall_no_paren by done.
    cbn [mbind result_bind parse_parenthesized].
    rewrite (decide_True (P := _ ∨ _)) by (by left).
    cbn [mbind result_bind parse_variable tk kind text cstr
         parse_tok_binary_expr_post_lhs].
    rewrite decide_True by done. cbn [mbind result_bind].
    rewrite Hop. cbn [negb mbind result_bind].
    assert (('(x0, s0) ← (if b
                then parse_set (S (S (S n))) (tk tok_symbol x :: t :: r)
                else Ok (None, tk tok_symbol x :: t :: r));
             Ok (x0, s0)) = Ok (None, tk tok_symbol x :: t :: r)) as Hset.
    { destruct b; [|done].
      cbn [parse_set parse_variable tk kind text cstr mbind result_bind].
      rewrite decide_True by done. cbn [mbind result_bind].
      destruct (Hb eq_refl t r eq_refl) as [Hne| ->].
      + by rewrite (decide_True (P := _ ∨ _)) by (by right).
      + by rewrite (decide_True (P := _ ∨ _)) by (by left). }
    destruct (if b then parse_set (S (S (S n))) (tk tok_symbol x :: t :: r)
              else Ok (None, tk tok_symbol x :: t :: r))
      as [[x0 s0]| | |]; try done.
    cbn [mbind result_bind] in Hset |- *. injection Hset as -> ->.
    rewrite parse_fcall_no_paren by done.
    cbn [mbind result_bind tk kind].
    rewrite (decide_True (P := _ ∨ _)) by (by left).
    cbn [mbind result_bind parse_variable tk kind text cstr].
    by rewrite decide_True.
Qed.

(** An expression of operands and operators is parsed up to the token at
    which it ends. *)
Lemma parse_expr_chain_stop rest : ∀ x n suffix,
  Forall (λ p, is_binary_operator (kind (fst p)) = true) rest →
  ends_expr suffix → 3 * length rest + 4 ≤ n →
  parse_expr n (operand_chain x rest ++ suffix) true false =
    Ok (Some (right_nested x rest), suffix).
Proof.
  induction rest as [|[o y] rest IH]; intros x n suffix Hops Hs Hn.
  - apply parse_expr_operand; [cbn in Hn; lia|done|done].
  - apply Forall_cons in Hops as [Ho Hops]. cbn [fst] in Ho.
    destruct n as [|[|[|n]]]; cbn [length] in Hn; try lia.
    specialize (IH y n suffix Hops Hs ltac:(lia)).
    unfold operand_chain in *.
    cbn [flat_map app fst snd right_nested] in *.
    cbn [parse_expr parse_tok_binary_expr mbind result_bind].
    rewrite parse_fcall_operator by (done || lia).
    cbn [mbind result_bind].
    rewrite parse_parenthesized_symbol by lia.
    cbn [mbind result_bind parse_variable tk kind text cstr
         parse_tok_binary_expr_post_lhs].
    rewrite decide_True by done.
    cbn [mbind result_bind]. rewrite Ho. cbn [negb].
    rewrite IH. cbn [mbind result_bind]. reflexivity.
Qed.

(** An assignment: the rule [parse_set] on a symbol, the equal sign and a
    chain. *)
Lemma treeify_assignment (x y : string) (eq : tok) (rest : list (tok * string)) :
  kind eq = tok_equal →
  Forall (λ p, is_binary_operator (kind (fst p)) = true) rest →
  treeify (tk tok_symbol x :: eq :: operand_chain y rest) =
    Ok (Some (set_t x (right_nested y rest))).
Proof.
  intros Heq Hops. unfold treeify, treeify_fuel.
  pose proof (length_operand_chain y rest) as Hlen.
  cbn [length].
  destruct (8 * S (S (length (operand_chain y rest))) + 6)
    as [|[|[|[|n]]]] eqn:En; try lia.
  assert (3 * length rest + 4 ≤ S (S n)) as Hn by lia.
  pose proof (parse_expr_chain_stop rest y (S (S n)) [] Hops I Hn) as Hrhs.
  rewrite app_nil_r in Hrhs.
  cbn [parse_expr parse_tok_binary_expr mbind result_bind].
  rewrite !parse_fcall_no_paren by (done || by rewrite Heq).
  cbn [mbind result_bind].
  rewrite !parse_parenthesized_symbol by lia.
  cbn [mbind result_bind parse_variable tk kind text cstr
       parse_tok_binary_expr_post_lhs].
  rewrite decide_True by done. cbn [mbind result_bind].
  rewrite Heq. cbn [is_binary_operator negb mbind result_bind].
  cbn [parse_set parse_variable tk kind text cstr mbind result_bind].
  rewrite decide_True by done. cbn [mbind result_bind].
  rewrite (decide_False (P := _ ∨ _)) by (intros [?|?]; done).
  rewrite Hrhs. reflexivity.
Qed.

Lemma parse_fcall_not_symbol n t r :
  n ≠ 0 → kind t ≠ tok_symbol → parse_fcall n (t :: r) = Ok (None, t :: r).
Proof.
  intros Hn Ht. destruct n as [|n]; [done|]. cbn [parse_fcall].
  by rewrite decide_True.
Qed.

(** A parenthesized expression of operands and operators. *)
Lemma parse_parenthesized_chain n lp rp x rest suffix :
  kind lp = tok_lparen → kind rp = tok_rparen →
  Forall (λ p, is_binary_operator (kind (fst p)) = true) rest →
  3 * length rest + 5 ≤ n →
  parse_parenthesized n (lp :: operand_chain x rest ++ rp :: suffix) =
    Ok (Some (right_nested x rest), suffix).
Proof.
  intros Hlp Hrp Hops Hn. destruct n as [|n]; [lia|].
  cbn [parse_parenthesized].
  rewrite (decide_False (P := _ ∨ _)) by (intros [?|?]; done).
  rewrite parse_expr_chain_stop; [|done| |lia].
  - cbn [mbind result_bind]. by rewrite decide_False by (by intros []).
  - cbn. by rewrite Hrp.
Qed.

(** X22.  A parenthesized chain of operands and operators is parsed as the
    chain itself, and when an operator and a second chain follow the closing
    parenthesis, as the operation whose left operand is the whole
    parenthesized chain: parentheses are the one way to group to the left. *)
Theorem X22_treeify_parenthesized
    (lp rp o : tok) (x y : string) (rest rest' : list (tok * string)) :
  kind lp = tok_lparen → kind rp = tok_rparen →
  is_binary_operator (kind o) = true →
  Forall (λ p, is_binary_operator (kind (fst p)) = true) rest →
  Forall (λ p, is_binary_operator (kind (fst p)) = true) rest' →
  treeify (lp :: operand_chain x rest ++ [rp]) =
    Ok (Some (right_nested x rest)) ∧
  treeify (lp :: operand_chain x rest ++ rp :: o :: operand_chain y rest') =
    Ok (Some (bin_t (kind o) (right_nested x rest) (right_nested y rest'))).
Proof.
  intros Hlp Hrp Ho Hops Hops'.
  assert (kind lp ≠ tok_symbol) as Hns by (by rewrite Hlp).
  pose proof (length_operand_chain x rest) as Hlen.
  pose proof (length_operand_chain y rest') as Hlen'.
  split; unfold treeify, treeify_fuel.
  - cbn [length]. rewrite length_app. cbn [length].
    destruct (8 * S (length (operand_chain x rest) + 1) + 6)
      as [|[|[|[|n]]]] eqn:En; try lia.
    cbn [parse_expr parse_tok_binary_expr mbind result_bind].
    rewrite !parse_fcall_not_symbol by (done || lia).
    cbn [mbind result_bind].
    rewrite !parse_parenthesized_chain by (done || lia).
    cbn [mbind result_bind parse_set parse_variable].
    rewrite decide_False by (by intros ?).
    cbn [mbind result_bind].
    rewrite parse_fcall_not_symbol by (done || lia).
    cbn [mbind result_bind].
    rewrite parse_parenthesized_chain by (done || lia).
    reflexivity.
  - cbn [length]. rewrite length_app. cbn [length].
    destruct (8 * S (length (operand_chain x rest)
                     + S (S (length (operand_chain y rest')))) + 6)
      as [|[|[|[|n]]]] eqn:En; try lia.
    cbn [parse_expr parse_tok_binary_expr mbind result_bind].
    rewrite !parse_fcall_not_symbol by (done || lia).
    cbn [mbind result_bind].
    rewrite !parse_parenthesized_chain by (done || lia).
    pose proof (parse_expr_chain_stop rest' y (S n) [] Hops' I
                  ltac:(lia)) as Hrhs.
    rewrite app_nil_r in Hrhs. unfold operand_chain in Hrhs |- *.
    cbn [mbind result_bind parse_tok_binary_expr_post_lhs].
    rewrite Ho. cbn [negb]. rewrite Hrhs. reflexivity.
Qed.

Lemma X22_witness :
  (treeify (tk tok_lparen "(" :: operand_chain "a" [(tk tok_minus "-", "b")]
            ++ [tk tok_rparen ")"]) =
     Ok (Some (bin_t tok_minus (var_t "a") (var_t "b"))) ∧
   treeify (tk tok_lparen "(" :: operand_chain "a" [(tk tok_minus "-", "b")]
            ++ tk tok_rparen ")" :: tk tok_minus "-" :: operand_chain "c" []) =
     Ok (Some (bin_t tok_minus (bin_t tok_minus (var_t "a") (var_t "b"))
                 (var_t "c")))).
Proof.
  apply (X22_treeify_parenthesized (tk tok_lparen "(") (tk tok_rparen ")")
           (tk tok_minus "-") "a" "c" [(tk tok_minus "-", "b")] []);
    try done; repeat constructor.
Defined.

Lemma csv_tokens_length comma x xs : length xs < length (csv_tokens comma x xs).
Proof.
  revert x. induction xs as [|y ys IH]; intros x; cbn; [lia|].
  specialize (IH y). lia.
Qed.

Lemma parse_csv_loop_symbols comma rp xs : ∀ x n values suffix,
  kind comma = tok_comma → kind rp = tok_rparen →
  length xs + 5 ≤ n →
  parse_csv_loop n (csv_tokens comma x xs ++ rp :: suffix) values =
    Ok (values ++ map var_t (x :: xs), rp :: suffix).
Proof.
  induction xs as [|y ys IH]; intros x n values suffix Hc Hrp Hn;
    (destruct n as [|n]; [lia|]); cbn [length] in Hn;
    cbn [csv_tokens app parse_csv_loop].
  - rewrite parse_expr_operand; [|lia|by cbn; rewrite Hrp|done].
    cbn [mbind result_bind]. rewrite decide_True by (by rewrite Hrp).
    reflexivity.
  - rewrite parse_expr_operand; [|lia|by cbn; rewrite Hc|done].
    cbn [mbind result_bind]. rewrite decide_False by (by intros []).
    rewrite (IH y n _ suffix Hc Hrp) by lia.
    cbn [map]. by rewrite <- app_assoc.
Qed.

Lemma parse_fcall_symbols n f lp comma rp x xs suffix :
  kind lp = tok_lparen → kind comma = tok_comma → kind rp = tok_rparen →
  length xs + 7 ≤ n →
  parse_fcall n (tk tok_symbol f :: lp
                 :: csv_tokens comma x xs ++ rp :: suffix) =
    Ok (Some (call_t f (Some (map var_t (x :: xs)))), suffix).
Proof.
  intros Hlp Hc Hrp Hn. destruct n as [|[|n]]; try lia.
  cbn [parse_fcall tk kind text cstr mbind result_bind].
  rewrite decide_False by (by intros []).
  rewrite (decide_False (P := _ ∨ _)) by (intros [?|?]; [by destruct xs|done]).
  cbn [parse_csv].
  rewrite (parse_csv_loop_symbols comma rp xs x n [] suffix) by (done || lia).
  cbn [mbind result_bind app map length].
  rewrite decide_False by done.
  cbn [mbind result_bind]. by rewrite decide_False by (by intros []).
Qed.

(** A call: the rule [parse_fcall] on a symbol and a parenthesized list of
    symbols. *)
Lemma treeify_call (f x : string) (xs : list string) (lp comma rp : tok) :
  kind lp = tok_lparen → kind comma = tok_comma → kind rp = tok_rparen →
  treeify (tk tok_symbol f :: lp :: csv_tokens comma x xs ++ [rp]) =
    Ok (Some (call_t f (Some (map var_t (x :: xs))))).
Proof.
  intros Hlp Hc Hrp. unfold treeify, treeify_fuel.
  pose proof (csv_tokens_length comma x xs) as Hlen.
  cbn [length]. rewrite length_app. cbn [length].
  destruct (8 * S (S (length (csv_tokens comma x xs) + 1)) + 6)
    as [|[|[|[|n]]]] eqn:En; try lia.
  cbn [parse_expr parse_tok_binary_expr mbind result_bind].
  rewrite !parse_fcall_symbols by (done || lia).
  cbn [mbind result_bind parse_set parse_variable tk kind text cstr].
  rewrite decide_True by done. cbn [mbind result_bind].
  rewrite (decide_True (P := _ ∨ _)) by (right; by rewrite Hlp).
  cbn [mbind result_bind].
  rewrite parse_fcall_symbols by (done || lia).
  reflexivity.
Qed.

Lemma length_linked_cells T : length (linked_cells T) = length T.
Proof. apply length_imap. Qed.

Lemma deref_chain_heap T d :
  deref (chain_heap T d) (Some (length T)) =
    Ok (mk_token_t (kind d) (text d) None).
Proof.
  unfold deref, chain_heap.
  rewrite lookup_app_r by (rewrite length_linked_cells; lia).
  by rewrite length_linked_cells, Nat.sub_diag.
Qed.

Lemma set_value_chain_heap T d v :
  set_value (chain_heap T d) (Some (length T)) v =
    Ok (chain_heap T (mk_tok (kind d) (Some v))).
Proof.
  unfold set_value. rewrite deref_chain_heap. cbn [mbind result_bind].
  unfold store, chain_heap.
  rewrite lookup_app_r by (rewrite length_linked_cells; lia).
  rewrite length_linked_cells, Nat.sub_diag. cbn.
  rewrite insert_app_r_alt by (rewrite length_linked_cells; lia).
  by rewrite length_linked_cells, Nat.sub_diag.
Qed.

Lemma length_chain_heap T d : length (chain_heap T d) = S (length T).
Proof. unfold chain_heap. rewrite length_app, length_linked_cells. cbn. lia. Qed.

Lemma lookup_chain_heap_tail T d :
  chain_heap T d !! length T = Some (cell_of d None).
Proof.
  unfold chain_heap.
  rewrite lookup_app_r by (rewrite length_linked_cells; lia).
  by rewrite length_linked_cells, Nat.sub_diag.
Qed.

Lemma chain_heap_link T d x :
  <[length T := cell_of d (Some (S (length T)))]>
    (chain_heap T d ++ [cell_of x None]) =
  chain_heap (T ++ [d]) x.
Proof.
  unfold chain_heap, linked_cells. rewrite imap_app. cbn.
  rewrite Nat.add_0_r.
  rewrite insert_app_l by (rewrite length_app, length_imap; cbn; lia).
  rewrite insert_app_r_alt by (rewrite length_imap; lia).
  by rewrite length_imap, Nat.sub_diag.
Qed.

Lemma new_token_t_chain_heap T d k :
  new_token_t (chain_heap T d) k (Some (length T)) =
    Ok (chain_heap (T ++ [d]) (mk_tok k None), Some (S (length T))).
Proof.
  unfold new_token_t. rewrite length_chain_heap. unfold deref, store.
  rewrite !lookup_app_l by (rewrite length_chain_heap; lia).
  rewrite !lookup_chain_heap_tail. cbn [cell_of mbind result_bind token value].
  do 2 f_equal. apply (chain_heap_link T d (mk_tok k None)).
Qed.

Lemma chain_chain_heap T d : ∀ j fuel,
  j ≤ length T → length T - j < fuel →
  chain fuel (chain_heap T d) (Some j) = Ok (drop j T ++ [d]).
Proof.
  intros j fuel. revert j. induction fuel as [|fuel IH]; intros j Hj Hf; [lia|].
  cbn [chain]. destruct (decide (j = length T)) as [->|Hne].
  - rewrite deref_chain_heap. cbn [mbind result_bind next].
    rewrite drop_all. destruct fuel; cbn; by destruct d.
  - assert (j < length T) as Hlt by lia.
    destruct (lookup_lt_is_Some_2 T j Hlt) as [x Hx].
    unfold deref, chain_heap.
    rewrite lookup_app_l by (rewrite length_linked_cells; lia).
    unfold linked_cells. rewrite list_lookup_imap, Hx. cbn.
    fold (linked_cells T). fold (chain_heap T d).
    rewrite IH by lia. cbn.
    rewrite (drop_S _ _ _ Hx). by destruct x.
Qed.

Lemma determine_token_punct c p cur k :
  punct_kind c = Some k → determine_token c p tok_undef cur = k.
Proof.
  unfold punct_kind. intros H.
  repeat (destruct (decide (c = _)) as [->|?];
          [injection H as <-; try (by vm_compute)|]); [|done].
  unfold determine_token. cbn. by rewrite andb_false_r.
Qed.

Lemma punct_kind_structural c k :
  punct_kind c = Some k →
  is_structural k = true ∧ k ≠ tok_concat ∧ c ≠ zero.
Proof.
  unfold punct_kind. intros H.
  repeat (destruct (decide (c = _)) as [->|?];
          [by injection H as <-|]); done.
Qed.

Lemma deref_chain_heap_at T d n :
  n = length T →
  deref (chain_heap T d) (Some n) = Ok (mk_token_t (kind d) (text d) None).
Proof. intros ->. apply deref_chain_heap. Qed.

Lemma set_value_chain_heap_at T d n v :
  n = length T →
  set_value (chain_heap T d) (Some n) v =
    Ok (chain_heap T (mk_tok (kind d) (Some v))).
Proof. intros ->. apply set_value_chain_heap. Qed.

Lemma new_token_t_chain_heap_at T d n k :
  n = length T →
  new_token_t (chain_heap T d) k (Some n) =
    Ok (chain_heap (T ++ [d]) (mk_tok k None), Some (S n)).
Proof. intros ->. apply new_token_t_chain_heap. Qed.

Ltac length_solve := rewrite ?length_app; cbn [length]; lia.

Ltac lex_simpl :=
  repeat first
    [ rewrite deref_chain_heap_at by length_solve
    | rewrite set_value_chain_heap_at by length_solve
    | rewrite new_token_t_chain_heap_at by length_solve
    | progress cbn [mbind result_bind fmap result_fmap token value next kind
                    text negb andb orb hp head tail prev open finalized
                    finding restrict_type token_start tk]
    | match goal with
      | |- context [is_prefix_marker ?k] =>
          is_constructor k;
          let b := eval vm_compute in (is_prefix_marker k) in
          change (is_prefix_marker k) with b
      end
    | case_decide; try done
    | rewrite bool_decide_eq_true_2 by done
    | rewrite bool_decide_eq_false_2 by done ];
  try (unfold lexing; rewrite ?length_app; cbn [length];
       rewrite ?Nat.add_1_r; reflexivity).

(** A further character of the word under construction. *)
Lemma tokenize_char_word s i c p T k pv ts :
  k = tok_symbol ∨ k = tok_number →
  determine_token c p tok_undef k = k →
  tokenize_char s i c p (lexing T (mk_tok k None) pv true false ts) =
    Ok (lexing T (mk_tok k None) pv true false ts).
Proof.
  intros Hk Hc. unfold tokenize_char, lexing, classify_char.
  cbn [finding]. rewrite decide_False by (by intros []).
  rewrite !deref_chain_heap. cbn [fmap result_fmap mbind result_bind token kind].
  rewrite Hc.
  destruct Hk as [-> | ->]; lex_simpl.
Qed.

(** A character that is a token by itself, after a word. *)
Lemma tokenize_char_punct_after_word s i c p T k kc pv ts :
  k = tok_symbol ∨ k = tok_number → punct_kind c = Some kc →
  tokenize_char s i c p (lexing T (mk_tok k None) pv true false ts) =
    Ok (lexing (T ++ [mk_tok k (Some (strndup_span s ts i))])
          (tk kc (String c EmptyString)) pv false true ts).
Proof.
  intros Hk Hc. destruct (punct_kind_structural _ _ Hc) as (Hs & Hnc & _).
  unfold tokenize_char, lexing, classify_char.
  cbn [finding]. rewrite decide_False by (by intros []).
  rewrite !deref_chain_heap. cbn [fmap result_fmap mbind result_bind token kind].
  rewrite (determine_token_punct _ _ _ _ Hc).
  unfold close_token, switch_token.
  destruct Hk as [-> | ->]; destruct kc; try done; lex_simpl.
Qed.

(** A character that is a token by itself, after another one. *)
Lemma tokenize_char_punct s i c p T d kc pv ts :
  is_structural (kind d) = true → punct_kind c = Some kc →
  tokenize_char s i c p (lexing T d pv false true ts) =
    Ok (lexing (T ++ [d]) (tk kc (String c EmptyString)) pv false true ts).
Proof.
  intros Hd Hc. destruct (punct_kind_structural _ _ Hc) as (Hs & Hnc & _).
  unfold tokenize_char, lexing, classify_char.
  cbn [finding]. rewrite decide_False by (by intros []).
  rewrite !deref_chain_heap. cbn [fmap result_fmap mbind result_bind token kind].
  rewrite (determine_token_punct _ _ _ _ Hc).
  unfold close_token, switch_token.
  destruct d as [kd vd]. cbn [kind text] in *.
  destruct kd; try done; destruct kc; try done; lex_simpl.
Qed.

(** The first character of a word, after a token of one character. *)
Lemma tokenize_char_word_start s i c p T d k pv ts :
  is_structural (kind d) = true →
  k = tok_symbol ∨ k = tok_number →
  determine_token c p tok_undef (kind d) = k →
  tokenize_char s i c p (lexing T d pv false true ts) =
    Ok (lexing (T ++ [d]) (mk_tok k None) (Some (length T)) true false i).
Proof.
  intros Hd Hk Hc.
  unfold tokenize_char, lexing, classify_char.
  cbn [finding]. rewrite decide_False by (by intros []).
  rewrite !deref_chain_heap. cbn [fmap result_fmap mbind result_bind token kind].
  rewrite Hc. unfold close_token, switch_token.
  destruct d as [kd vd]. cbn [kind text] in *.
  destruct kd; try done; destruct Hk as [-> | ->]; lex_simpl.
Qed.

Lemma append_String c r x : String c r +:+ x = String c (r +:+ x).
Proof. reflexivity. Qed.

Lemma append_assoc_str (a b c : string) : (a +:+ b) +:+ c = a +:+ (b +:+ c).
Proof.
  induction a as [|x a IH]; [done|]. rewrite !append_String. by rewrite IH.
Qed.

Lemma length_append_str (a b : string) :
  String.length (a +:+ b) = String.length a + String.length b.
Proof.
  induction a as [|x a IH]; [done|]. rewrite append_String.
  cbn [String.length]. by rewrite IH.
Qed.

Lemma substring_middle (pre w post : string) :
  substring (String.length pre) (String.length w) (pre +:+ w +:+ post) = w.
Proof.
  induction pre as [|x pre IH]; cbn [String.length].
  - change (EmptyString +:+ w +:+ post) with (w +:+ post).
    apply substring_prefix.
  - rewrite append_String. cbn [substring]. apply IH.
Qed.

Lemma word_char_continues k c p :
  k = tok_symbol ∨ k = tok_number → word_char k c = true →
  c ≠ zero ∧ determine_token c p tok_undef k = k.
Proof.
  intros [-> | ->] Hc; cbn [word_char] in Hc.
  - apply orb_prop in Hc as [Hc|Hc].
    + split; [by apply letter_not_zero|by apply determine_token_letter].
    + split; [by apply digit_not_zero|].
      rewrite determine_token_digit by done. by rewrite decide_True.
  - split; [by apply digit_not_zero|].
    rewrite determine_token_digit by done. by rewrite decide_False.
Qed.

Lemma word_ok_chars k w :
  word_ok k w = true →
  (k = tok_symbol ∨ k = tok_number) ∧
  ∃ c r, w = String c r ∧ c ≠ zero ∧ all_chars (word_char k) r = true ∧
         ∀ p cur, cur ≠ tok_symbol → cur ≠ tok_number →
                  determine_token c p tok_undef cur = k.
Proof.
  destruct w as [|c r]; [done|]. cbn [word_ok].
  destruct k; try done; intros [Hc Hr]%andb_prop.
  - split; [by left|]. exists c, r. split; [done|].
    split; [by apply letter_not_zero|]. split; [done|].
    intros p cur _ Hcur. by apply determine_token_letter.
  - split; [by right|]. exists c, r. split; [done|].
    split; [by apply digit_not_zero|]. split; [done|].
    intros p cur Hcur _. rewrite determine_token_digit by done.
    by rewrite decide_False.
Qed.

Lemma structural_not_word k :
  is_structural k = true → k ≠ tok_symbol ∧ k ≠ tok_number.
Proof. by destruct k. Qed.

Lemma tokenize_loop_word s k T pv ts r : ∀ p i rest,
  k = tok_symbol ∨ k = tok_number → all_chars (word_char k) r = true →
  ∃ p', tokenize_loop s (r +:+ rest) p i
          (lexing T (mk_tok k None) pv true false ts) =
        tokenize_loop s rest p' (i + String.length r)
          (lexing T (mk_tok k None) pv true false ts).
Proof.
  induction r as [|c r IH]; intros p i rest Hk Hr.
  - exists p. cbn [String.length]. by rewrite Nat.add_0_r.
  - cbn [all_chars] in Hr. apply andb_prop in Hr as [Hc Hr].
    destruct (word_char_continues k c p Hk Hc) as [Hz Hd].
    rewrite append_String. cbn [tokenize_loop String.length].
    rewrite decide_False by done.
    rewrite tokenize_char_word by done. cbn [mbind result_bind].
    destruct (IH c (S i) rest Hk Hr) as (p' & ->). exists p'.
    by rewrite Nat.add_succ_r.
Qed.

Lemma tokenize_loop_items s : ∀ items,
  (∀ T d pv ts p pre,
     is_structural (kind d) = true → items_ok false items = true →
     s = pre +:+ items_text items →
     ∃ st', tokenize_loop s (items_text items) p (String.length pre)
              (lexing T d pv false true ts) = Ok (st', String.length s) ∧
            lexed s st' (T ++ [d] ++ map item_tok items)) ∧
  (∀ T k w0 pv ts p pre,
     k = tok_symbol ∨ k = tok_number → items_ok true items = true →
     s = pre +:+ items_text items →
     substring ts (String.length w0) s = w0 →
     ts + String.length w0 = String.length pre →
     ∃ st', tokenize_loop s (items_text items) p (String.length pre)
              (lexing T (mk_tok k None) pv true false ts)
              = Ok (st', String.length s) ∧
            lexed s st' (T ++ [tk k w0] ++ map item_tok items)).
Proof.
  induction items as [|x items [IHc IHo]].
  - split.
    + intros T d pv ts p pre Hd _ Hs. cbn in Hs |- *.
      rewrite append_nil_r in Hs. subst s. eexists. split; [done|].
      left. by exists T, d, pv, ts.
    + intros T k w0 pv ts p pre Hk _ Hs Hw Hlen. cbn in Hs |- *.
      rewrite append_nil_r in Hs. subst s. eexists. split; [done|].
      right. exists T, k, w0, pv, ts. split; [done|]. split; [done|].
      unfold strndup_span. by replace (String.length pre - ts)
        with (String.length w0) by lia.
  - split.
    + intros T d pv ts p pre Hd Hok Hs. destruct x as [k w|c].
      * cbn [items_ok negb andb] in Hok.
        apply andb_prop in Hok as [Hw Hok].
        destruct (word_ok_chars _ _ Hw)
          as (Hk & c & r & -> & Hz & Hr & Hdet).
        cbn [items_text foldr item_text] in Hs |- *.
        fold (items_text items) in Hs |- *.
        rewrite append_String. cbn [tokenize_loop].
        rewrite decide_False by done.
        destruct (structural_not_word _ Hd) as [Hns Hnn].
        rewrite (tokenize_char_word_start _ _ _ _ _ _ k) by auto.
        cbn [mbind result_bind].
        destruct (tokenize_loop_word s k (T ++ [d]) (Some (length T))
                    (String.length pre) r c (S (String.length pre))
                    (items_text items) Hk Hr) as (p' & ->).
        destruct (IHo (T ++ [d]) k (String c r) (Some (length T))
                    (String.length pre) p' (pre +:+ String c r) Hk Hok)
          as (st' & Hloop & Hfin).
        { by rewrite append_assoc_str. }
        { rewrite Hs. apply substring_middle. }
        { by rewrite length_append_str. }
        exists st'. rewrite length_append_str in Hloop.
        cbn [String.length] in Hloop.
        replace (S (String.length pre) + String.length r)
          with (String.length pre + S (String.length r)) by lia.
        split; [done|]. cbn [map item_tok app].
        by rewrite <- app_assoc in Hfin.
      * cbn [items_ok] in Hok. apply andb_prop in Hok as [Hc Hok].
        apply bool_decide_eq_true in Hc as [kc Hc].
        destruct (punct_kind_structural _ _ Hc) as (Hks & _ & Hz).
        cbn [items_text foldr item_text] in Hs |- *.
        fold (items_text items) in Hs |- *.
        rewrite append_String. cbn [tokenize_loop].
        rewrite decide_False by done.
        rewrite (tokenize_char_punct _ _ _ _ _ _ kc) by done.
        cbn [mbind result_bind].
        destruct (IHc (T ++ [d]) (tk kc (String c EmptyString)) pv ts c
                    (pre +:+ String c EmptyString) Hks Hok)
          as (st' & Hloop & Hfin).
        { by rewrite append_assoc_str. }
        exists st'. rewrite length_append_str in Hloop.
        cbn [String.length] in Hloop. rewrite Nat.add_1_r in Hloop.
        split; [done|]. cbn [map item_tok app]. rewrite Hc. cbn [default].
        by rewrite <- app_assoc in Hfin.
    + intros T k w0 pv ts p pre Hk Hok Hs Hw Hlen. destruct x as [k' w|c].
      * done.
      * cbn [items_ok] in Hok. apply andb_prop in Hok as [Hc Hok].
        apply bool_decide_eq_true in Hc as [kc Hc].
        destruct (punct_kind_structural _ _ Hc) as (Hks & _ & Hz).
        cbn [items_text foldr item_text] in Hs |- *.
        fold (items_text items) in Hs |- *.
        rewrite append_String. cbn [tokenize_loop].
        rewrite decide_False by done.
        rewrite (tokenize_char_punct_after_word _ _ _ _ _ _ kc) by done.
        cbn [mbind result_bind].
        assert (strndup_span s ts (String.length pre) = w0) as ->.
        { unfold strndup_span. by replace (String.length pre - ts)
            with (String.length w0) by lia. }
        destruct (IHc (T ++ [tk k w0]) (tk kc (String c EmptyString)) pv ts c
                    (pre +:+ String c EmptyString) Hks Hok)
          as (st' & Hloop & Hfin).
        { by rewrite append_assoc_str. }
        exists st'. rewrite length_append_str in Hloop.
        cbn [String.length] in Hloop. rewrite Nat.add_1_r in Hloop.
        split; [done|]. cbn [map item_tok app]. rewrite Hc. cbn [default].
        by rewrite <- app_assoc in Hfin.
Qed.

Lemma lexed_finish s st toks :
  lexed s st toks →
  (if finalized st then Ok st
   else h ← set_value (hp st) (tail st)
              (strndup_span s (token_start st) (String.length s));
        Ok (mk_lexer h (head st) (tail st) (prev st) (open st) true
              (finding st) (restrict_type st) (token_start st)))
  ≫= (λ st', chain (length (hp st')) (hp st') (head st')) = Ok toks.
Proof.
  intros [(T & d & pv & ts & -> & ->)|(T & k & w & pv & ts & -> & -> & Hw)].
  - cbn [lexing finalized mbind result_bind hp head].
    rewrite length_chain_heap.
    rewrite (chain_chain_heap T d 0) by lia. by rewrite drop_0.
  - cbn [lexing finalized hp tail head token_start prev open finding
         restrict_type].
    rewrite set_value_chain_heap. cbn [mbind result_bind hp head kind].
    rewrite length_chain_heap, Hw.
    rewrite (chain_chain_heap T _ 0) by lia. by rewrite drop_0.
Qed.

(** The whole loop, the last token and the chain read from [head]. *)
Lemma tokenize_items (k : token_type) (w : string) (items : list item) :
  items_ok false (Word k w :: items) = true →
  tokenize (items_text (Word k w :: items)) =
    Ok (map item_tok (Word k w :: items)).
Proof.
  intros Hok. cbn [items_ok negb andb] in Hok.
  apply andb_prop in Hok as [Hw Hok].
  destruct (word_ok_chars _ _ Hw) as (Hk & c & r & -> & Hz & Hr & Hdet).
  cbn [items_text foldr item_text map item_tok].
  fold (items_text items).
  set (s := String c r +:+ items_text items).
  assert (∃ st', tokenize_loop s s zero 0 lexer_init
                   = Ok (st', String.length s) ∧
                 lexed s st' (tk k (String c r) :: map item_tok items))
    as (st' & Hloop & Hfin).
  { unfold s at 2. rewrite append_String. cbn [tokenize_loop].
    rewrite decide_False by done.
    rewrite (tokenize_char_first _ _ k) by (by (apply Hdet || done)).
    cbn [mbind result_bind].
    change (in_word k) with (lexing [] (mk_tok k None) None true false 0).
    destruct (tokenize_loop_word s k [] None 0 r c 1 (items_text items)
                Hk Hr) as (p' & ->).
    apply (proj2 (tokenize_loop_items s items) [] k (String c r) None 0 p'
             (String c r) Hk Hok eq_refl); [|done].
    unfold s.
    apply (substring_middle EmptyString (String c r) (items_text items)). }
  unfold tokenize, tokenize_state. rewrite Hloop. cbn [mbind result_bind].
  by apply lexed_finish in Hfin.
Qed.


(** X21.  [name = expression]: a symbol, the equal sign and a chain of
    operands and operators are parsed as the assignment of the chain, nested
    to the right, to the variable of that name. *)
Theorem X21_treeify_assignment
    (x y : string) (eq : tok) (rest : list (tok * string)) :
  kind eq = tok_equal →
  Forall (λ p, is_binary_operator (kind (fst p)) = true) rest →
  treeify (tk tok_symbol x :: eq :: operand_chain y rest) =
    Ok (Some (set_t x (right_nested y rest))).
Proof. apply treeify_assignment. Qed.

Lemma X21_witness :
  tokenize "x = a - b" =
    Ok (tk tok_symbol "x" :: tk tok_equal "="
        :: operand_chain "a" [(tk tok_minus "-", "b")]) ∧
  treeify (tk tok_symbol "x" :: tk tok_equal "="
           :: operand_chain "a" [(tk tok_minus "-", "b")]) =
    Ok (Some (set_t "x" (bin_t tok_minus (var_t "a") (var_t "b")))).
Proof.
  split; [vm_compute; reflexivity|].
  apply (X21_treeify_assignment "x" "a" (tk tok_equal "=")
           [(tk tok_minus "-", "b")]); [done|repeat constructor].
Defined.

(** X23.  [f(x, y1, ..., yn)]: a symbol, an opening parenthesis, symbols
    separated by commas and a closing parenthesis are parsed as the call of
    [f] whose arguments are the variables, in the order written. *)
Theorem X23_treeify_call (f x : string) (xs : list string) (lp comma rp : tok) :
  kind lp = tok_lparen → kind comma = tok_comma → kind rp = tok_rparen →
  treeify (tk tok_symbol f :: lp :: csv_tokens comma x xs ++ [rp]) =
    Ok (Some (call_t f (Some (map var_t (x :: xs))))).
Proof. apply treeify_call. Qed.

Lemma X23_witness :
  tokenize "f(a, b,c)" =
    Ok (tk tok_symbol "f" :: tk tok_lparen "("
        :: csv_tokens (tk tok_comma ",") "a" ["b"; "c"]
        ++ [tk tok_rparen ")"]) ∧
  treeify (tk tok_symbol "f" :: tk tok_lparen "("
           :: csv_tokens (tk tok_comma ",") "a" ["b"; "c"]
           ++ [tk tok_rparen ")"]) =
    Ok (Some (call_t "f" (Some [var_t "a"; var_t "b"; var_t "c"]))).
Proof.
  split; [vm_compute; reflexivity|].
  by apply (X23_treeify_call "f" "a" ["b"; "c"]).
Defined.

(** X24.  A text without whitespace that starts with a word and consists
    of identifiers, decimal numbers and the characters [+ - * / , = ( )], no
    two words adjacent, is tokenized piece by piece: one symbol or number
    token per word, holding the word, and one token per other character. *)
Theorem X24_tokenize_items (k : token_type) (w : string) (items : list item) :
  items_ok false (Word k w :: items) = true →
  tokenize (items_text (Word k w :: items)) =
    Ok (map item_tok (Word k w :: items)).
Proof. apply tokenize_items. Qed.

Lemma X24_witness :
  items_ok false [Word tok_symbol "f"; Punct "("; Word tok_symbol "a1";
                  Punct ","; Word tok_number "42"; Punct ")"; Punct "*";
                  Word tok_symbol "x_0"] = true ∧
  tokenize "f(a1,42)*x_0" =
    Ok [tk tok_symbol "f"; tk tok_lparen "("; tk tok_symbol "a1";
        tk tok_comma ","; tk tok_number "42"; tk tok_rparen ")";
        tk tok_mul "*"; tk tok_symbol "x_0"].
Proof.
  split; [reflexivity|].
  apply (X24_tokenize_items tok_symbol "f"
           [Punct "("; Word tok_symbol "a1"; Punct ","; Word tok_number "42";
            Punct ")"; Punct "*"; Word tok_symbol "x_0"]).
  reflexivity.
Defined.

Lemma call_items_text ys :
  items_text (flat_map (λ y, [Punct ","; Word tok_symbol y]) ys
              ++ [Punct ")"]) =
  foldr (λ y s, "," +:+ y +:+ s) ")" ys.
Proof.
  induction ys as [|y ys IH]; [reflexivity|].
  cbn [flat_map app foldr]. rewrite <- IH. reflexivity.
Qed.

Lemma call_items_ok ys :
  Forall (λ y, is_identifier y = true) ys →
  items_ok true (flat_map (λ y, [Punct ","; Word tok_symbol y]) ys
                 ++ [Punct ")"]) = true.
Proof.
  induction 1 as [|y ys Hy _ IH]; [reflexivity|].
  cbn [flat_map app items_ok negb andb].
  unfold is_identifier in Hy. rewrite Hy, IH. reflexivity.
Qed.

Lemma call_items_tok ys : ∀ x,
  tk tok_symbol x ::
    map item_tok (flat_map (λ y, [Punct ","; Word tok_symbol y]) ys
                  ++ [Punct ")"]) =
  csv_tokens (tk tok_comma ",") x ys ++ [tk tok_rparen ")"].
Proof.
  induction ys as [|y ys IH]; intros x; [reflexivity|].
  cbn [flat_map app map csv_tokens]. rewrite <- IH. reflexivity.
Qed.

(** X25.  The text [f(x,y1,...,yn)] of identifiers is tokenized and parsed
    as the call of [f] on the variables [x], [y1], ..., [yn]. *)
Theorem X25_parse_call_text (f x : string) (ys : list string) :
  is_identifier f = true → is_identifier x = true →
  Forall (λ y, is_identifier y = true) ys →
  ∃ tokens, tokenize (call_text f x ys) = Ok tokens ∧
            treeify tokens = Ok (Some (call_t f (Some (map var_t (x :: ys))))).
Proof.
  intros Hf Hx Hys.
  pose proof (tokenize_items tok_symbol f
    (Punct "(" :: Word tok_symbol x ::
     flat_map (λ y, [Punct ","; Word tok_symbol y]) ys ++ [Punct ")"]))
    as Htok.
  cbn [items_ok negb andb] in Htok. unfold is_identifier in Hf, Hx.
  rewrite Hf, Hx, call_items_ok in Htok by done.
  specialize (Htok eq_refl).
  cbn [items_text foldr item_text] in Htok.
  fold (items_text (flat_map (λ y, [Punct ","; Word tok_symbol y]) ys
                    ++ [Punct ")"])) in Htok.
  rewrite call_items_text in Htok.
  cbn [map item_tok] in Htok. rewrite call_items_tok in Htok.
  eexists. split; [exact Htok|].
  by apply treeify_call.
Qed.

Lemma X25_witness :
  ∃ tokens, tokenize "sha256(a,b_1,c)" = Ok tokens ∧
            treeify tokens =
              Ok (Some (call_t "sha256"
                          (Some [var_t "a"; var_t "b_1"; var_t "c"]))).
Proof.
  apply (X25_parse_call_text "sha256" "a" ["b_1"; "c"]);
    [reflexivity|reflexivity|repeat constructor].
Defined.

Lemma operator_char_kind c :
  is_operator_char c = true →
  is_Some (punct_kind c) ∧
  is_binary_operator (kind (item_tok (Punct c))) = true.
Proof.
  intros H. apply bool_decide_eq_true in H.
  destruct H as [-> | [-> | [-> | ->]]]; (split; [by eexists|reflexivity]).
Qed.

Lemma assignment_items_text rest :
  items_text (flat_map (λ p, [Punct (fst p); Word tok_symbol (snd p)]) rest) =
  foldr (λ p s, String (fst p) (snd p +:+ s)) EmptyString rest.
Proof.
  induction rest as [|p rest IH]; [reflexivity|].
  cbn [flat_map app foldr]. rewrite <- IH. reflexivity.
Qed.

Lemma assignment_items_ok rest :
  Forall (λ p, is_operator_char (fst p) = true ∧
               is_identifier (snd p) = true) rest →
  items_ok true
    (flat_map (λ p, [Punct (fst p); Word tok_symbol (snd p)]) rest) = true.
Proof.
  induction 1 as [|p rest [Hc Hy] _ IH]; [reflexivity|].
  cbn [flat_map app items_ok negb andb].
  destruct (operator_char_kind _ Hc) as [Hk _].
  rewrite (bool_decide_eq_true_2 _ Hk).
  unfold is_identifier in Hy. rewrite Hy, IH. reflexivity.
Qed.

Lemma assignment_items_tok rest : ∀ y,
  tk tok_symbol y ::
    map item_tok
      (flat_map (λ p, [Punct (fst p); Word tok_symbol (snd p)]) rest) =
  operand_chain y (map operator_tok rest).
Proof.
  intros y. unfold operand_chain. f_equal.
  induction rest as [|p rest IH]; [reflexivity|].
  cbn [flat_map app map]. rewrite IH. reflexivity.
Qed.

(** X26.  The text [x=y c1 z1 ... cn zn] of identifiers and the operator
    characters [+ - * /] is tokenized and parsed as the assignment to [x]
    of the operations nested to the right, [y c1 (z1 c2 (... zn))], whatever
    the operators are. *)
Theorem X26_parse_assignment_text (x y : string) (rest : list (ascii * string)) :
  is_identifier x = true → is_identifier y = true →
  Forall (λ p, is_operator_char (fst p) = true ∧
               is_identifier (snd p) = true) rest →
  ∃ tokens, tokenize (assignment_text x y rest) = Ok tokens ∧
            treeify tokens =
              Ok (Some (set_t x (right_nested y (map operator_tok rest)))).
Proof.
  intros Hx Hy Hrest.
  pose proof (tokenize_items tok_symbol x
    (Punct "=" :: Word tok_symbol y ::
     flat_map (λ p, [Punct (fst p); Word tok_symbol (snd p)]) rest))
    as Htok.
  cbn [items_ok negb andb] in Htok. unfold is_identifier in Hx, Hy.
  rewrite Hx, Hy, assignment_items_ok in Htok by done.
  specialize (Htok eq_refl).
  cbn [items_text foldr item_text] in Htok.
  fold (items_text (flat_map (λ p, [Punct (fst p); Word tok_symbol (snd p)])
                      rest)) in Htok.
  rewrite assignment_items_text in Htok.
  cbn [map item_tok] in Htok. rewrite assignment_items_tok in Htok.
  eexists. split; [exact Htok|].
  apply treeify_assignment; [done|].
  apply Forall_forall. intros q Hq.
  apply list_elem_of_fmap in Hq as (p & -> & Hp).
  rewrite Forall_forall in Hrest. destruct (Hrest p Hp) as [Hc _].
  by destruct (operator_char_kind _ Hc).
Qed.

Lemma X26_witness :
  ∃ tokens, tokenize "x=a-b-c" = Ok tokens ∧
            treeify tokens =
              Ok (Some (set_t "x"
                (bin_t tok_minus (var_t "a")
                   (bin_t tok_minus (var_t "b") (var_t "c"))))).
Proof.
  apply (X26_parse_assignment_text "x" "a" [("-"%char, "b"); ("-"%char, "c")]);
    [reflexivity|reflexivity|repeat constructor].
Defined.

(** ** Prefix markers and pipes behind a text of words and characters *)
















































End TinyProofs.


(** * Properties of the condition stack *)

Module SeeProofs.
Import See.
#[local] Open Scope Z_scope.

Lemma leading_true_le l : (leading_true l <= length l)%nat.
Proof. induction l as [|[] l IH]; simpl; lia. Qed.

Lemma leading_true_lt l :
  Naive.all_true l = false → (leading_true l < length l)%nat.
Proof.
  unfold Naive.all_true.
  induction l as [|[] l IH]; simpl; intros H; try discriminate; try lia.
  specialize (IH H). lia.
Qed.

Lemma leading_true_all l :
  Naive.all_true l = true → leading_true l = length l.
Proof.
  unfold Naive.all_true.
  induction l as [|[] l IH]; simpl; intros H; try discriminate; auto.
Qed.

Lemma all_true_snoc l b :
  Naive.all_true (l ++ [b]) = Naive.all_true l && b.
Proof.
  unfold Naive.all_true. rewrite forallb_app. simpl.
  now rewrite andb_true_r.
Qed.

Lemma leading_true_snoc l b :
  leading_true (l ++ [b]) =
  if Naive.all_true l then (length l + (if b then 1 else 0))%nat
  else leading_true l.
Proof.
  unfold Naive.all_true.
  induction l as [|[] l IH]; simpl.
  - destruct b; reflexivity.
  - rewrite IH. destruct (forallb id l); reflexivity.
  - reflexivity.
Qed.

Lemma all_true_firstn l n :
  (n <= length l)%nat →
  Naive.all_true (firstn n l) = (n <=? leading_true l)%nat.
Proof.
  unfold Naive.all_true. revert n.
  induction l as [|[] l IH]; intros [|n] Hn; simpl in *; try reflexivity;
    try lia.
  apply IH. lia.
Qed.

Lemma u32_small z : 0 <= z <= NO_FALSE → u32 z = z.
Proof. unfold u32, NO_FALSE. intros. apply Z.mod_small. lia. Qed.

Lemma represents_init : represents [] ConditionStack_init.
Proof. unfold represents; simpl; unfold NO_FALSE; lia. Qed.

Lemma represents_push l cs f :
  represents l cs → Z.of_nat (length l) < NO_FALSE →
  represents (Naive.push_back f l) (push_back f cs).
Proof.
  intros (Hs & Hb & Hp) Hlt. unfold represents, Naive.push_back, push_back.
  cbn [m_stack_size m_first_false_pos].
  rewrite length_app, all_true_snoc, leading_true_snoc. simpl length.
  rewrite Hs, u32_small by lia.
  split; [lia|]. split; [lia|].
  rewrite Hp.
  destruct (Naive.all_true l) eqn:Ha.
  - rewrite Z.eqb_refl. destruct f; simpl; [reflexivity|lia].
  - apply leading_true_lt in Ha.
    destruct (Z.eqb_spec (Z.of_nat (leading_true l)) NO_FALSE); simpl;
      [lia|reflexivity].
Qed.

Lemma pop_back_snoc l b : Naive.pop_back (l ++ [b]) = Some l.
Proof.
  unfold Naive.pop_back. destruct (l ++ [b]) eqn:E.
  - destruct l; discriminate.
  - rewrite <- E, removelast_last. reflexivity.
Qed.

Lemma toggle_top_snoc l b : Naive.toggle_top (l ++ [b]) = Some (l ++ [negb b]).
Proof.
  unfold Naive.toggle_top. rewrite rev_unit, rev_involutive. reflexivity.
Qed.

Lemma represents_pop l b cs :
  represents (l ++ [b]) cs →
  ∃ cs', pop_back cs = Some cs' ∧ represents l cs'.
Proof.
  intros (Hs & Hb & Hp). rewrite length_app in Hs, Hb. simpl in Hs, Hb.
  rewrite all_true_snoc, leading_true_snoc in Hp.
  unfold pop_back. rewrite Hs.
  destruct (Z.gtb_spec (Z.of_nat (length l + 1)) 0); [|lia].
  eexists; split; [reflexivity|].
  unfold represents. cbn [m_stack_size m_first_false_pos].
  replace (Z.of_nat (length l + 1) - 1) with (Z.of_nat (length l)) by lia.
  rewrite u32_small by lia.
  split; [reflexivity|]. split; [lia|].
  rewrite Hp.
  destruct (Naive.all_true l) eqn:Ha; simpl.
  - destruct b.
    + unfold NO_FALSE in *.
      destruct (Z.eqb_spec 4294967295 (Z.of_nat (length l))); reflexivity.
    + rewrite Nat.add_0_r, Z.eqb_refl. reflexivity.
  - apply leading_true_lt in Ha.
    destruct (Z.eqb_spec (Z.of_nat (leading_true l)) (Z.of_nat (length l)));
      [lia|reflexivity].
Qed.

Lemma represents_toggle l b cs :
  represents (l ++ [b]) cs →
  ∃ cs', toggle_top cs = Some cs' ∧ represents (l ++ [negb b]) cs'.
Proof.
  intros (Hs & Hb & Hp). rewrite length_app in Hs, Hb. simpl in Hs, Hb.
  rewrite all_true_snoc, leading_true_snoc in Hp.
  unfold toggle_top. rewrite Hs.
  destruct (Z.gtb_spec (Z.of_nat (length l + 1)) 0); [|lia].
  replace (Z.of_nat (length l + 1) - 1) with (Z.of_nat (length l)) by lia.
  rewrite u32_small by lia.
  assert (Hrep : ∀ sz pos,
    sz = Z.of_nat (length l + 1) →
    pos = (if Naive.all_true l && negb b then NO_FALSE
           else Z.of_nat (if Naive.all_true l
                          then length l + (if negb b then 1 else 0)
                          else leading_true l)%nat) →
    represents (l ++ [negb b]) (mk_ConditionStack sz pos)).
  { intros sz pos -> ->. unfold represents.
    cbn [m_stack_size m_first_false_pos].
    rewrite length_app, all_true_snoc, leading_true_snoc. simpl length.
    split; [reflexivity|]. split; [lia|reflexivity]. }
  rewrite Hp.
  destruct (Naive.all_true l) eqn:Ha.
  - destruct b; cbn [andb negb];
      repeat match goal with
             | |- context [Z.eqb ?x ?y] => destruct (Z.eqb_spec x y)
             end;
      try (unfold NO_FALSE in *; lia);
      (eexists; split; [reflexivity|]);
      (apply Hrep; [reflexivity|]); cbn [andb negb];
      try reflexivity; f_equal; lia.
  - pose proof (leading_true_lt l Ha). cbn [andb].
    repeat match goal with
           | |- context [Z.eqb ?x ?y] => destruct (Z.eqb_spec x y)
           end;
      try (unfold NO_FALSE in *; lia).
    eexists; split; [reflexivity|].
    destruct cs as [sz pos]; cbn [m_stack_size m_first_false_pos] in *.
    apply Hrep; assumption.
Qed.

Lemma snoc_cases {A} (l : list A) : l = [] ∨ ∃ l' x, l = l' ++ [x].
Proof.
  destruct l as [|a l] using rev_ind; [left; reflexivity|].
  right; eauto.
Qed.

(** One operation: both stacks refuse it, or both accept it and stay
    related. *)
Lemma apply_op_simulation o l cs :
  represents l cs → Z.of_nat (length l) < NO_FALSE →
  match Naive.apply_op o l, apply_op o cs with
  | Some l', Some cs' =>
      represents l' cs' ∧ (length l' <= S (length l))%nat
  | None, None => True
  | _, _ => False
  end.
Proof.
  intros HR Hlt. destruct o as [f| |]; simpl.
  - split; [now apply represents_push|].
    unfold Naive.push_back. rewrite length_app. simpl. lia.
  - destruct (snoc_cases l) as [->|(l' & b & ->)].
    + destruct HR as (Hs & _ & _). simpl in Hs.
      unfold pop_back. rewrite Hs. reflexivity.
    + rewrite pop_back_snoc.
      destruct (represents_pop _ _ _ HR) as (cs' & -> & HR').
      split; [assumption|]. rewrite length_app. simpl. lia.
  - destruct (snoc_cases l) as [->|(l' & b & ->)].
    + destruct HR as (Hs & _ & _). simpl in Hs.
      unfold toggle_top. rewrite Hs. reflexivity.
    + rewrite toggle_top_snoc.
      destruct (represents_toggle _ _ _ HR) as (cs' & -> & HR').
      split; [assumption|]. rewrite !length_app. simpl. lia.
Qed.

Lemma run_simulation ops : ∀ l cs,
  represents l cs →
  Z.of_nat (length l) + Z.of_nat (length ops) <= NO_FALSE →
  match Naive.run ops l, run ops cs with
  | Some l', Some cs' => represents l' cs'
  | None, None => True
  | _, _ => False
  end.
Proof.
  induction ops as [|o ops IH]; intros l cs HR Hb; simpl.
  - assumption.
  - simpl length in Hb.
    pose proof (apply_op_simulation o l cs HR ltac:(lia)) as Hstep.
    destruct (Naive.apply_op o l) as [l'|], (apply_op o cs) as [cs'|];
      try contradiction; [|exact I].
    destruct Hstep as [HR' Hlen]. apply IH; [assumption|lia].
Qed.

(** C10, as stated, fails: [at] tells whether a false lies at or below the
    index, not the entry at the index. *)
Lemma C10_counterexample :
  Naive.run [Push false; Push true] [] = Some [false; true] ∧
  run [Push false; Push true] ConditionStack_init
    = Some (mk_ConditionStack 2 0) ∧
  1 < size (mk_ConditionStack 2 0) ∧
  at_ (mk_ConditionStack 2 0) 1 = false ∧
  Naive.at_ [false; true] 1 = true.
Proof. repeat split; vm_compute; reflexivity. Qed.

(** The size is kept in 32 bits: after 2^32 pushes the class stands for the
    empty stack again. *)
Lemma run_push_true (n : nat) : ∀ sz,
  run (repeat (Push true) n) (mk_ConditionStack sz NO_FALSE) =
  Some (mk_ConditionStack (if n is O then sz else u32 (sz + Z.of_nat n))
          NO_FALSE).
Proof.
  induction n as [|n IH]; intros sz; [reflexivity|].
  cbn [repeat run apply_op]. unfold push_back at 1.
  cbn [m_stack_size m_first_false_pos]. rewrite Z.eqb_refl. cbn [negb andb].
  rewrite IH. destruct n as [|n]; [do 2 f_equal; f_equal; lia|].
  do 2 f_equal. unfold u32. rewrite Zplus_mod_idemp_l. f_equal. lia.
Qed.

Lemma size_wraps_around :
  run (repeat (Push true) (Z.to_nat 4294967296)) ConditionStack_init =
  Some ConditionStack_init.
Proof.
  unfold ConditionStack_init. rewrite run_push_true.
  destruct (Z.to_nat 4294967296) as [|n] eqn:E; [lia|].
  rewrite <- E, Z2Nat.id by lia. reflexivity.
Qed.

(** C10, amended.  For every sequence of fewer than 2^32 operations that
    the stack of booleans accepts, the class accepts it too, and its
    [empty], [size] and [all_true] agree with the stack of booleans, while
    [at(idx)] for idx < size tells whether the entries 0..idx are all
    true. *)
Theorem C10_condition_stack_refines_naive (ops : list op) (l : Naive.stack) :
  Z.of_nat (length ops) <= NO_FALSE →
  Naive.run ops [] = Some l →
  ∃ cs, run ops ConditionStack_init = Some cs ∧
        empty cs = Naive.empty l ∧
        size cs = Naive.size l ∧
        all_true cs = Naive.all_true l ∧
        ∀ idx, 0 <= idx < size cs →
          at_ cs idx = Naive.all_true (firstn (S (Z.to_nat idx)) l).
Proof.
  intros Hb Hn.
  pose proof (run_simulation ops [] ConditionStack_init represents_init
                ltac:(simpl; lia)) as H.
  rewrite Hn in H.
  destruct (run ops ConditionStack_init) as [cs|]; [|contradiction].
  destruct H as (Hs & Hle & Hp).
  exists cs. split; [reflexivity|].
  unfold empty, size, all_true, at_, Naive.empty, Naive.size.
  rewrite Hs, Hp. repeat split.
  - destruct l; simpl; [reflexivity|].
    destruct (Z.eqb_spec (Z.pos (Pos.of_succ_nat (length l))) 0); [lia|reflexivity].
  - destruct (Naive.all_true l) eqn:Ha; [apply Z.eqb_refl|].
    apply leading_true_lt in Ha.
    destruct (Z.eqb_spec (Z.of_nat (leading_true l)) NO_FALSE); [lia|reflexivity].
  - intros idx Hidx.
    rewrite all_true_firstn by lia.
    destruct (Naive.all_true l) eqn:Ha.
    + rewrite (leading_true_all l Ha).
      destruct (Z.gtb_spec NO_FALSE idx); [|lia].
      symmetry. apply Nat.leb_le. lia.
    + destruct (Z.gtb_spec (Z.of_nat (leading_true l)) idx);
        symmetry; [apply Nat.leb_le|apply Nat.leb_gt]; lia.
Qed.

Lemma C10_witness :
  ∃ cs, run [Push true; Push false; Push true; Toggle; Pop]
          ConditionStack_init = Some cs ∧
        empty cs = Naive.empty [true; false] ∧
        size cs = Naive.size [true; false] ∧
        all_true cs = Naive.all_true [true; false] ∧
        ∀ idx, 0 <= idx < size cs →
          at_ cs idx = Naive.all_true (firstn (S (Z.to_nat idx)) [true; false]).
Proof.
  apply (C10_condition_stack_refines_naive
           [Push true; Push false; Push true; Toggle; Pop] [true; false]).
  - vm_compute. discriminate.
  - vm_compute. reflexivity.
Defined.

(** ** Further properties *)

Ltac see_cases :=
  repeat match goal with
  | |- context [Z.eqb ?a ?b] => destruct (Z.eqb_spec a b)
  | |- context [Z.gtb ?a ?b] => destruct (Z.gtb_spec a b)
  | H : context [Z.eqb ?a ?b] |- _ => destruct (Z.eqb_spec a b)
  | H : context [Z.gtb ?a ?b] |- _ => destruct (Z.gtb_spec a b)
  end.

Lemma push_back_well_formed f cs :
  well_formed cs → m_stack_size cs < NO_FALSE → well_formed (push_back f cs).
Proof.
  destruct cs as [sz pos]. unfold well_formed, push_back.
  cbn [m_stack_size m_first_false_pos]. intros [Hs Hp] Hlt.
  rewrite u32_small by lia.
  split; [lia|]. destruct f; cbn [negb]; see_cases; cbn [andb]; lia.
Qed.

Lemma pop_back_well_formed cs cs' :
  well_formed cs → pop_back cs = Some cs' → well_formed cs'.
Proof.
  destruct cs as [sz pos]. unfold well_formed, pop_back.
  cbn [m_stack_size m_first_false_pos]. intros [Hs Hp] H.
  destruct (Z.gtb_spec sz 0); [|discriminate].
  rewrite u32_small in H by lia. injection H as <-.
  cbn [m_stack_size m_first_false_pos]. split; [lia|].
  see_cases; lia.
Qed.

Lemma toggle_top_well_formed cs cs' :
  well_formed cs → toggle_top cs = Some cs' → well_formed cs'.
Proof.
  destruct cs as [sz pos]. unfold well_formed, toggle_top.
  cbn [m_stack_size m_first_false_pos]. intros [Hs Hp] H.
  destruct (Z.gtb_spec sz 0); [|discriminate].
  rewrite u32_small in H by lia.
  destruct (Z.eqb_spec pos NO_FALSE);
    [|destruct (Z.eqb_spec pos (sz - 1))]; injection H as <-;
    cbn [m_stack_size m_first_false_pos]; lia.
Qed.

(** X17.  While the size stays below 2^32, every operation keeps the position of
    the first false either at [NO_FALSE] or inside the stack. *)
Theorem X17_run_well_formed (ops : list op) : ∀ cs cs',
  well_formed cs →
  m_stack_size cs + Z.of_nat (length ops) <= NO_FALSE →
  run ops cs = Some cs' → well_formed cs'.
Proof.
  induction ops as [|o ops IH]; intros cs cs' Hwf Hlen H; cbn [run] in H.
  - by injection H as <-.
  - cbn [length] in Hlen.
    destruct (apply_op o cs) as [cs1|] eqn:Ho; [|discriminate].
    apply (IH cs1 cs'); [| |done].
    + destruct o; cbn [apply_op] in Ho.
      * injection Ho as <-. apply push_back_well_formed; [done|lia].
      * by eapply pop_back_well_formed.
      * by eapply toggle_top_well_formed.
    + assert (m_stack_size cs1 <= m_stack_size cs + 1); [|lia].
      destruct Hwf as [Hs _]. destruct cs as [sz pos].
      destruct o; cbn [apply_op] in Ho;
        unfold push_back, pop_back, toggle_top in Ho;
        cbn [m_stack_size m_first_false_pos] in *.
      * injection Ho as <-. cbn [m_stack_size].
        rewrite u32_small by lia. lia.
      * destruct (Z.gtb_spec sz 0); [|discriminate].
        rewrite u32_small in Ho by lia. injection Ho as <-.
        cbn [m_stack_size]. lia.
      * destruct (Z.gtb_spec sz 0); [|discriminate].
        see_cases; injection Ho as <-; cbn [m_stack_size]; lia.
Qed.

Lemma X17_witness :
  well_formed (mk_ConditionStack 1 0).
Proof.
  apply (X17_run_well_formed [Push true; Push false; Toggle; Push false; Pop; Pop; Toggle]
           ConditionStack_init).
  - vm_compute. split; [split; discriminate|left; reflexivity].
  - vm_compute. discriminate.
  - vm_compute. reflexivity.
Defined.

(** X18.  [pop_back] undoes [push_back]; when the stack already holds 2^32 - 1
    entries the size wraps to zero and the assertion of [pop_back] fails. *)
Theorem X18_pop_back_push_back (f : bool) (cs : ConditionStack) :
  well_formed cs →
  pop_back (push_back f cs) =
    if m_stack_size cs =? NO_FALSE then None else Some cs.
Proof.
  destruct cs as [sz pos]. unfold well_formed, push_back, pop_back.
  cbn [m_stack_size m_first_false_pos]. intros [Hs Hp].
  destruct (Z.eqb_spec sz NO_FALSE) as [->|Hne].
  - reflexivity.
  - rewrite (u32_small (sz + 1)) by lia.
    destruct (Z.gtb_spec (sz + 1) 0); [|lia].
    replace (sz + 1 - 1) with sz by lia. rewrite u32_small by lia.
    destruct Hp as [->|Hp].
    + rewrite Z.eqb_refl. destruct f; cbn [negb andb].
      * destruct (Z.eqb_spec NO_FALSE sz); [lia|reflexivity].
      * by rewrite Z.eqb_refl.
    + destruct (Z.eqb_spec pos NO_FALSE); [unfold NO_FALSE in *; lia|].
      cbn [andb]. destruct (Z.eqb_spec pos sz); [lia|reflexivity].
Qed.

Lemma X18_witness :
  pop_back (push_back false (mk_ConditionStack 3 1)) =
    Some (mk_ConditionStack 3 1).
Proof.
  apply (X18_pop_back_push_back false (mk_ConditionStack 3 1)).
  vm_compute. split; [split; discriminate|right; split; [discriminate|reflexivity]].
Defined.

(** X19.  Toggling the top twice gives back the stack. *)
Theorem X19_toggle_top_involutive (cs cs' : ConditionStack) :
  well_formed cs → toggle_top cs = Some cs' → toggle_top cs' = Some cs.
Proof.
  destruct cs as [sz pos]. unfold well_formed, toggle_top.
  cbn [m_stack_size m_first_false_pos]. intros [Hs Hp] H.
  destruct (Z.gtb_spec sz 0); [|discriminate].
  rewrite u32_small in * by lia.
  destruct (Z.eqb_spec pos NO_FALSE) as [->|Hp1];
    [|destruct (Z.eqb_spec pos (sz - 1)) as [->|Hp2]]; injection H as <-;
    cbn [m_stack_size m_first_false_pos]; rewrite ?u32_small by lia.
  - destruct (Z.gtb_spec sz 0); [|lia].
    destruct (Z.eqb_spec (sz - 1) NO_FALSE); [lia|].
    by rewrite Z.eqb_refl.
  - destruct (Z.gtb_spec sz 0); [|lia]. by rewrite Z.eqb_refl.
  - destruct (Z.gtb_spec sz 0); [|lia].
    destruct (Z.eqb_spec pos NO_FALSE); [lia|].
    destruct (Z.eqb_spec pos (sz - 1)); [lia|]. reflexivity.
Qed.

Lemma X19_witness :
  toggle_top (mk_ConditionStack 3 2) = Some (mk_ConditionStack 3 NO_FALSE).
Proof.
  apply (X19_toggle_top_involutive (mk_ConditionStack 3 NO_FALSE)).
  - vm_compute. split; [split; discriminate|left; reflexivity].
  - vm_compute. reflexivity.
Defined.

(** X20.  [size()] counts modulo 2^32: after [n] pushes of [true] it is
    [n mod 2^32], so that [empty()] holds again after 2^32 pushes. *)
Theorem X20_size_counts_modulo (n : nat) :
  ∃ cs, run (repeat (Push true) n) ConditionStack_init = Some cs ∧
        size cs = Z.of_nat n mod 4294967296 ∧
        empty cs = (Z.of_nat n mod 4294967296 =? 0) ∧
        all_true cs = true.
Proof.
  unfold ConditionStack_init. rewrite run_push_true.
  eexists. split; [reflexivity|].
  unfold size, empty, all_true. cbn [m_stack_size m_first_false_pos].
  destruct n as [|n]; [by vm_compute|].
  unfold u32. rewrite Z.add_0_l. by rewrite Z.eqb_refl.
Qed.

End SeeProofs.
